(** * Route and dispatcher selection of go-restful (jsr311.go)

    A shallow embedding of [src/jsr311.go]: the template compiler
    [templateToRegularExpression], the two candidate comparators
    ([sortableRouteCandidates.Less], [sortableCandidates.Less]) and the two
    selectors [selectRoutes] and [detectDispatcher], together with the part
    of the Go standard library they call ([strings], [bytes], [utf8],
    [regexp], [sort], [errors]).

    Go strings are byte sequences: they are lists of [ascii] here, [len] is
    [length], and a "character" of a string is one byte.  Go's [int] is [Z];
    every counter of the file is bounded by the length of a string, so no
    addition wraps. *)

From Stdlib Require Import String Ascii List ZArith NArith Arith Bool Lia.
From Stdlib Require Import Permutation Sorted.
Import ListNotations.

Set Implicit Arguments.

(** ** Go strings *)

Abbreviation gostring := (list ascii).

(** A string literal of the source. *)
Definition str (s : String.string) : gostring := list_ascii_of_string s.

(** [a == b] on strings. *)
Fixpoint streq (a b : gostring) : bool :=
  match a, b with
  | [], [] => true
  | x :: a', y :: b' => Ascii.eqb x y && streq a' b'
  | _, _ => false
  end.

(** [s[i]] as a number; the callers check [i < len(s)] first. *)
Definition byteAt (s : gostring) (i : nat) : N := N_of_ascii (nth i s zero).

(** ** unicode/utf8 *)

Module utf8.

Definition RuneError : N := 0xFFFD.
Definition RuneSelf : N := 0x80.
Definition MaxRune : N := 0x10FFFF.

(** An entry of the table [first]: [as_] for ASCII, [xx] for an invalid
    first byte, otherwise the size of the encoding and the range accepted
    for the second byte. *)
Inductive firstInfo : Type :=
| as_
| xx
| lead (sz : nat) (lo hi : N).

Definition locb : N := 0x80.
Definition hicb : N := 0xBF.
Definition maskx : N := 0x3F.
Definition mask2 : N := 0x1F.
Definition mask3 : N := 0x0F.
Definition mask4 : N := 0x07.

Definition first (b : N) : firstInfo :=
  if (b <? 0x80)%N then as_
  else if (b <? 0xC2)%N then xx
  else if (b <? 0xE0)%N then lead 2 locb hicb
  else if (b =? 0xE0)%N then lead 3 0xA0 hicb
  else if (b <? 0xED)%N then lead 3 locb hicb
  else if (b =? 0xED)%N then lead 3 locb 0x9F
  else if (b <? 0xF0)%N then lead 3 locb hicb
  else if (b =? 0xF0)%N then lead 4 0x90 hicb
  else if (b <? 0xF4)%N then lead 4 locb hicb
  else if (b =? 0xF4)%N then lead 4 locb 0x8F
  else xx.

(** [utf8.DecodeRuneInString]: the first rune of [s] and its width in
    bytes; [(RuneError, 1)] for an invalid or truncated encoding. *)
Definition DecodeRuneInString (s : gostring) : N * nat :=
  match s with
  | [] => (RuneError, 0)
  | c0 :: _ =>
    let s0 := N_of_ascii c0 in
    match first s0 with
    | as_ => (s0, 1)
    | xx => (RuneError, 1)
    | lead sz lo hi =>
      if length s <? sz then (RuneError, 1) else
      let s1 := byteAt s 1 in
      if ((s1 <? lo) || (hi <? s1))%N then (RuneError, 1) else
      if sz <=? 2 then
        (N.lor (N.shiftl (N.land s0 mask2) 6) (N.land s1 maskx), 2)
      else
      let s2 := byteAt s 2 in
      if ((s2 <? locb) || (hicb <? s2))%N then (RuneError, 1) else
      if sz <=? 3 then
        (N.lor (N.lor (N.shiftl (N.land s0 mask3) 12)
                      (N.shiftl (N.land s1 maskx) 6))
               (N.land s2 maskx), 3)
      else
      let s3 := byteAt s 3 in
      if ((s3 <? locb) || (hicb <? s3))%N then (RuneError, 1) else
        (N.lor (N.lor (N.lor (N.shiftl (N.land s0 mask4) 18)
                             (N.shiftl (N.land s1 maskx) 12))
                      (N.shiftl (N.land s2 maskx) 6))
               (N.land s3 maskx), 4)
    end
  end.

End utf8.

(** ** strings and bytes *)

Module strings.

(** [strings.Split(s, sep)] for a separator of one byte: the pieces of [s]
    between the occurrences of [sep]; one piece more than there are
    separators, so [Split "" sep] is [[""]]. *)
Fixpoint Split (s : gostring) (sep : ascii) : list gostring :=
  match s with
  | [] => [[]]
  | c :: t =>
    if Ascii.eqb c sep then [] :: Split t sep
    else match Split t sep with
         | [] => [[c]]
         | piece :: pieces => (c :: piece) :: pieces
         end
  end.

(** [strings.HasPrefix]. *)
Fixpoint HasPrefix (s prefix : gostring) : bool :=
  match prefix, s with
  | [], _ => true
  | p :: prefix', c :: s' => Ascii.eqb c p && HasPrefix s' prefix'
  | _ :: _, [] => false
  end.

Fixpoint dropWhile (f : ascii -> bool) (s : gostring) : gostring :=
  match s with
  | [] => []
  | c :: t => if f c then dropWhile f t else s
  end.

(** [strings.TrimRight(s, cutset)] for a cutset of ASCII bytes: [s]
    without its trailing bytes that are in [cutset]. *)
Definition TrimRight (s cutset : gostring) : gostring :=
  rev (dropWhile (fun c => existsb (Ascii.eqb c) cutset) (rev s)).


End strings.

Module bytes.

(** [bytes.Buffer], as the file uses it: written to with [WriteString],
    read once with [String]. *)
Definition Buffer : Type := gostring.
Definition empty : Buffer := [].
Definition WriteString (b : Buffer) (s : gostring) : Buffer := b ++ s.
Definition String (b : Buffer) : gostring := b.

End bytes.

(** ** regexp/syntax

    The syntax tree and the parser of Go's regular expressions, for the
    fragment of the syntax that [templateToRegularExpression] can emit:
    literal runes, [\c] for a punctuation byte [c], capture groups, [.],
    a negated class of one byte ([[^/]]) and the repetitions [*], [+], [?]
    with their non-greedy forms, of a sub-expression that is no repetition
    itself and, for [*] and [+], cannot match the empty string.
    Everything else is rejected ([None]);
    [Compile_templateToRegularExpression] and [Compile_template_valid]
    below show that an expression built from a template is rejected only when a
    literal segment is not valid UTF-8, which is when Go rejects it too.
    The limits that recent Go releases put on the size of an expression
    (tens of millions of runes) are not modelled. *)

Module syntax.

Inductive Regexp : Type :=
| OpEmptyMatch
| OpLiteral (r : N)
| OpCharClass (ranges : list (N * N))
| OpAnyCharNotNL
| OpCapture (cap : nat) (sub : Regexp)
| OpStar (greedy : bool) (sub : Regexp)
| OpPlus (greedy : bool) (sub : Regexp)
| OpQuest (greedy : bool) (sub : Regexp)
| OpConcat (a b : Regexp).

(** [Regexp.MaxCap]: the largest capture index of the tree. *)
Fixpoint MaxCap (re : Regexp) : nat :=
  match re with
  | OpCapture cap sub => Nat.max cap (MaxCap sub)
  | OpStar _ sub | OpPlus _ sub | OpQuest _ sub => MaxCap sub
  | OpConcat a b => Nat.max (MaxCap a) (MaxCap b)
  | _ => 0
  end.

(** The concatenation of the items of one nesting level, in order. *)
Fixpoint concat (subs : list Regexp) : Regexp :=
  match subs with
  | [] => OpEmptyMatch
  | [x] => x
  | x :: rest => OpConcat x (concat rest)
  end.

Definition isRepeat (re : Regexp) : bool :=
  match re with
  | OpStar _ _ | OpPlus _ _ | OpQuest _ _ => true
  | _ => false
  end.

(** Can [re] match the empty string? *)
Fixpoint nullable (re : Regexp) : bool :=
  match re with
  | OpEmptyMatch | OpStar _ _ | OpQuest _ _ => true
  | OpLiteral _ | OpCharClass _ | OpAnyCharNotNL => false
  | OpCapture _ sub | OpPlus _ sub => nullable sub
  | OpConcat a b => nullable a && nullable b
  end.

(** The parser's state: the items of the group being read, last one
    first, and below them the enclosing groups, each with its capture
    index and the items read before its parenthesis. *)
Record parser : Type := mkParser {
  stack : list (nat * list Regexp);
  cur : list Regexp;
  numCap : nat
}.

Definition push (re : Regexp) (p : parser) : parser :=
  mkParser (stack p) (re :: cur p) (numCap p).

Definition isalnum (c : ascii) : bool :=
  let n := N_of_ascii c in
  ((48 <=? n) && (n <=? 57) || (65 <=? n) && (n <=? 90)
   || (97 <=? n) && (n <=? 122))%N.

(** The bytes with a meaning of their own in the syntax. *)
Definition special (b : ascii) : bool :=
  existsb (Ascii.eqb b) (str "\.+*?()|[]{}^$").

(** A negated class of the one rune [c]. *)
Definition negatedClass (c : N) : list (N * N) :=
  (if (c =? 0)%N then [] else [(0%N, N.pred c)]) ++ [(N.succ c, utf8.MaxRune)].

(** A repetition operator applied to the last item read. *)
Definition repeat (op : bool -> Regexp -> Regexp) (star : bool)
           (after : gostring) (p : parser) : option (gostring * parser) :=
  match cur p with
  | [] => None
  | x :: items =>
    if isRepeat x || (star && nullable x) then None
    else match after with
         | c :: after' =>
           if Ascii.eqb c "?"
           then Some (after', mkParser (stack p) (op false x :: items) (numCap p))
           else Some (after, mkParser (stack p) (op true x :: items) (numCap p))
         | [] => Some (after, mkParser (stack p) (op true x :: items) (numCap p))
         end
  end.

(** One turn of the parser's loop on the non-empty rest [t] of the
    expression: the switch on [t[0]]. *)
Definition parse_step (t : gostring) (p : parser) : option (gostring * parser) :=
  match t with
  | [] => None
  | c :: t' =>
    if Ascii.eqb c "(" then
      match t' with
      | q :: _ =>
        if Ascii.eqb q "?" then None
        else Some (t', mkParser ((S (numCap p), cur p) :: stack p) [] (S (numCap p)))
      | [] => Some (t', mkParser ((S (numCap p), cur p) :: stack p) [] (S (numCap p)))
      end
    else if Ascii.eqb c ")" then
      match stack p with
      | [] => None
      | (cap, outer) :: below =>
        Some (t', mkParser below (OpCapture cap (concat (rev (cur p))) :: outer) (numCap p))
      end
    else if Ascii.eqb c "*" then repeat OpStar true t' p
    else if Ascii.eqb c "+" then repeat OpPlus true t' p
    else if Ascii.eqb c "?" then repeat OpQuest false t' p
    else if Ascii.eqb c "." then Some (t', push OpAnyCharNotNL p)
    else if Ascii.eqb c "[" then
      match t' with
      | neg :: x :: close :: t'' =>
        if Ascii.eqb neg "^" && Ascii.eqb close "]"
           && (N_of_ascii x <? utf8.RuneSelf)%N
           && negb (special x) && negb (Ascii.eqb x "-")
        then Some (t'', push (OpCharClass (negatedClass (N_of_ascii x))) p)
        else None
      | _ => None
      end
    else if Ascii.eqb c "\" then
      match t' with
      | x :: t'' =>
        if (N_of_ascii x <? utf8.RuneSelf)%N && negb (isalnum x)
        then Some (t'', push (OpLiteral (N_of_ascii x)) p)
        else None
      | [] => None
      end
    else if special c then None
    else
      let (r, size) := utf8.DecodeRuneInString t in
      if (r =? utf8.RuneError)%N && (size =? 1) then None
      else Some (skipn size t, push (OpLiteral r) p)
  end.

(** The parser's loop; every turn consumes at least one byte, so
    [length t] turns are enough ([parse_loop_fuel]). *)
Fixpoint parse_loop (fuel : nat) (t : gostring) (p : parser) : option Regexp :=
  match t with
  | [] =>
    match stack p with
    | [] => Some (concat (rev (cur p)))
    | _ :: _ => None
    end
  | _ :: _ =>
    match fuel with
    | 0 => None
    | S fuel' =>
      match parse_step t p with
      | Some (t', p') => parse_loop fuel' t' p'
      | None => None
      end
    end
  end.

(** [syntax.Parse(s, syntax.Perl)]. *)
Definition Parse (s : gostring) : option Regexp :=
  parse_loop (length s) s (mkParser [] [] 0).

End syntax.

(** ** regexp *)

Module regexp.

Import syntax.

(** [regexp.QuoteMeta]: a backslash before every byte that is special. *)
Fixpoint QuoteMeta (s : gostring) : gostring :=
  match s with
  | [] => []
  | c :: t => if special c then "\"%char :: c :: QuoteMeta t else c :: QuoteMeta t
  end.

Record Regexp : Type := mkRegexp {
  expr : gostring;
  tree : syntax.Regexp;
  numSubexp : nat
}.

(** [regexp.Compile]: [None] stands for the error. *)
Definition Compile (expr : gostring) : option Regexp :=
  match Parse expr with
  | Some re => Some (mkRegexp expr re (MaxCap re))
  | None => None
  end.

(** The captures made so far, latest first. *)
Definition caps : Type := list (nat * gostring).

Fixpoint capture (c : caps) (i : nat) : gostring :=
  match c with
  | [] => []
  | (j, text) :: c' => if i =? j then text else capture c' i
  end.

(** A match in progress ends at a rest of the text with its captures. *)
Definition result : Type := (gostring * caps)%type.
Definition cont : Type := gostring -> caps -> option result.

Definition inClass (ranges : list (N * N)) (r : N) : bool :=
  existsb (fun range => (fst range <=? r) && (r <=? snd range))%N ranges.

(** One rune of the text against a test. *)
Definition stepRune (test : N -> bool) (s : gostring) (c : caps) (k : cont)
  : option result :=
  match s with
  | [] => None
  | _ :: _ =>
    let (r, size) := utf8.DecodeRuneInString s in
    if test r then k (skipn size s) c else None
  end.

(** The iterations of a star: at most [n] more, each consuming text. *)
Fixpoint loop (body : gostring -> caps -> cont -> option result)
         (greedy : bool) (k : cont) (n : nat) (s : gostring) (c : caps)
  : option result :=
  match n with
  | 0 => k s c
  | S n' =>
    let again (_ : unit) :=
      body s c (fun s' c' =>
                  if length s' <? length s then loop body greedy k n' s' c'
                  else None) in
    if greedy then
      match again tt with
      | Some r => Some r
      | None => k s c
      end
    else
      match k s c with
      | Some r => Some r
      | None => again tt
      end
  end.

(** The match a backtracking engine finds first (Go's leftmost-first
    rule), from the start of [s], in continuation-passing style.  The
    text is read rune by rune, an invalid byte as [RuneError] of width 1,
    as Go's matching engines read it. *)
Fixpoint run (re : syntax.Regexp) (s : gostring) (c : caps) (k : cont)
  : option result :=
  match re with
  | OpEmptyMatch => k s c
  | OpLiteral r => stepRune (N.eqb r) s c k
  | OpCharClass ranges => stepRune (inClass ranges) s c k
  | OpAnyCharNotNL => stepRune (fun r => negb (r =? 10)%N) s c k
  | OpCapture cap sub =>
    run sub s c
        (fun s' c' => k s' ((cap, firstn (length s - length s') s) :: c'))
  | OpConcat a b => run a s c (fun s' c' => run b s' c' k)
  | OpQuest greedy sub =>
    if greedy then
      match run sub s c k with
      | Some r => Some r
      | None => k s c
      end
    else
      match k s c with
      | Some r => Some r
      | None => run sub s c k
      end
  | OpStar greedy sub => loop (run sub) greedy k (length s) s c
  | OpPlus greedy sub =>
    run sub s c (fun s' c' => loop (run sub) greedy k (length s') s' c')
  end.

(** The leftmost match: the first start, rune by rune, from which [run]
    succeeds.  The result is the start, the end and the captures. *)
Fixpoint search (re : syntax.Regexp) (fuel : nat) (s : gostring)
  : option (gostring * result) :=
  match run re s [] (fun s' c => Some (s', c)) with
  | Some r => Some (s, r)
  | None =>
    match fuel, s with
    | S fuel', _ :: _ => search re fuel' (skipn (snd (utf8.DecodeRuneInString s)) s)
    | _, _ => None
    end
  end.

(** [Regexp.FindStringSubmatch]: [None] stands for [nil]; otherwise the
    text of the match, then the text of each group, [""] for a group
    that did not take part. *)
Definition FindStringSubmatch (re : Regexp) (s : gostring) : option (list gostring) :=
  match search (tree re) (length s) s with
  | None => None
  | Some (start, (stop, c)) =>
    Some (firstn (length start - length stop) start
            :: map (capture c) (seq 1 (numSubexp re)))
  end.

End regexp.

(** ** sort, errors, log *)

Module sort.

(** What [sort.Sort] needs of [Less] to sort: a strict weak order. *)
Record StrictWeakOrder (A : Type) (less : A -> A -> bool) : Prop := {
  less_irrefl : forall x, less x x = false;
  less_trans : forall x y z, less x y = true -> less y z = true -> less x z = true;
  less_incomparable : forall x y z,
      less x y = false -> less y z = false -> less x z = false
}.

(** [sortedBy less l]: no element is less than one before it. *)
Definition sortedBy (A : Type) (less : A -> A -> bool) (l : list A) : Prop :=
  StronglySorted (fun x y => less y x = false) l.

(** [sort.Sort] is not stable and its algorithm differs between Go
    releases; the selectors are modelled over any implementation that
    meets its contract: the slice is permuted, and sorted when [Less] is
    a strict weak order.  [less x y] is [Less(i, j)] for [x] at [i] and
    [y] at [j]. *)
Class Sorter : Type := {
  Sort : forall A : Type, (A -> A -> bool) -> list A -> list A;
  Sort_Permutation : forall (A : Type) (less : A -> A -> bool) (l : list A),
      Permutation l (Sort less l);
  Sort_sortedBy : forall (A : Type) (less : A -> A -> bool) (l : list A),
      StrictWeakOrder less -> sortedBy less (Sort less l)
}.

(** An implementation, by insertion; it keeps the order of the elements
    that [less] does not tell apart, as the insertion sort that [sort.Sort]
    runs on a short slice does. *)
Fixpoint insert (A : Type) (less : A -> A -> bool) (x : A) (l : list A) : list A :=
  match l with
  | [] => [x]
  | y :: l' => if less y x then y :: insert less x l' else x :: l
  end.

Fixpoint insertionSort (A : Type) (less : A -> A -> bool) (l : list A) : list A :=
  match l with
  | [] => []
  | x :: l' => insert less x (insertionSort less l')
  end.

End sort.

Definition error : Type := gostring.

Module errors.
Definition New (text : gostring) : error := text.
End errors.

Module log.
(** The standard logger's output; a line is kept as the first argument
    of its format, the text of the error is not modelled. *)
Definition Logger : Type := list gostring.
Definition Printf (out : Logger) (arg : gostring) : Logger := out ++ [arg].
End log.

(** ** The types of the package *)

(** Modelled from the spec: the struct [Route] is declared in another file
    of the package; a route is an opaque handle exposing its template, and
    only the two fields that jsr311.go reads are kept. *)
Record Route : Type := mkRoute {
  Path : gostring;
  relativePath : gostring
}.

(** Modelled from the spec: the interface [Dispatcher] is declared in
    another file of the package; it exposes a root template and a list of
    routes. *)
Class Dispatcher (D : Type) : Type := {
  Routes : D -> list Route;
  RootPath : D -> gostring
}.

(** A dispatcher given by its two answers. *)
Record WebService : Type := mkWebService {
  rootPath : gostring;
  routes : list Route
}.

#[export] Instance WebService_Dispatcher : Dispatcher WebService :=
  {| Routes := routes; RootPath := rootPath |}.

(** ** jsr311.go *)

(** lines 76-95 *)
Definition templateToRegularExpression (template : gostring) : gostring * Z * Z :=
  let tokens := strings.Split template "/" in
  let '(buffer, literalCount, varCount) :=
    fold_left
      (fun '(buffer, literalCount, varCount) each =>
         if streq each (str "") then (buffer, literalCount, varCount)
         else
           let buffer := bytes.WriteString buffer (str "/") in
           if strings.HasPrefix each (str "{") then
             (* ignore var spec *)
             (bytes.WriteString buffer (str "([^/]+?)"), literalCount, varCount + 1)%Z
           else
             let literalCount := (literalCount + Z.of_nat (length each))%Z in
             let encoded := each in
             (bytes.WriteString buffer (regexp.QuoteMeta encoded), literalCount, varCount))
      tokens (bytes.empty, 0%Z, 0%Z) in
  (strings.TrimRight (bytes.String buffer) (str "/") ++ str "(/.*)?",
   literalCount, varCount).

(** lines 98-104 *)
Module routeCandidate.
Record t : Type := mk {
  route : Route;
  regexpression : gostring;
  matchesCount : Z;
  literalCount : Z;
  nonDefaultCount : Z
}.
End routeCandidate.

(** lines 105-134 *)
Module sortableRouteCandidates.

Record t : Type := mk { candidates : list routeCandidate.t }.

Definition Len (self : t) : Z := Z.of_nat (length (candidates self)).

(** [None] stands for the panic of an index out of range. *)
Definition Swap (self : t) (i j : nat) : option t :=
  match nth_error (candidates self) i, nth_error (candidates self) j with
  | Some ci, Some cj =>
    Some (mk (firstn j (firstn i (candidates self) ++ cj :: skipn (S i) (candidates self))
                ++ ci :: skipn (S j) (firstn i (candidates self) ++ cj :: skipn (S i) (candidates self))))
  | _, _ => None
  end.

(** The body of [Less(j, i)] once [cj] and [ci] are read. *)
Definition less (cj ci : routeCandidate.t) : bool :=
  let matchesCount := routeCandidate.matchesCount in
  let literalCount := routeCandidate.literalCount in
  let nonDefaultCount := routeCandidate.nonDefaultCount in
  (* primary key *)
  if (matchesCount ci <? matchesCount cj)%Z then true
  else if (matchesCount ci >? matchesCount cj)%Z then false
  (* secundary key *)
  else if (literalCount ci <? literalCount cj)%Z then true
  else if (literalCount ci >? literalCount cj)%Z then false
  (* tertiary key *)
  else (nonDefaultCount ci <? nonDefaultCount cj)%Z.

(** [Less(j, i)]: the first parameter is [j], the second is [i]. *)
Definition Less (self : t) (j i : nat) : option bool :=
  match nth_error (candidates self) i, nth_error (candidates self) j with
  | Some ci, Some cj => Some (less cj ci)
  | _, _ => None
  end.

End sortableRouteCandidates.

(** lines 136-142 *)
Module dispatcherCandidate.
Record t (D : Type) : Type := mk {
  dispatcher : D;
  finalMatch : gostring;
  matchesCount : Z;
  literalCount : Z;
  nonDefaultCount : Z
}.
End dispatcherCandidate.

(** lines 143-172 *)
Module sortableCandidates.

Record t (D : Type) : Type := mk { candidates : list (dispatcherCandidate.t D) }.

Definition Len (D : Type) (self : t D) : Z := Z.of_nat (length (candidates self)).

Definition Swap (D : Type) (self : t D) (i j : nat) : option (t D) :=
  match nth_error (candidates self) i, nth_error (candidates self) j with
  | Some ci, Some cj =>
    Some (mk (firstn j (firstn i (candidates self) ++ cj :: skipn (S i) (candidates self))
                ++ ci :: skipn (S j) (firstn i (candidates self) ++ cj :: skipn (S i) (candidates self))))
  | _, _ => None
  end.

Definition less (D : Type) (cj ci : dispatcherCandidate.t D) : bool :=
  let matchesCount := @dispatcherCandidate.matchesCount D in
  let literalCount := @dispatcherCandidate.literalCount D in
  let nonDefaultCount := @dispatcherCandidate.nonDefaultCount D in
  (* primary key *)
  if (matchesCount ci <? matchesCount cj)%Z then true
  else if (matchesCount ci >? matchesCount cj)%Z then false
  (* secundary key *)
  else if (literalCount ci <? literalCount cj)%Z then true
  else if (literalCount ci >? literalCount cj)%Z then false
  (* tertiary key *)
  else (nonDefaultCount ci <? nonDefaultCount cj)%Z.

Definition Less (D : Type) (self : t D) (j i : nat) : option bool :=
  match nth_error (candidates self) i, nth_error (candidates self) j with
  | Some ci, Some cj => Some (less cj ci)
  | _, _ => None
  end.

End sortableCandidates.

(** The loop of lines 21-36: the candidates among [routes] for the path
    [final], with the lines logged for the templates that do not
    compile. *)
Definition routeLoop (routes : list Route) (final : gostring)
  : sortableRouteCandidates.t * log.Logger :=
  fold_left
    (fun '(filtered, out) each =>
       let '(expression, literalCount, varCount) :=
         templateToRegularExpression (relativePath each) in
       match regexp.Compile expression with
       | None => (filtered, log.Printf out (Path each))
       | Some compiled =>
         match regexp.FindStringSubmatch compiled final with
         | Some matches =>
           let final := nth (length matches - 1) matches [] in
           if streq final (str "") || streq final (str "/") then
             (sortableRouteCandidates.mk
                (sortableRouteCandidates.candidates filtered
                   ++ [routeCandidate.mk each expression
                         (Z.of_nat (length matches)) literalCount varCount]),
              out)
           else (filtered, out)
         | None => (filtered, out)
         end
       end)
    routes (sortableRouteCandidates.mk [], []).

(** lines 16-50.  [candidates[0]] after [sort.Sort] is read with the first
    unsorted candidate as the value out of range, which does not occur: a
    sorted slice is as long as the unsorted one
    ([Sort_nonempty]). *)
Definition selectRoutes {S : sort.Sorter} (D : Type) {I : Dispatcher D}
           (dispatcher : D) (final : gostring) : list Route * option error :=
  if streq final (str "") || streq final (str "/") then
    (Routes dispatcher, None)
  else
    let filtered := fst (routeLoop (Routes dispatcher) final) in
    match sortableRouteCandidates.candidates filtered with
    | [] => ([], Some (errors.New (str "not found")))
    | unsorted0 :: _ =>
      let filtered :=
        sortableRouteCandidates.mk
          (sort.Sort sortableRouteCandidates.less
                     (sortableRouteCandidates.candidates filtered)) in
      let rmatch :=
        routeCandidate.regexpression
          (nth 0 (sortableRouteCandidates.candidates filtered) unsorted0) in
      (* select routes from candidates whoes expression matches rmatch *)
      (fold_left
         (fun matchingRoutes each =>
            if streq (routeCandidate.regexpression each) rmatch
            then matchingRoutes ++ [routeCandidate.route each]
            else matchingRoutes)
         (sortableRouteCandidates.candidates filtered) [],
       None)
    end.

(** What [selectRoutes] logs: nothing on the short cut, else the lines of
    the loop. *)
Definition selectRoutes_log (D : Type) {I : Dispatcher D}
           (dispatcher : D) (final : gostring) : log.Logger :=
  if streq final (str "") || streq final (str "/") then []
  else snd (routeLoop (Routes dispatcher) final).

(** The loop of lines 55-67. *)
Definition dispatcherLoop (D : Type) {I : Dispatcher D}
           (dispatchers : list D) (requestPath : gostring)
  : sortableCandidates.t D * log.Logger :=
  fold_left
    (fun '(filtered, out) each =>
       let '(expression, literalCount, varCount) :=
         templateToRegularExpression (RootPath each) in
       match regexp.Compile expression with
       | None => (filtered, log.Printf out (RootPath each))
       | Some compiled =>
         match regexp.FindStringSubmatch compiled requestPath with
         | Some matches =>
           (sortableCandidates.mk
              (sortableCandidates.candidates filtered
                 ++ [dispatcherCandidate.mk each
                       (nth (length matches - 1) matches [])
                       (Z.of_nat (length matches)) literalCount varCount]),
            out)
         | None => (filtered, out)
         end
       end)
    dispatchers (sortableCandidates.mk [], []).

(** lines 53-73; [None] is the [nil] dispatcher. *)
Definition detectDispatcher {S : sort.Sorter} (D : Type) {I : Dispatcher D}
           (requestPath : gostring) (dispatchers : list D)
  : option D * gostring * option error :=
  let filtered := fst (dispatcherLoop dispatchers requestPath) in
  match sortableCandidates.candidates filtered with
  | [] => (None, str "", Some (errors.New (str "not found")))
  | unsorted0 :: _ =>
    let filtered :=
      sortableCandidates.mk
        (sort.Sort (@sortableCandidates.less D)
                   (sortableCandidates.candidates filtered)) in
    let best := nth 0 (sortableCandidates.candidates filtered) unsorted0 in
    (Some (dispatcherCandidate.dispatcher best),
     dispatcherCandidate.finalMatch best, None)
  end.

(** * Vocabulary of the properties *)

(** The three keys of a candidate, in the order of the comparison. *)
Definition routeKeys (c : routeCandidate.t) : Z * Z * Z :=
  (routeCandidate.matchesCount c, routeCandidate.literalCount c,
   routeCandidate.nonDefaultCount c).

Definition dispatcherKeys (D : Type) (c : dispatcherCandidate.t D) : Z * Z * Z :=
  (dispatcherCandidate.matchesCount c, dispatcherCandidate.literalCount c,
   dispatcherCandidate.nonDefaultCount c).

(** [keysBefore a b]: [a] is greater than [b] in the lexicographic order
    of the key triples. *)
Definition keysBefore (a b : Z * Z * Z) : Prop :=
  let '(ma, la, va) := a in
  let '(mb, lb, vb) := b in
  (ma > mb \/ (ma = mb /\ (la > lb \/ (la = lb /\ va > vb))))%Z.

(** What one turn of the loop of [selectRoutes] appends for the route
    [each]: nothing or one candidate. *)
Definition routeCandidateOf (each : Route) (final : gostring) : list routeCandidate.t :=
  let '(expression, literalCount, varCount) :=
    templateToRegularExpression (relativePath each) in
  match regexp.Compile expression with
  | None => []
  | Some compiled =>
    match regexp.FindStringSubmatch compiled final with
    | Some matches =>
      let final := nth (length matches - 1) matches [] in
      if streq final (str "") || streq final (str "/") then
        [routeCandidate.mk each expression (Z.of_nat (length matches))
                           literalCount varCount]
      else []
    | None => []
    end
  end.

(** What one turn of either loop logs for the template [template], under
    the name [name]. *)
Definition loggedFor (name template : gostring) : log.Logger :=
  match regexp.Compile (fst (fst (templateToRegularExpression template))) with
  | None => [name]
  | Some _ => []
  end.

Definition dispatcherCandidateOf (D : Type) {I : Dispatcher D}
           (each : D) (requestPath : gostring) : list (dispatcherCandidate.t D) :=
  let '(expression, literalCount, varCount) :=
    templateToRegularExpression (RootPath each) in
  match regexp.Compile expression with
  | None => []
  | Some compiled =>
    match regexp.FindStringSubmatch compiled requestPath with
    | Some matches =>
      [dispatcherCandidate.mk each (nth (length matches - 1) matches [])
                              (Z.of_nat (length matches)) literalCount varCount]
    | None => []
    end
  end.

(** The non-empty pieces of a template between its slashes. *)
Definition segments (template : gostring) : list gostring :=
  filter (fun each => negb (streq each (str ""))) (strings.Split template "/").

Definition isVariable (each : gostring) : bool := strings.HasPrefix each (str "{").

(** What the loop writes for one segment. *)
Definition chunk (each : gostring) : gostring :=
  str "/" ++ (if isVariable each then str "([^/]+?)" else regexp.QuoteMeta each).

(** The sum of the lengths of the literal segments. *)
Fixpoint literalLength (segs : list gostring) : Z :=
  match segs with
  | [] => 0
  | each :: segs' =>
    ((if isVariable each then 0 else Z.of_nat (length each)) + literalLength segs')%Z
  end.

Definition variableCount (segs : list gostring) : Z :=
  Z.of_nat (length (filter isVariable segs)).

(** Where a string ends: nowhere, or on a byte that is not a slash. *)
Definition endsOffSlash (s : gostring) : Prop :=
  match rev s with
  | [] => True
  | c :: _ => c <> "/"%char
  end.

(** A string that starts on an ASCII byte or is empty: no encoding of a
    rune goes on into it. *)
Definition asciiHead (s : gostring) : Prop :=
  match s with
  | [] => True
  | c :: _ => (N_of_ascii c < 128)%N
  end.

(** Two strings equal up to, and not including, their first ASCII byte or
    their end. *)
Inductive sameUntilASCII : gostring -> gostring -> Prop :=
| same_stop (a b : gostring) :
    asciiHead a -> asciiHead b -> sameUntilASCII a b
| same_cons (c : ascii) (a b : gostring) :
    (128 <= N_of_ascii c)%N -> sameUntilASCII a b ->
    sameUntilASCII (c :: a) (c :: b).

(** The parser from a state [p] on the rest [t] of an expression. *)
Definition parse (t : gostring) (p : syntax.parser) : option syntax.Regexp :=
  syntax.parse_loop (length t) t p.

(** The runes of a literal text, [None] when the text is not valid UTF-8
    ([skip] bytes of the rune just decoded are still to pass). *)
Fixpoint runesFrom (skip : nat) (s : gostring) : option (list N) :=
  match s with
  | [] => Some []
  | _ :: t =>
    match skip with
    | S skip' => runesFrom skip' t
    | 0 =>
      let (r, size) := utf8.DecodeRuneInString s in
      if (r =? utf8.RuneError)%N && (size =? 1) then None
      else option_map (cons r) (runesFrom (size - 1) t)
    end
  end.

Definition validRunes (s : gostring) : option (list N) := runesFrom 0 s.

(** The parser after the literal runes [rs]. *)
Definition pushLiterals (rs : list N) (p : syntax.parser) : syntax.parser :=
  fold_left (fun p r => syntax.push (syntax.OpLiteral r) p) rs p.

Definition notSlash : syntax.Regexp :=
  syntax.OpCharClass (syntax.negatedClass 47).

(** The group of a variable segment, as the capture [cap]. *)
Definition variableItem (cap : nat) : syntax.Regexp :=
  syntax.OpCapture cap (syntax.OpPlus false notSlash).

(** The optional remainder group, as the capture [cap]. *)
Definition remainderItem (cap : nat) : syntax.Regexp :=
  syntax.OpQuest true
    (syntax.OpCapture cap
       (syntax.OpConcat (syntax.OpLiteral 47)
                        (syntax.OpStar true syntax.OpAnyCharNotNL))).

(** The items of the expression of the segments [segs], after [numCap]
    captures; [None] when a literal segment is not valid UTF-8. *)
Fixpoint templateItems (segs : list gostring) (numCap : nat)
  : option (list syntax.Regexp) :=
  match segs with
  | [] => Some [remainderItem (S numCap)]
  | each :: segs' =>
    if isVariable each then
      option_map (fun items => syntax.OpLiteral 47 :: variableItem (S numCap) :: items)
                 (templateItems segs' (S numCap))
    else
      match validRunes each with
      | Some rs =>
        option_map (fun items => syntax.OpLiteral 47 :: map syntax.OpLiteral rs ++ items)
                   (templateItems segs' numCap)
      | None => None
      end
  end.

Definition templateTree (template : gostring) : option syntax.Regexp :=
  option_map syntax.concat (templateItems (segments template) 0).

Definition maxCapOf (items : list syntax.Regexp) : nat :=
  fold_right (fun re n => Nat.max (syntax.MaxCap re) n) 0 items.


Definition allASCII (s : gostring) : Prop :=
  Forall (fun c => N_of_ascii c < 128)%N s.

(** The path written by literal segments. *)
Definition literalPath (segs : list gostring) : gostring :=
  flat_map (fun each => "/"%char :: each) segs.

(** The candidates [selectRoutes] has after its first loop. *)
Definition routeCandidates (routes : list Route) (final : gostring)
  : list routeCandidate.t :=
  sortableRouteCandidates.candidates (fst (routeLoop routes final)).

(** The candidates [detectDispatcher] has after its loop. *)
Definition dispatcherCandidates (D : Type) {I : Dispatcher D}
           (dispatchers : list D) (requestPath : gostring)
  : list (dispatcherCandidate.t D) :=
  sortableCandidates.candidates (fst (dispatcherLoop dispatchers requestPath)).

(** [final] is neither [""] nor ["/"]. *)
Definition beyondRoot (final : gostring) : Prop :=
  streq final (str "") || streq final (str "/") = false.

(** The remainder group of a match: its last string. *)
Definition remainderOf (matches : list gostring) : gostring :=
  nth (length matches - 1) matches [].

(** The routes of the candidates whose expression is that of [best]. *)
Definition tieGroup (best : routeCandidate.t) (sorted : list routeCandidate.t)
  : list Route :=
  map routeCandidate.route
      (filter (fun each => streq (routeCandidate.regexpression each)
                                 (routeCandidate.regexpression best)) sorted).

(** A route whose path and relative path are the template [template]. *)
Definition routeAt (template : String.string) : Route :=
  mkRoute (str template) (str template).

(** A dispatcher at the root path [root] with a route per template. *)
Definition serving (root : String.string) (templates : list String.string)
  : WebService :=
  mkWebService (str root) (map routeAt templates).

(** A route whose template has a literal segment that is not valid UTF-8
    (the byte 255). *)
Definition brokenRoute : Route :=
  mkRoute (str "/broken") ("/"%char :: ascii_of_N 255 :: nil).

(** What both selectors do with one template and a path: compile the
    template's expression and match the path; [None] when the expression
    does not compile or does not match. *)
Definition templateMatch (template path : gostring) : option (list gostring) :=
  match regexp.Compile (fst (fst (templateToRegularExpression template))) with
  | Some compiled => regexp.FindStringSubmatch compiled path
  | None => None
  end.

(** The sum of the lengths of the segments. *)
Definition totalLength (segs : list gostring) : Z :=
  fold_right (fun each n => (Z.of_nat (length each) + n)%Z) 0%Z segs.

(** The number of capture groups of a tree. *)
Fixpoint captureCount (re : syntax.Regexp) : nat :=
  match re with
  | syntax.OpCapture _ sub => S (captureCount sub)
  | syntax.OpStar _ sub | syntax.OpPlus _ sub | syntax.OpQuest _ sub =>
    captureCount sub
  | syntax.OpConcat a b => captureCount a + captureCount b
  | _ => 0
  end.

(** [exchanged l l' i j]: [l'] is [l] with the elements at [i] and [j]
    exchanged. *)
Definition exchanged (A : Type) (l l' : list A) (i j : nat) : Prop :=
  length l' = length l
  /\ nth_error l' i = nth_error l j
  /\ nth_error l' j = nth_error l i
  /\ forall k, k <> i -> k <> j -> nth_error l' k = nth_error l k.

(** What [detectDispatcher] logs: the lines of its loop. *)
Definition detectDispatcher_log (D : Type) {I : Dispatcher D}
           (requestPath : gostring) (dispatchers : list D) : log.Logger :=
  snd (dispatcherLoop dispatchers requestPath).

(** [utf8.ValidString]. *)
Definition validUTF8 (s : gostring) : bool :=
  match validRunes s with
  | Some _ => true
  | None => false
  end.

(** Every literal segment of the template is valid UTF-8. *)
Definition literalsValid (template : gostring) : bool :=
  forallb (fun each => isVariable each || validUTF8 each) (segments template).

(** Where the rest of an expression stands after a chunk: at its end or
    on the slash of the next chunk. *)
Definition slashHead (s : gostring) : Prop :=
  match s with
  | [] => True
  | c :: _ => c = "/"%char
  end.

(** [suffixOf s' s]: [s'] is what is left of [s] after some bytes. *)
Definition suffixOf (s' s : gostring) : Prop := exists pre, s = pre ++ s'.

(** [kept m c' c]: the captures [c'] are the captures [c] for every group
    above [m]. *)
Definition kept (m : nat) (c' c : regexp.caps) : Prop :=
  forall i, m < i -> regexp.capture c' i = regexp.capture c i.

(** Where the remainder group stops: at the end of the text or on a line
    feed. *)
Definition endsLine (s : gostring) : Prop :=
  match s with
  | [] => True
  | c :: _ => c = "010"%char
  end.

(** [instantiates each value]: [value] is a text for the segment [each] of
    a template: not empty, without a slash, and the segment itself when
    the segment is literal. *)
Definition instantiates (each value : gostring) : Prop :=
  value <> [] /\ ~ In "/"%char value /\ (isVariable each = false -> value = each).

(** [endsInVariable segs]: the last of the segments is a variable. *)
Fixpoint endsInVariable (segs : list gostring) : bool :=
  match segs with
  | [] => false
  | each :: segs' =>
    match segs' with
    | [] => isVariable each
    | _ :: _ => endsInVariable segs'
    end
  end.

(** [oneRune v]: the first rune of [v] is all of [v]. *)
Definition oneRune (v : gostring) : bool :=
  length v <=? snd (utf8.DecodeRuneInString v).

(** [takesRemainder segs values]: after the instance [values] of the
    segments [segs], the remainder group is tried where the instance
    ends: the last segment is literal, or the value of the last
    variable is one rune. *)
Definition takesRemainder (segs values : list gostring) : bool :=
  negb (endsInVariable segs) || oneRune (last values []).

Definition nonEmpty (s : gostring) : bool :=
  match s with
  | [] => false
  | _ :: _ => true
  end.

(** [tookRemainder rest idx r]: in the result [r] of a match before the
    text [rest], the group [idx] holds the text from the slash at the
    head of [rest] to the end of the match, which is the end of the text
    or a line feed. *)
Definition tookRemainder (rest : gostring) (idx : nat) (r : regexp.result) : Prop :=
  exists text, regexp.capture (snd r) idx = "/"%char :: text
               /\ rest = "/"%char :: text ++ fst r
               /\ endsLine (fst r).

(** [remainderGroup takes rest idx c r]: the group [idx] of the result
    [r] holds the line of [rest] when [takes] and [rest] is not empty,
    and is as in [c] otherwise. *)
Definition remainderGroup (takes : bool) (rest : gostring) (idx : nat)
           (c : regexp.caps) (r : regexp.result) : Prop :=
  if takes && nonEmpty rest then tookRemainder rest idx r
  else regexp.capture (snd r) idx = regexp.capture c idx.

(** [notRankedBelow chosen other]: the template [chosen] has more
    variable segments than the template [other], or as many and at least
    as many bytes of literal segments. *)
Definition notRankedBelow (chosen other : gostring) : Prop :=
  let '(_, literalCount, varCount) := templateToRegularExpression chosen in
  let '(_, literalCount', varCount') := templateToRegularExpression other in
  (varCount' < varCount \/ (varCount' = varCount /\ literalCount' <= literalCount))%Z.

(** * Properties *)

(** ** Strings *)

Lemma streq_spec (a b : gostring) : reflect (a = b) (streq a b).
Proof.
  revert b; induction a as [|x a IH]; intros [|y b]; simpl;
    try (constructor; congruence).
  destruct (Ascii.eqb_spec x y) as [->|Hxy]; simpl.
  - destruct (IH b) as [->|Hab]; constructor; congruence.
  - constructor; congruence.
Qed.

Lemma streq_refl (a : gostring) : streq a a = true.
Proof. destruct (streq_spec a a); congruence. Qed.

Lemma streq_true (a b : gostring) : streq a b = true <-> a = b.
Proof. destruct (streq_spec a b); split; congruence. Qed.

Lemma streq_false (a b : gostring) : streq a b = false <-> a <> b.
Proof. destruct (streq_spec a b); split; congruence. Qed.

(** ** sort.Sort *)

Section Sorting.

Variable A : Type.
Variable less : A -> A -> bool.
Hypothesis order : sort.StrictWeakOrder less.

Lemma less_asym (x y : A) : less x y = true -> less y x = false.
Proof.
  intros Hxy. destruct (less y x) eqn:Hyx; [|reflexivity].
  rewrite <- (sort.less_irrefl order x).
  symmetry. exact (sort.less_trans order _ _ _ Hxy Hyx).
Qed.

Lemma insert_Permutation (x : A) (l : list A) :
  Permutation (x :: l) (sort.insert less x l).
Proof.
  induction l as [|y l IH]; simpl; [reflexivity|].
  destruct (less y x); [|reflexivity].
  rewrite perm_swap. now apply perm_skip.
Qed.

Lemma insertionSort_Permutation (l : list A) :
  Permutation l (sort.insertionSort less l).
Proof.
  induction l as [|x l IH]; simpl; [constructor|].
  rewrite <- insert_Permutation. now apply perm_skip.
Qed.

Lemma insert_sortedBy (x : A) (l : list A) :
  sort.sortedBy less l -> sort.sortedBy less (sort.insert less x l).
Proof.
  unfold sort.sortedBy.
  induction l as [|y l IH]; intros Hs; simpl.
  - repeat constructor.
  - inversion Hs as [|? ? Hl Hy]; subst.
    destruct (less y x) eqn:Hyx.
    + constructor; [now apply IH|].
      rewrite Forall_forall in Hy |- *. intros z Hz.
      apply (Permutation_in _ (Permutation_sym (insert_Permutation x l))) in Hz.
      destruct Hz as [<-|Hz]; [now apply less_asym | now apply Hy].
    + constructor; [exact Hs|].
      constructor; [exact Hyx|].
      rewrite Forall_forall in Hy |- *. intros z Hz.
      exact (sort.less_incomparable order _ _ _ (Hy z Hz) Hyx).
Qed.

Lemma insertionSort_sortedBy (l : list A) :
  sort.sortedBy less (sort.insertionSort less l).
Proof.
  induction l as [|x l IH]; simpl; [constructor | now apply insert_sortedBy].
Qed.

End Sorting.

(** Insertion sort meets the contract of [sort.Sort]. *)
#[export] Instance insertionSorter : sort.Sorter :=
  {| sort.Sort := sort.insertionSort;
     sort.Sort_Permutation := insertionSort_Permutation;
     sort.Sort_sortedBy := fun A less l order => insertionSort_sortedBy order l |}.

Section SortContract.

Context {S : sort.Sorter}.
Variable A : Type.
Variable less : A -> A -> bool.

Lemma Sort_In (l : list A) (x : A) : In x (sort.Sort less l) <-> In x l.
Proof.
  split; apply Permutation_in;
    [apply Permutation_sym|]; apply sort.Sort_Permutation.
Qed.

Lemma Sort_length (l : list A) : length (sort.Sort less l) = length l.
Proof. symmetry. apply Permutation_length, sort.Sort_Permutation. Qed.

(** The sorted slice of a non-empty slice has an element 0. *)
Lemma Sort_nonempty (x : A) (l : list A) :
  exists y l', sort.Sort less (x :: l) = y :: l'.
Proof.
  pose proof (Sort_length (x :: l)) as Hlen.
  destruct (sort.Sort less (x :: l)) as [|y l']; [discriminate|].
  now exists y, l'.
Qed.

(** Element 0 of the sorted slice is a candidate that no candidate is
    less than: no element is ranked strictly before it. *)
Lemma Sort_head_best (d x : A) (l : list A) :
  sort.StrictWeakOrder less ->
  let best := nth 0 (sort.Sort less (x :: l)) d in
  In best (x :: l) /\ forall y, In y (x :: l) -> less y best = false.
Proof.
  intros order best.
  pose proof (sort.Sort_sortedBy (x :: l) order) as Hs.
  pose proof (fun y => Sort_In (x :: l) y) as Hin.
  subst best. destruct (Sort_nonempty x l) as (b & l' & E).
  rewrite E in *. simpl. split.
  - apply Hin. now left.
  - intros y Hy. apply Hin in Hy. destruct Hy as [<-|Hy].
    + apply (sort.less_irrefl order).
    + inversion Hs as [|? ? _ Hall]; subst.
      rewrite Forall_forall in Hall. now apply Hall.
Qed.

End SortContract.

(** ** The comparators *)

Ltac by_keys :=
  repeat match goal with
         | |- context [(?a >? ?b)%Z] => rewrite (Z.gtb_ltb a b)
         | H : context [(?a >? ?b)%Z] |- _ => rewrite (Z.gtb_ltb a b) in H
         end;
  repeat match goal with
         | |- context [(?a <? ?b)%Z] => destruct (Z.ltb_spec a b)
         | H : context [(?a <? ?b)%Z] |- _ => destruct (Z.ltb_spec a b)
         end;
  try congruence; try lia.

Lemma route_less_keys (cj ci : routeCandidate.t) :
  sortableRouteCandidates.less cj ci = true <-> keysBefore (routeKeys cj) (routeKeys ci).
Proof.
  unfold sortableRouteCandidates.less, keysBefore, routeKeys.
  split; intros H; by_keys.
Qed.

Lemma dispatcher_less_keys (D : Type) (cj ci : dispatcherCandidate.t D) :
  sortableCandidates.less cj ci = true
  <-> keysBefore (dispatcherKeys cj) (dispatcherKeys ci).
Proof.
  unfold sortableCandidates.less, keysBefore, dispatcherKeys.
  split; intros H; by_keys.
Qed.

Lemma keysBefore_irrefl (a : Z * Z * Z) : ~ keysBefore a a.
Proof. destruct a as [[m l] v]; simpl; lia. Qed.

Lemma keysBefore_trans (a b c : Z * Z * Z) :
  keysBefore a b -> keysBefore b c -> keysBefore a c.
Proof. destruct a as [[? ?] ?], b as [[? ?] ?], c as [[? ?] ?]; simpl; lia. Qed.

Lemma keysBefore_total (a b : Z * Z * Z) :
  keysBefore a b \/ keysBefore b a \/ a = b.
Proof.
  destruct a as [[ma la] va], b as [[mb lb] vb]; simpl.
  destruct (Z.lt_trichotomy ma mb) as [?|[?|?]]; [lia| |lia].
  destruct (Z.lt_trichotomy la lb) as [?|[?|?]]; [lia| |lia].
  destruct (Z.lt_trichotomy va vb) as [?|[?|?]]; [lia| |lia].
  right; right; congruence.
Qed.

Lemma keysBefore_negtrans (a b c : Z * Z * Z) :
  ~ keysBefore a b -> ~ keysBefore b c -> ~ keysBefore a c.
Proof. destruct a as [[? ?] ?], b as [[? ?] ?], c as [[? ?] ?]; simpl; lia. Qed.

Lemma bool_false_iff (b : bool) (P : Prop) : (b = true <-> P) -> (b = false <-> ~ P).
Proof. destruct b; intuition congruence. Qed.

Lemma route_less_order : sort.StrictWeakOrder sortableRouteCandidates.less.
Proof.
  constructor.
  - intros x. apply (bool_false_iff (route_less_keys x x)), keysBefore_irrefl.
  - intros x y z Hxy Hyz. apply route_less_keys.
    apply route_less_keys in Hxy, Hyz. eapply keysBefore_trans; eassumption.
  - intros x y z Hxy Hyz. apply (bool_false_iff (route_less_keys x z)).
    apply (bool_false_iff (route_less_keys x y)) in Hxy.
    apply (bool_false_iff (route_less_keys y z)) in Hyz.
    eapply keysBefore_negtrans; eassumption.
Qed.

Lemma dispatcher_less_order (D : Type) :
  sort.StrictWeakOrder (@sortableCandidates.less D).
Proof.
  constructor.
  - intros x. apply (bool_false_iff (dispatcher_less_keys x x)), keysBefore_irrefl.
  - intros x y z Hxy Hyz. apply dispatcher_less_keys.
    apply dispatcher_less_keys in Hxy, Hyz. eapply keysBefore_trans; eassumption.
  - intros x y z Hxy Hyz. apply (bool_false_iff (dispatcher_less_keys x z)).
    apply (bool_false_iff (dispatcher_less_keys x y)) in Hxy.
    apply (bool_false_iff (dispatcher_less_keys y z)) in Hyz.
    eapply keysBefore_negtrans; eassumption.
Qed.

(** [Less(j, i)] on a slice is the comparison of the candidates at [j] and
    at [i]. *)
Lemma route_Less_less (self : sortableRouteCandidates.t) (j i : nat)
      (cj ci : routeCandidate.t) :
  nth_error (sortableRouteCandidates.candidates self) j = Some cj ->
  nth_error (sortableRouteCandidates.candidates self) i = Some ci ->
  sortableRouteCandidates.Less self j i = Some (sortableRouteCandidates.less cj ci).
Proof.
  intros Hj Hi. unfold sortableRouteCandidates.Less. now rewrite Hj, Hi.
Qed.

Lemma dispatcher_Less_less (D : Type) (self : sortableCandidates.t D) (j i : nat)
      (cj ci : dispatcherCandidate.t D) :
  nth_error (sortableCandidates.candidates self) j = Some cj ->
  nth_error (sortableCandidates.candidates self) i = Some ci ->
  sortableCandidates.Less self j i = Some (sortableCandidates.less cj ci).
Proof.
  intros Hj Hi. unfold sortableCandidates.Less. now rewrite Hj, Hi.
Qed.

(** ** The loops of the selectors *)

Lemma routeLoop_from (routes : list Route) (final : gostring)
      (acc : list routeCandidate.t) (out : log.Logger) :
  fold_left
    (fun '(filtered, out) each =>
       let '(expression, literalCount, varCount) :=
         templateToRegularExpression (relativePath each) in
       match regexp.Compile expression with
       | None => (filtered, log.Printf out (Path each))
       | Some compiled =>
         match regexp.FindStringSubmatch compiled final with
         | Some matches =>
           let final := nth (length matches - 1) matches [] in
           if streq final (str "") || streq final (str "/") then
             (sortableRouteCandidates.mk
                (sortableRouteCandidates.candidates filtered
                   ++ [routeCandidate.mk each expression
                         (Z.of_nat (length matches)) literalCount varCount]),
              out)
           else (filtered, out)
         | None => (filtered, out)
         end
       end)
    routes (sortableRouteCandidates.mk acc, out)
  = (sortableRouteCandidates.mk
       (acc ++ flat_map (fun each => routeCandidateOf each final) routes),
     out ++ flat_map (fun each => loggedFor (Path each) (relativePath each)) routes).
Proof.
  revert acc out. induction routes as [|each routes IH]; intros acc out.
  - simpl. now rewrite !app_nil_r.
  - cbn [fold_left flat_map]. unfold routeCandidateOf at 1, loggedFor at 1.
    destruct (templateToRegularExpression (relativePath each)) as [[expression lc] vc].
    cbn [fst]. destruct (regexp.Compile expression) as [compiled|].
    + destruct (regexp.FindStringSubmatch compiled final) as [matches|].
      * cbv zeta.
        destruct (streq (nth (length matches - 1) matches []) (str "")
                  || streq (nth (length matches - 1) matches []) (str "/")).
        -- rewrite IH. cbn [sortableRouteCandidates.candidates app].
           now rewrite <- !app_assoc.
        -- rewrite IH. now rewrite !app_nil_l.
      * rewrite IH. now rewrite !app_nil_l.
    + rewrite IH. unfold log.Printf. now rewrite <- !app_assoc.
Qed.

Lemma routeLoop_candidates (routes : list Route) (final : gostring) :
  sortableRouteCandidates.candidates (fst (routeLoop routes final))
  = flat_map (fun each => routeCandidateOf each final) routes.
Proof. unfold routeLoop. now rewrite routeLoop_from. Qed.

Lemma routeLoop_log (routes : list Route) (final : gostring) :
  snd (routeLoop routes final)
  = flat_map (fun each => loggedFor (Path each) (relativePath each)) routes.
Proof. unfold routeLoop. now rewrite routeLoop_from. Qed.

Lemma dispatcherLoop_from (D : Type) {I : Dispatcher D} (dispatchers : list D)
      (requestPath : gostring) (acc : list (dispatcherCandidate.t D))
      (out : log.Logger) :
  fold_left
    (fun '(filtered, out) each =>
       let '(expression, literalCount, varCount) :=
         templateToRegularExpression (RootPath each) in
       match regexp.Compile expression with
       | None => (filtered, log.Printf out (RootPath each))
       | Some compiled =>
         match regexp.FindStringSubmatch compiled requestPath with
         | Some matches =>
           (sortableCandidates.mk
              (sortableCandidates.candidates filtered
                 ++ [dispatcherCandidate.mk each
                       (nth (length matches - 1) matches [])
                       (Z.of_nat (length matches)) literalCount varCount]),
            out)
         | None => (filtered, out)
         end
       end)
    dispatchers (sortableCandidates.mk acc, out)
  = (sortableCandidates.mk
       (acc ++ flat_map (fun each => dispatcherCandidateOf each requestPath) dispatchers),
     out ++ flat_map (fun each => loggedFor (RootPath each) (RootPath each)) dispatchers).
Proof.
  revert acc out. induction dispatchers as [|each dispatchers IH]; intros acc out.
  - simpl. now rewrite !app_nil_r.
  - cbn [fold_left flat_map]. unfold dispatcherCandidateOf at 1, loggedFor at 1.
    destruct (templateToRegularExpression (RootPath each)) as [[expression lc] vc].
    cbn [fst]. destruct (regexp.Compile expression) as [compiled|].
    + destruct (regexp.FindStringSubmatch compiled requestPath) as [matches|].
      * rewrite IH. cbn [sortableCandidates.candidates app].
        now rewrite <- !app_assoc.
      * rewrite IH. now rewrite !app_nil_l.
    + rewrite IH. unfold log.Printf. now rewrite <- !app_assoc.
Qed.

Lemma dispatcherLoop_candidates (D : Type) {I : Dispatcher D}
      (dispatchers : list D) (requestPath : gostring) :
  sortableCandidates.candidates (fst (dispatcherLoop dispatchers requestPath))
  = flat_map (fun each => dispatcherCandidateOf each requestPath) dispatchers.
Proof. unfold dispatcherLoop. now rewrite dispatcherLoop_from. Qed.

(** The second loop of [selectRoutes] keeps, in order, the routes of the
    candidates whose expression is [rmatch]. *)
Lemma matchingRoutes_from (rmatch : gostring) (l : list routeCandidate.t)
      (acc : list Route) :
  fold_left
    (fun matchingRoutes each =>
       if streq (routeCandidate.regexpression each) rmatch
       then matchingRoutes ++ [routeCandidate.route each]
       else matchingRoutes) l acc
  = acc ++ map routeCandidate.route
               (filter (fun each => streq (routeCandidate.regexpression each) rmatch) l).
Proof.
  revert acc. induction l as [|c l IH]; intros acc; simpl.
  - now rewrite app_nil_r.
  - rewrite IH. destruct (streq (routeCandidate.regexpression c) rmatch); simpl.
    + now rewrite <- app_assoc.
    + reflexivity.
Qed.

(** ** The template compiler *)

Lemma variableCount_cons (each : gostring) (segs : list gostring) :
  variableCount (each :: segs)
  = ((if isVariable each then 1 else 0) + variableCount segs)%Z.
Proof.
  unfold variableCount. simpl. destruct (isVariable each); simpl length; lia.
Qed.

Lemma Split_no_sep (s : gostring) (sep : ascii) (piece : gostring) :
  In piece (strings.Split s sep) -> ~ In sep piece.
Proof.
  revert piece. induction s as [|c s IH]; intros piece; simpl.
  - intros [<-|[]] [].
  - destruct (Ascii.eqb_spec c sep) as [->|Hc].
    + intros [<-|Hin]; [intros [] | now apply IH].
    + destruct (strings.Split s sep) as [|p ps] eqn:E.
      * intros [<-|[]] [H|[]]. congruence.
      * intros [<-|Hin].
        -- intros [H|H]; [congruence|]. apply (IH p); [now left | exact H].
        -- apply IH. now right.
Qed.

Lemma Split_lengths (s : gostring) (sep : ascii) :
  fold_right (fun piece n => length piece + n) 0 (strings.Split s sep)
  = length (filter (fun c => negb (Ascii.eqb c sep)) s).
Proof.
  induction s as [|c s IH]; simpl; [reflexivity|].
  destruct (Ascii.eqb c sep); simpl.
  - exact IH.
  - destruct (strings.Split s sep) as [|p ps]; simpl in *; lia.
Qed.

Lemma segments_spec (template each : gostring) :
  In each (segments template)
  <-> In each (strings.Split template "/") /\ each <> [].
Proof.
  unfold segments. rewrite filter_In, negb_true_iff.
  change (str "") with (@nil ascii). now rewrite streq_false.
Qed.

Lemma segments_no_slash (template each : gostring) :
  In each (segments template) -> each <> [] /\ ~ In "/"%char each.
Proof.
  rewrite segments_spec. intros [Hin Hne]. split; [exact Hne|].
  eapply Split_no_sep; eassumption.
Qed.

Lemma templateLoop_from (tokens : list gostring) (buffer : bytes.Buffer)
      (literalCount varCount : Z) :
  fold_left
    (fun '(buffer, literalCount, varCount) each =>
       if streq each (str "") then (buffer, literalCount, varCount)
       else
         let buffer := bytes.WriteString buffer (str "/") in
         if strings.HasPrefix each (str "{") then
           (bytes.WriteString buffer (str "([^/]+?)"), literalCount, varCount + 1)%Z
         else
           let literalCount := (literalCount + Z.of_nat (length each))%Z in
           let encoded := each in
           (bytes.WriteString buffer (regexp.QuoteMeta encoded), literalCount, varCount))
    tokens (buffer, literalCount, varCount)
  = let segs := filter (fun each => negb (streq each (str ""))) tokens in
    (buffer ++ flat_map chunk segs,
     (literalCount + literalLength segs)%Z,
     (varCount + variableCount segs)%Z).
Proof.
  revert buffer literalCount varCount.
  induction tokens as [|each tokens IH]; intros buffer lc vc.
  - cbn. now rewrite app_nil_r, !Z.add_0_r.
  - cbn [fold_left filter]. destruct (streq each (str "")) eqn:Hempty.
    + cbn [negb]. apply IH.
    + cbn [negb]. cbv zeta. unfold bytes.WriteString.
      rewrite variableCount_cons. cbn [flat_map literalLength].
      unfold chunk at 1. unfold isVariable at 1 2 3.
      destruct (strings.HasPrefix each (str "{")) eqn:Hvar;
        rewrite IH; cbv zeta; rewrite <- !app_assoc;
        (apply f_equal2; [apply f_equal2; [reflexivity|lia] | lia]).
Qed.

Lemma QuoteMeta_app (a b : gostring) :
  regexp.QuoteMeta (a ++ b) = regexp.QuoteMeta a ++ regexp.QuoteMeta b.
Proof.
  induction a as [|c a IH]; simpl; [reflexivity|].
  destruct (syntax.special c); simpl; now rewrite IH.
Qed.

Lemma endsOffSlash_app (a b : gostring) :
  b <> [] -> endsOffSlash b -> endsOffSlash (a ++ b).
Proof.
  unfold endsOffSlash. rewrite rev_app_distr. intros Hb.
  destruct (rev b) as [|c r] eqn:E; [|trivial].
  apply (f_equal (@rev ascii)) in E. rewrite rev_involutive in E. contradiction.
Qed.

Lemma endsOffSlash_QuoteMeta (s : gostring) :
  ~ In "/"%char s -> endsOffSlash (regexp.QuoteMeta s).
Proof.
  induction s as [|c s _] using rev_ind; [intros _; exact I|].
  intros Hno. rewrite QuoteMeta_app. apply endsOffSlash_app.
  - simpl. destruct (syntax.special c); discriminate.
  - assert (c <> "/"%char) as Hc
        by (intros ->; apply Hno, in_or_app; right; now left).
    simpl. destruct (syntax.special c); unfold endsOffSlash; simpl; exact Hc.
Qed.

Lemma chunk_nonempty (each : gostring) : chunk each <> [].
Proof. unfold chunk. discriminate. Qed.

Lemma endsOffSlash_chunk (each : gostring) :
  each <> [] -> ~ In "/"%char each -> endsOffSlash (chunk each).
Proof.
  intros Hne Hno. unfold chunk. destruct (isVariable each).
  - unfold endsOffSlash. simpl. discriminate.
  - apply endsOffSlash_app; [|now apply endsOffSlash_QuoteMeta].
    destruct each as [|c each]; [congruence|]. simpl.
    destruct (syntax.special c); discriminate.
Qed.

Lemma endsOffSlash_chunks (segs : list gostring) :
  (forall each, In each segs -> each <> [] /\ ~ In "/"%char each) ->
  endsOffSlash (flat_map chunk segs).
Proof.
  induction segs as [|each segs IH]; intros Hall; cbn [flat_map]; [exact I|].
  destruct (flat_map chunk segs) as [|c rest] eqn:E.
  - rewrite app_nil_r. apply endsOffSlash_chunk; apply Hall; now left.
  - apply endsOffSlash_app; [discriminate|].
    apply IH. intros e He. apply Hall. now right.
Qed.

Lemma TrimRight_endsOffSlash (s : gostring) :
  endsOffSlash s -> strings.TrimRight s (str "/") = s.
Proof.
  unfold endsOffSlash, strings.TrimRight. intros H.
  destruct (rev s) as [|c r] eqn:E.
  - simpl. apply (f_equal (@rev ascii)) in E. now rewrite rev_involutive in E.
  - assert (existsb (Ascii.eqb c) (str "/") = false) as Hc
        by (simpl; destruct (Ascii.eqb_spec c "/"); [contradiction | reflexivity]).
    cbn [strings.dropWhile]. rewrite Hc, <- E. apply rev_involutive.
Qed.

(** The result of the template compiler, segment by segment. *)
Lemma templateToRegularExpression_segments (template : gostring) :
  templateToRegularExpression template
  = (flat_map chunk (segments template) ++ str "(/.*)?",
     literalLength (segments template),
     variableCount (segments template)).
Proof.
  unfold templateToRegularExpression. rewrite templateLoop_from.
  cbv zeta. fold (segments template). unfold bytes.String, bytes.empty.
  rewrite app_nil_l, !Z.add_0_l, TrimRight_endsOffSlash; [reflexivity|].
  apply endsOffSlash_chunks. intros each. apply segments_no_slash.
Qed.

(** ** UTF-8 decoding *)

Lemma first_lead (b : N) (sz : nat) (lo hi : N) :
  utf8.first b = utf8.lead sz lo hi ->
  (sz = 2 \/ sz = 3 \/ sz = 4) /\ (128 <= lo)%N /\ (128 <= b)%N.
Proof.
  unfold utf8.first, utf8.locb, utf8.hicb.
  repeat match goal with
         | |- context [(?x <? ?y)%N] => destruct (N.ltb_spec x y)
         | |- context [(?x =? ?y)%N] => destruct (N.eqb_spec x y)
         end;
    intros E; inversion E; subst; repeat split; auto; lia.
Qed.

Lemma first_ascii (b : N) : (b < 128)%N -> utf8.first b = utf8.as_.
Proof.
  intros H. unfold utf8.first. destruct (N.ltb_spec b 128); [reflexivity | lia].
Qed.

Lemma first_as (b : N) : utf8.first b = utf8.as_ -> (b < 128)%N.
Proof.
  unfold utf8.first.
  destruct (N.ltb_spec b 128); [trivial|].
  repeat match goal with
         | |- context [(?x <? ?y)%N] => destruct (N.ltb_spec x y)
         | |- context [(?x =? ?y)%N] => destruct (N.eqb_spec x y)
         end; discriminate.
Qed.

(** [DecodeRuneInString] read byte by byte: the length test of the source
    is the same as running out of bytes where one is needed. *)
Lemma DecodeRuneInString_cons (c0 : ascii) (t : gostring) :
  utf8.DecodeRuneInString (c0 :: t)
  = let s0 := N_of_ascii c0 in
    match utf8.first s0 with
    | utf8.as_ => (s0, 1)
    | utf8.xx => (utf8.RuneError, 1)
    | utf8.lead sz lo hi =>
      match t with
      | [] => (utf8.RuneError, 1)
      | c1 :: t1 =>
        let s1 := N_of_ascii c1 in
        if ((s1 <? lo) || (hi <? s1))%N then (utf8.RuneError, 1) else
        if sz <=? 2 then
          (N.lor (N.shiftl (N.land s0 utf8.mask2) 6) (N.land s1 utf8.maskx), 2)
        else
        match t1 with
        | [] => (utf8.RuneError, 1)
        | c2 :: t2 =>
          let s2 := N_of_ascii c2 in
          if ((s2 <? utf8.locb) || (utf8.hicb <? s2))%N then (utf8.RuneError, 1) else
          if sz <=? 3 then
            (N.lor (N.lor (N.shiftl (N.land s0 utf8.mask3) 12)
                          (N.shiftl (N.land s1 utf8.maskx) 6))
                   (N.land s2 utf8.maskx), 3)
          else
          match t2 with
          | [] => (utf8.RuneError, 1)
          | c3 :: _ =>
            let s3 := N_of_ascii c3 in
            if ((s3 <? utf8.locb) || (utf8.hicb <? s3))%N then (utf8.RuneError, 1) else
              (N.lor (N.lor (N.lor (N.shiftl (N.land s0 utf8.mask4) 18)
                                   (N.shiftl (N.land s1 utf8.maskx) 12))
                            (N.shiftl (N.land s2 utf8.maskx) 6))
                     (N.land s3 utf8.maskx), 4)
          end
        end
      end
    end.
Proof.
  unfold utf8.DecodeRuneInString. cbv zeta.
  destruct (utf8.first (N_of_ascii c0)) as [| |sz lo hi] eqn:E; try reflexivity.
  destruct (first_lead _ E) as [[-> | [-> | ->]] _];
    destruct t as [|c1 [|c2 [|c3 t3]]];
    unfold byteAt; cbn [length Nat.ltb Nat.leb nth];
    repeat match goal with
           | |- context [if ?b then _ else _] => destruct b
           end; reflexivity.
Qed.

Lemma DecodeRuneInString_ascii (c : ascii) (t : gostring) :
  (N_of_ascii c < 128)%N ->
  utf8.DecodeRuneInString (c :: t) = (N_of_ascii c, 1).
Proof.
  intros H. rewrite DecodeRuneInString_cons. cbv zeta.
  now rewrite (first_ascii H).
Qed.

Ltac ascii_is_not_continuation lo :=
  match goal with
  | |- context [((N_of_ascii ?c <? lo) || _)%N] =>
    let Hlt := fresh in
    assert ((N_of_ascii c <? lo)%N = true) as Hlt
        by (apply N.ltb_lt; unfold utf8.locb; lia);
    rewrite Hlt; cbn [orb]
  end.

Lemma continuation_same (lo hi : N) (K1 K2 : ascii -> gostring -> N * nat)
      (x y : gostring) :
  (128 <= lo)%N ->
  sameUntilASCII x y ->
  (forall c x' y', sameUntilASCII x' y' -> K1 c x' = K2 c y') ->
  match x with
  | [] => (utf8.RuneError, 1)
  | c1 :: t1 =>
    if ((N_of_ascii c1 <? lo) || (hi <? N_of_ascii c1))%N
    then (utf8.RuneError, 1) else K1 c1 t1
  end
  = match y with
    | [] => (utf8.RuneError, 1)
    | c1 :: t1 =>
      if ((N_of_ascii c1 <? lo) || (hi <? N_of_ascii c1))%N
      then (utf8.RuneError, 1) else K2 c1 t1
    end.
Proof.
  intros Hlo Hxy HK. destruct Hxy as [x y Hx Hy | c x y Hc Hxy].
  - destruct x as [|cx x], y as [|cy y]; simpl in Hx, Hy;
      repeat ascii_is_not_continuation lo; reflexivity.
  - destruct ((N_of_ascii c <? lo) || (hi <? N_of_ascii c))%N; [reflexivity|].
    now apply HK.
Qed.

(** The decoder does not read past the first ASCII byte. *)
Lemma DecodeRuneInString_same (c0 : ascii) (a b : gostring) :
  sameUntilASCII a b ->
  utf8.DecodeRuneInString (c0 :: a) = utf8.DecodeRuneInString (c0 :: b).
Proof.
  intros Hab. rewrite !DecodeRuneInString_cons. cbv zeta.
  destruct (utf8.first (N_of_ascii c0)) as [| |sz lo hi] eqn:E; try reflexivity.
  destruct (first_lead _ E) as (_ & Hlo & _).
  apply continuation_same; [exact Hlo | exact Hab |].
  intros c1 a1 b1 Hab1. destruct (sz <=? 2); [reflexivity|].
  apply continuation_same; [unfold utf8.locb; lia | exact Hab1 |].
  intros c2 a2 b2 Hab2. destruct (sz <=? 3); [reflexivity|].
  apply continuation_same with (K1 := fun c _ => _) (K2 := fun c _ => _);
    [unfold utf8.locb; lia | exact Hab2 | reflexivity].
Qed.

Lemma first_lead_ranges (b : N) (sz : nat) (lo hi : N) :
  utf8.first b = utf8.lead sz lo hi ->
  (hi <= 191)%N /\
  ((sz = 2 /\ (194 <= b <= 223)%N)
   \/ (sz = 3 /\ (224 <= b <= 239)%N /\ (b = 224%N -> lo = 160%N))
   \/ (sz = 4 /\ (240 <= b <= 244)%N /\ (b = 240%N -> lo = 144%N))).
Proof.
  unfold utf8.first, utf8.locb, utf8.hicb.
  repeat match goal with
         | |- context [(?x <? ?y)%N] => destruct (N.ltb_spec x y)
         | |- context [(?x =? ?y)%N] => destruct (N.eqb_spec x y)
         end;
    intros E; inversion E; subst; split; try lia;
      try (left; split; [reflexivity | lia]);
      try (right; left; split; [reflexivity | split; [lia | intros; try reflexivity; lia]]);
      try (right; right; split; [reflexivity | split; [lia | intros; try reflexivity; lia]]).
Qed.

Lemma lor_ge_l (a b : N) : (128 <= a -> 128 <= N.lor a b)%N.
Proof.
  intros Ha. change 128%N with (2 ^ 7)%N in *.
  apply N.log2_le_pow2 in Ha; [|lia].
  assert (N.lor a b <> 0)%N as Hnz.
  { intros E. apply N.lor_eq_0_l in E. subst a. simpl in Ha. lia. }
  apply N.log2_le_pow2; [lia|]. rewrite N.log2_lor. lia.
Qed.

Lemma lor_ge_r (a b : N) : (128 <= b -> 128 <= N.lor a b)%N.
Proof. rewrite N.lor_comm. apply lor_ge_l. Qed.

Lemma land_low (a n : N) : N.land a (N.ones n) = (a mod 2 ^ n)%N.
Proof. apply N.land_ones. Qed.

Ltac rune_bound :=
  change utf8.mask2 with (N.ones 5); change utf8.mask3 with (N.ones 4);
  change utf8.mask4 with (N.ones 3); change utf8.maskx with (N.ones 6);
  rewrite ?land_low, ?N.shiftl_mul_pow2;
  change (2 ^ 3)%N with 8%N; change (2 ^ 4)%N with 16%N;
  change (2 ^ 5)%N with 32%N; change (2 ^ 6)%N with 64%N;
  change (2 ^ 12)%N with 4096%N; change (2 ^ 18)%N with 262144%N.

Lemma mod_shift_bound (b m k base : N) :
  (m <> 0 -> base mod m = 0 -> base + k <= b < base + m -> k <= b mod m)%N.
Proof.
  intros Hm Hbase Hb.
  assert (b = base + (b - base))%N as E by lia.
  rewrite E, N.Div0.add_mod, Hbase, N.add_0_l, N.Div0.mod_mod.
  rewrite N.mod_small; lia.
Qed.

(** A rune decoded from a byte that is not ASCII is not ASCII. *)
Lemma DecodeRuneInString_nonascii (c0 : ascii) (t : gostring) :
  (128 <= N_of_ascii c0)%N ->
  (128 <= fst (utf8.DecodeRuneInString (c0 :: t)))%N.
Proof.
  intros Hc. rewrite DecodeRuneInString_cons. cbv zeta.
  assert (128 <= utf8.RuneError)%N as HRE by (unfold utf8.RuneError; lia).
  destruct (utf8.first (N_of_ascii c0)) as [| |sz lo hi] eqn:E.
  - apply first_as in E. lia.
  - exact HRE.
  - destruct (first_lead_ranges _ E) as (Hhi & Hcases).
    destruct (first_lead _ E) as (_ & Hlo & _).
    destruct t as [|c1 t1]; [exact HRE|].
    destruct ((N_of_ascii c1 <? lo) || (hi <? N_of_ascii c1))%N eqn:B1; [exact HRE|].
    apply orb_false_iff in B1. destruct B1 as [B1lo B1hi].
    apply N.ltb_ge in B1lo, B1hi.
    destruct Hcases as [(-> & Hb) | [(-> & Hb & Hb0) | (-> & Hb & Hb0)]].
    + cbn [Nat.leb fst]. apply lor_ge_l. rune_bound.
      pose proof (@mod_shift_bound (N_of_ascii c0) 32 2 192 ltac:(lia) eq_refl ltac:(lia)).
      lia.
    + cbn [Nat.leb]. destruct t1 as [|c2 t2]; [exact HRE|].
      destruct ((N_of_ascii c2 <? utf8.locb) || (utf8.hicb <? N_of_ascii c2))%N;
        [exact HRE|].
      cbn [fst]. apply lor_ge_l.
      destruct (N.eq_dec (N_of_ascii c0) 224) as [E0|E0].
      * apply lor_ge_r. rune_bound.
        pose proof (@mod_shift_bound (N_of_ascii c1) 64 32 128 ltac:(lia) eq_refl
                                     ltac:(rewrite (Hb0 E0) in B1lo; lia)).
        lia.
      * apply lor_ge_l. rune_bound.
        pose proof (@mod_shift_bound (N_of_ascii c0) 16 1 224 ltac:(lia) eq_refl ltac:(lia)).
        lia.
    + cbn [Nat.leb]. destruct t1 as [|c2 t2]; [exact HRE|].
      destruct ((N_of_ascii c2 <? utf8.locb) || (utf8.hicb <? N_of_ascii c2))%N;
        [exact HRE|].
      destruct t2 as [|c3 t3]; [exact HRE|].
      destruct ((N_of_ascii c3 <? utf8.locb) || (utf8.hicb <? N_of_ascii c3))%N;
        [exact HRE|].
      cbn [fst]. apply lor_ge_l, lor_ge_l.
      destruct (N.eq_dec (N_of_ascii c0) 240) as [E0|E0].
      * apply lor_ge_r. rune_bound.
        pose proof (@mod_shift_bound (N_of_ascii c1) 64 16 128 ltac:(lia) eq_refl
                                     ltac:(rewrite (Hb0 E0) in B1lo; lia)).
        lia.
      * apply lor_ge_l. rune_bound.
        pose proof (@mod_shift_bound (N_of_ascii c0) 8 1 240 ltac:(lia) eq_refl ltac:(lia)).
        lia.
Qed.

(** The width of the first rune: at least one byte, at most what is
    there; more than one byte only over bytes that are not ASCII. *)
Lemma DecodeRuneInString_width (c0 : ascii) (t : gostring) (r : N) (size : nat) :
  utf8.DecodeRuneInString (c0 :: t) = (r, size) ->
  exists pre post : gostring,
    c0 :: t = pre ++ post /\ length pre = size /\ 1 <= size
    /\ (1 < size -> Forall (fun c => 128 <= N_of_ascii c)%N pre).
Proof.
  rewrite DecodeRuneInString_cons. cbv zeta.
  assert (forall r', (r', 1) = (r, size) ->
             exists pre post : gostring,
               c0 :: t = pre ++ post /\ length pre = size /\ 1 <= size
               /\ (1 < size -> Forall (fun c => 128 <= N_of_ascii c)%N pre)) as one.
  { intros r' E. inversion E; subst. exists [c0], t. repeat split; auto. lia. }
  destruct (utf8.first (N_of_ascii c0)) as [| |sz lo hi] eqn:E; try apply one.
  destruct (first_lead _ E) as (_ & Hlo & Hb).
  destruct t as [|c1 t1]; [apply one|].
  destruct ((N_of_ascii c1 <? lo) || (hi <? N_of_ascii c1))%N eqn:B1; [apply one|].
  apply orb_false_iff in B1. destruct B1 as [B1 _]. apply N.ltb_ge in B1.
  destruct (sz <=? 2).
  { intros H; inversion H; subst. exists [c0; c1], t1.
    repeat split; auto. intros _. repeat constructor; lia. }
  destruct t1 as [|c2 t2]; [apply one|].
  destruct ((N_of_ascii c2 <? utf8.locb) || (utf8.hicb <? N_of_ascii c2))%N eqn:B2;
    [apply one|].
  apply orb_false_iff in B2. destruct B2 as [B2 _]. apply N.ltb_ge in B2.
  unfold utf8.locb in B2.
  destruct (sz <=? 3).
  { intros H; inversion H; subst. exists [c0; c1; c2], t2.
    repeat split; auto. intros _. repeat constructor; lia. }
  destruct t2 as [|c3 t3]; [apply one|].
  destruct ((N_of_ascii c3 <? utf8.locb) || (utf8.hicb <? N_of_ascii c3))%N eqn:B3;
    [apply one|].
  apply orb_false_iff in B3. destruct B3 as [B3 _]. apply N.ltb_ge in B3.
  unfold utf8.locb in B3.
  intros H; inversion H; subst. exists [c0; c1; c2; c3], t3.
  repeat split; auto. intros _. repeat constructor; lia.
Qed.

(** ** The parser *)

Lemma skipn_pre (pre post : gostring) (n : nat) :
  length pre = n -> skipn n (pre ++ post) = post.
Proof.
  intros <-. rewrite skipn_app, Nat.sub_diag, skipn_all. reflexivity.
Qed.

Lemma DecodeRuneInString_skipn (s : gostring) :
  s <> [] ->
  length (skipn (snd (utf8.DecodeRuneInString s)) s) < length s.
Proof.
  destruct s as [|c0 t]; [congruence|]. intros _.
  destruct (utf8.DecodeRuneInString (c0 :: t)) as [r size] eqn:E.
  destruct (DecodeRuneInString_width _ _ E) as (pre & post & -> & Hlen & Hpos & _).
  cbn [snd]. rewrite (skipn_pre _ _ Hlen), length_app. lia.
Qed.

Lemma repeat_shrinks (op : bool -> syntax.Regexp -> syntax.Regexp) (star : bool)
      (after t' : gostring) (p p' : syntax.parser) :
  syntax.repeat op star after p = Some (t', p') -> length t' <= length after.
Proof.
  unfold syntax.repeat. destruct (syntax.cur p) as [|x items]; [discriminate|].
  destruct (syntax.isRepeat x || (star && syntax.nullable x)); [discriminate|].
  destruct after as [|c after'].
  - intros E; inversion E; subst. simpl; lia.
  - destruct (Ascii.eqb c "?"); intros E; inversion E; subst; simpl; lia.
Qed.

(** Every turn of the parser's loop consumes at least one byte. *)
Lemma parse_step_shrinks (t t' : gostring) (p p' : syntax.parser) :
  syntax.parse_step t p = Some (t', p') -> length t' < length t.
Proof.
  destruct t as [|c t0]; [discriminate|]. unfold syntax.parse_step.
  destruct (Ascii.eqb c "(").
  { destruct t0 as [|q t1].
    - intros E; inversion E; subst; simpl; lia.
    - destruct (Ascii.eqb q "?"); [discriminate|].
      intros E; inversion E; subst; simpl; lia. }
  destruct (Ascii.eqb c ")").
  { destruct (syntax.stack p) as [|[cap outer] below]; [discriminate|].
    intros E; inversion E; subst; simpl; lia. }
  destruct (Ascii.eqb c "*").
  { intros E. apply repeat_shrinks in E. simpl; lia. }
  destruct (Ascii.eqb c "+").
  { intros E. apply repeat_shrinks in E. simpl; lia. }
  destruct (Ascii.eqb c "?").
  { intros E. apply repeat_shrinks in E. simpl; lia. }
  destruct (Ascii.eqb c ".").
  { intros E; inversion E; subst; simpl; lia. }
  destruct (Ascii.eqb c "[").
  { destruct t0 as [|neg [|x [|close t3]]]; try discriminate.
    destruct (_ && _); [|discriminate].
    intros E; inversion E; subst; simpl; lia. }
  destruct (Ascii.eqb c "\").
  { destruct t0 as [|x t1]; [discriminate|].
    destruct (_ && _); [|discriminate].
    intros E; inversion E; subst; simpl; lia. }
  destruct (syntax.special c); [discriminate|].
  pose proof (@DecodeRuneInString_skipn (c :: t0) ltac:(discriminate)) as Hlt.
  destruct (utf8.DecodeRuneInString (c :: t0)) as [r size].
  destruct (_ && _); [discriminate|].
  intros E; inversion E; subst. exact Hlt.
Qed.

(** The fuel of the parser's loop never runs out. *)
Lemma parse_loop_fuel (fuel1 fuel2 : nat) (t : gostring) (p : syntax.parser) :
  length t <= fuel1 -> length t <= fuel2 ->
  syntax.parse_loop fuel1 t p = syntax.parse_loop fuel2 t p.
Proof.
  revert fuel2 t p. induction fuel1 as [|fuel1 IH]; intros fuel2 t p H1 H2.
  - destruct t; [|simpl in H1; lia]. destruct fuel2; reflexivity.
  - destruct t as [|c t0]; [destruct fuel2; reflexivity|].
    destruct fuel2 as [|fuel2]; [simpl in H2; lia|].
    cbn [syntax.parse_loop].
    destruct (syntax.parse_step (c :: t0) p) as [[t' p']|] eqn:E; [|reflexivity].
    apply parse_step_shrinks in E. simpl in E, H1, H2. apply IH; lia.
Qed.

Lemma parse_step_unfold (t : gostring) (p : syntax.parser) :
  t <> [] ->
  parse t p = match syntax.parse_step t p with
              | Some (t', p') => parse t' p'
              | None => None
              end.
Proof.
  destruct t as [|c t0]; [congruence|]. intros _. unfold parse.
  cbn [length syntax.parse_loop].
  destruct (syntax.parse_step (c :: t0) p) as [[t' p']|] eqn:E; [|reflexivity].
  apply parse_step_shrinks in E. simpl in E. apply parse_loop_fuel; lia.
Qed.

Lemma parse_nil (p : syntax.parser) :
  parse [] p = match syntax.stack p with
               | [] => Some (syntax.concat (rev (syntax.cur p)))
               | _ :: _ => None
               end.
Proof. reflexivity. Qed.

Lemma special_ascii (c : ascii) :
  syntax.special c = true ->
  (N_of_ascii c < 128)%N /\ syntax.isalnum c = false.
Proof.
  unfold syntax.special. cbn [existsb str list_ascii_of_string].
  repeat match goal with
         | |- context [Ascii.eqb c ?x] => destruct (Ascii.eqb_spec c x) as [->|?]
         end;
    cbn [orb]; try discriminate; intros _; split; vm_compute; reflexivity.
Qed.

Lemma not_special (c : ascii) :
  syntax.special c = false ->
  Forall (fun x => Ascii.eqb c x = false) (str "\.+*?()|[]{}^$").
Proof.
  unfold syntax.special. cbn [existsb str list_ascii_of_string].
  intros H. repeat (apply orb_false_iff in H; destruct H as [? H]).
  repeat constructor; assumption.
Qed.

Lemma nonascii_not_special (c : ascii) :
  (128 <= N_of_ascii c)%N -> syntax.special c = false.
Proof.
  intros H. destruct (syntax.special c) eqn:E; [|reflexivity].
  apply special_ascii in E. lia.
Qed.

Ltac not_special_eqs H :=
  let F := fresh in
  pose proof (not_special _ H) as F;
  cbn [str list_ascii_of_string] in F;
  repeat match type of F with
         | Forall _ (_ :: _) =>
           let E := fresh in
           let F' := fresh in
           inversion F as [|? ? E F']; subst; clear F; rename F' into F;
           try rewrite E
         end; clear F.

(** The default case of the switch: a byte with no meaning of its own
    starts a literal rune. *)
Lemma parse_step_literal (c : ascii) (t : gostring) (p : syntax.parser) :
  syntax.special c = false ->
  syntax.parse_step (c :: t) p
  = let (r, size) := utf8.DecodeRuneInString (c :: t) in
    if (r =? utf8.RuneError)%N && (size =? 1) then None
    else Some (skipn size (c :: t), syntax.push (syntax.OpLiteral r) p).
Proof.
  intros H. unfold syntax.parse_step. rewrite H. not_special_eqs H. reflexivity.
Qed.

Lemma parse_step_ascii (c : ascii) (t : gostring) (p : syntax.parser) :
  syntax.special c = false -> (N_of_ascii c < 128)%N ->
  syntax.parse_step (c :: t) p
  = Some (t, syntax.push (syntax.OpLiteral (N_of_ascii c)) p).
Proof.
  intros H Hc. rewrite parse_step_literal by exact H.
  rewrite DecodeRuneInString_ascii by exact Hc.
  assert ((N_of_ascii c =? utf8.RuneError)%N = false) as ->
      by (apply N.eqb_neq; unfold utf8.RuneError; lia).
  reflexivity.
Qed.

(** A special byte after a backslash is a literal. *)
Lemma parse_step_escape (c : ascii) (t : gostring) (p : syntax.parser) :
  syntax.special c = true ->
  syntax.parse_step ("\"%char :: c :: t) p
  = Some (t, syntax.push (syntax.OpLiteral (N_of_ascii c)) p).
Proof.
  intros H. destruct (special_ascii _ H) as [Hc Halnum].
  cbn. rewrite Halnum.
  assert ((N_of_ascii c <? utf8.RuneSelf)%N = true) as ->
      by (apply N.ltb_lt; exact Hc).
  reflexivity.
Qed.

Lemma runesFrom_skipn (skip : nat) (s : gostring) :
  skip <= length s -> runesFrom skip s = runesFrom 0 (skipn skip s).
Proof.
  revert s. induction skip as [|skip IH]; intros s Hlen; [reflexivity|].
  destruct s as [|c s]; [simpl in Hlen; lia|].
  simpl in Hlen. cbn [runesFrom skipn]. apply IH. lia.
Qed.

Lemma validRunes_cons (c : ascii) (pre post : gostring) (r : N) :
  utf8.DecodeRuneInString (c :: pre ++ post) = (r, S (length pre)) ->
  validRunes (c :: pre ++ post)
  = if (r =? utf8.RuneError)%N && (S (length pre) =? 1) then None
    else option_map (cons r) (validRunes post).
Proof.
  intros E. unfold validRunes. cbn [runesFrom]. rewrite E.
  destruct (_ && _); [reflexivity|].
  rewrite runesFrom_skipn by (rewrite length_app; lia).
  cbn [Nat.sub]. rewrite Nat.sub_0_r, skipn_pre; reflexivity.
Qed.

Lemma QuoteMeta_nonascii (s : gostring) :
  Forall (fun c => 128 <= N_of_ascii c)%N s -> regexp.QuoteMeta s = s.
Proof.
  induction 1 as [|c s Hc _ IH]; simpl; [reflexivity|].
  now rewrite (nonascii_not_special _ Hc), IH.
Qed.

Lemma QuoteMeta_same (s rest : gostring) :
  asciiHead rest -> sameUntilASCII (regexp.QuoteMeta s ++ rest) s.
Proof.
  intros Hrest. induction s as [|c s IH]; simpl.
  - now apply same_stop.
  - destruct (N.lt_ge_cases (N_of_ascii c) 128) as [Hc|Hc].
    + apply same_stop; [|exact Hc].
      destruct (syntax.special c); simpl; [vm_compute; reflexivity | exact Hc].
    + rewrite (nonascii_not_special _ Hc). simpl. now apply same_cons.
Qed.

Lemma pushLiterals_cons (r : N) (rs : list N) (p : syntax.parser) :
  pushLiterals (r :: rs) p = pushLiterals rs (syntax.push (syntax.OpLiteral r) p).
Proof. reflexivity. Qed.

Lemma parse_after_literal (X : option (list N)) (r : N) (rest : gostring)
      (p : syntax.parser) :
  match option_map (cons r) X with
  | Some rs => parse rest (pushLiterals rs p)
  | None => None
  end
  = match X with
    | Some rs => parse rest (pushLiterals rs (syntax.push (syntax.OpLiteral r) p))
    | None => None
    end.
Proof. destruct X; reflexivity. Qed.

(** The parser reads a quoted literal segment as its runes, and fails on
    it when the segment is not valid UTF-8. *)
Lemma parse_QuoteMeta (n : nat) :
  forall (seg rest : gostring) (p : syntax.parser),
    length seg <= n -> asciiHead rest ->
    parse (regexp.QuoteMeta seg ++ rest) p
    = match validRunes seg with
      | Some rs => parse rest (pushLiterals rs p)
      | None => None
      end.
Proof.
  induction n as [|n IH]; intros seg rest p Hlen Hrest.
  - destruct seg; [reflexivity | simpl in Hlen; lia].
  - destruct seg as [|c seg]; [reflexivity|]. simpl in Hlen.
    destruct (syntax.special c) eqn:Hsp.
    + (* an escaped byte *)
      destruct (special_ascii _ Hsp) as [Hc _].
      cbn [regexp.QuoteMeta]. rewrite Hsp. cbn [app].
      rewrite parse_step_unfold by discriminate.
      rewrite parse_step_escape by exact Hsp.
      rewrite IH by (assumption || lia).
      pose proof (@validRunes_cons c [] seg (N_of_ascii c)
                    (DecodeRuneInString_ascii c seg Hc)) as E.
      cbn [app length] in E. rewrite E.
      assert ((N_of_ascii c =? utf8.RuneError)%N = false) as ->
          by (apply N.eqb_neq; unfold utf8.RuneError; lia).
      cbn [andb]. now rewrite parse_after_literal.
    + cbn [regexp.QuoteMeta]. rewrite Hsp. cbn [app].
      rewrite parse_step_unfold by discriminate.
      rewrite parse_step_literal by exact Hsp.
      rewrite (DecodeRuneInString_same c (QuoteMeta_same seg rest Hrest)).
      destruct (utf8.DecodeRuneInString (c :: seg)) as [r size] eqn:E.
      destruct (DecodeRuneInString_width _ _ E) as (pre & post & Hsplit & Hsize & Hpos & Hpre).
      destruct pre as [|c' pre]; [simpl in Hsize; lia|].
      cbn [app] in Hsplit. inversion Hsplit; subst c' seg. clear Hsplit.
      cbn [length] in Hsize. subst size.
      assert (Forall (fun c => 128 <= N_of_ascii c)%N pre) as Hpre'.
      { destruct pre as [|c1 pre]; [constructor|].
        assert (1 < S (length (c1 :: pre))) as Hgt by (simpl; lia).
        specialize (Hpre Hgt). now inversion Hpre. }
      rewrite (@validRunes_cons c pre post r E).
      destruct ((r =? utf8.RuneError)%N && (S (length pre) =? 1)); [reflexivity|].
      rewrite QuoteMeta_app, (QuoteMeta_nonascii Hpre'), <- app_assoc.
      change (c :: pre ++ regexp.QuoteMeta post ++ rest)
        with ((c :: pre) ++ regexp.QuoteMeta post ++ rest).
      rewrite skipn_pre by reflexivity.
      rewrite IH by (try assumption; rewrite length_app in Hlen; lia).
      now rewrite parse_after_literal.
Qed.

(** ** The tree of a template's expression *)

Arguments parse : simpl never.

Lemma parse_chunk_variable (each rest : gostring) (p : syntax.parser) :
  isVariable each = true ->
  parse (chunk each ++ rest) p
  = parse rest
          (syntax.mkParser (syntax.stack p)
             (variableItem (S (syntax.numCap p)) :: syntax.OpLiteral 47 :: syntax.cur p)
             (S (syntax.numCap p))).
Proof.
  intros Hvar. unfold chunk. rewrite Hvar.
  cbn [str list_ascii_of_string app].
  do 5 (rewrite parse_step_unfold by discriminate; cbn).
  reflexivity.
Qed.

Lemma parse_chunk_literal (each rest : gostring) (p : syntax.parser) :
  isVariable each = false -> asciiHead rest ->
  parse (chunk each ++ rest) p
  = match validRunes each with
    | Some rs => parse rest (pushLiterals rs (syntax.push (syntax.OpLiteral 47) p))
    | None => None
    end.
Proof.
  intros Hvar Hrest. unfold chunk. rewrite Hvar.
  cbn [str list_ascii_of_string app].
  rewrite parse_step_unfold by discriminate.
  rewrite parse_step_ascii by (vm_compute; reflexivity).
  apply parse_QuoteMeta with (n := length each); [lia | exact Hrest].
Qed.

Lemma parse_remainder (p : syntax.parser) :
  syntax.stack p = [] ->
  parse (str "(/.*)?") p
  = Some (syntax.concat (rev (remainderItem (S (syntax.numCap p)) :: syntax.cur p))).
Proof.
  intros Hstack. cbn [str list_ascii_of_string].
  do 6 (rewrite parse_step_unfold by discriminate; cbn).
  rewrite parse_nil. cbn. rewrite Hstack. reflexivity.
Qed.

Lemma pushLiterals_spec (rs : list N) (p : syntax.parser) :
  pushLiterals rs p
  = syntax.mkParser (syntax.stack p)
                    (rev (map syntax.OpLiteral rs) ++ syntax.cur p)
                    (syntax.numCap p).
Proof.
  revert p. induction rs as [|r rs IH]; intros p.
  - destruct p; reflexivity.
  - rewrite pushLiterals_cons, IH. cbn. now rewrite <- app_assoc.
Qed.

Lemma asciiHead_chunks (segs : list gostring) :
  asciiHead (flat_map chunk segs ++ str "(/.*)?").
Proof. destruct segs; cbn; lia. Qed.

Lemma parse_chunks (segs : list gostring) :
  forall p : syntax.parser,
    syntax.stack p = [] ->
    parse (flat_map chunk segs ++ str "(/.*)?") p
    = option_map (fun items => syntax.concat (rev (syntax.cur p) ++ items))
                 (templateItems segs (syntax.numCap p)).
Proof.
  induction segs as [|each segs IH]; intros p Hstack.
  - cbn [flat_map app templateItems option_map].
    now rewrite parse_remainder.
  - cbn [flat_map templateItems]. rewrite <- app_assoc.
    destruct (isVariable each) eqn:Hvar.
    + rewrite parse_chunk_variable by exact Hvar.
      rewrite IH by exact Hstack. cbn [syntax.cur syntax.numCap].
      destruct (templateItems segs (S (syntax.numCap p))) as [items|];
        [|reflexivity].
      cbn [option_map rev]. now rewrite <- !app_assoc.
    + rewrite parse_chunk_literal by (exact Hvar || apply asciiHead_chunks).
      destruct (validRunes each) as [rs|]; [|reflexivity].
      rewrite pushLiterals_spec. rewrite IH by exact Hstack.
      cbn [syntax.cur syntax.numCap syntax.push].
      destruct (templateItems segs (syntax.numCap p)) as [items|];
        [|reflexivity].
      cbn [option_map]. rewrite rev_app_distr, rev_involutive.
      cbn [rev]. now rewrite <- !app_assoc.
Qed.

(** The parser on the expression of a template: the tree of its segments,
    and an error exactly when a literal segment is not valid UTF-8. *)
Lemma Parse_templateToRegularExpression (template : gostring) :
  syntax.Parse (fst (fst (templateToRegularExpression template)))
  = templateTree template.
Proof.
  rewrite templateToRegularExpression_segments. cbn [fst].
  unfold syntax.Parse. fold (parse (flat_map chunk (segments template) ++ str "(/.*)?")
                                   (syntax.mkParser [] [] 0)).
  rewrite parse_chunks by reflexivity. reflexivity.
Qed.

(** ** The capture groups of a template's expression *)

Lemma MaxCap_concat (items : list syntax.Regexp) :
  syntax.MaxCap (syntax.concat items) = maxCapOf items.
Proof.
  induction items as [|x [|y items] IH].
  - reflexivity.
  - cbn. lia.
  - change (syntax.concat (x :: y :: items))
      with (syntax.OpConcat x (syntax.concat (y :: items))).
    cbn [syntax.MaxCap]. rewrite IH. reflexivity.
Qed.

Lemma maxCapOf_literals (rs : list N) (items : list syntax.Regexp) :
  maxCapOf (map syntax.OpLiteral rs ++ items) = maxCapOf items.
Proof. induction rs as [|r rs IH]; [reflexivity | exact IH]. Qed.

Lemma templateItems_maxCap (segs : list gostring) :
  forall (numCap : nat) (items : list syntax.Regexp),
    templateItems segs numCap = Some items ->
    maxCapOf items = S (numCap + length (filter isVariable segs)).
Proof.
  induction segs as [|each segs IH]; intros numCap items.
  - cbn. intros E; inversion E; subst. cbn. lia.
  - cbn [templateItems filter]. destruct (isVariable each).
    + destruct (templateItems segs (S numCap)) as [items'|] eqn:E; [|discriminate].
      intros H; inversion H; subst. cbn [maxCapOf fold_right].
      fold (maxCapOf items'). rewrite (IH _ _ E).
      unfold variableItem, notSlash. cbn [length syntax.MaxCap]. lia.
    + destruct (validRunes each) as [rs|]; [|discriminate].
      destruct (templateItems segs numCap) as [items'|] eqn:E; [|discriminate].
      intros H; inversion H; subst. cbn [maxCapOf fold_right].
      fold (maxCapOf (map syntax.OpLiteral rs ++ items')).
      rewrite maxCapOf_literals, (IH _ _ E). cbn [syntax.MaxCap]. lia.
Qed.

(** [regexp.Compile] on the expression of a template. *)
Lemma Compile_templateToRegularExpression (template : gostring) :
  regexp.Compile (fst (fst (templateToRegularExpression template)))
  = option_map
      (fun tree =>
         regexp.mkRegexp (fst (fst (templateToRegularExpression template))) tree
                         (S (length (filter isVariable (segments template)))))
      (templateTree template).
Proof.
  unfold regexp.Compile. rewrite Parse_templateToRegularExpression.
  unfold templateTree.
  destruct (templateItems (segments template) 0) as [items|] eqn:E; [|reflexivity].
  cbn [option_map]. rewrite MaxCap_concat, (templateItems_maxCap _ _ E).
  reflexivity.
Qed.

(** The expression of a template compiles exactly when its literal
    segments are valid UTF-8. *)
Lemma templateItems_valid (segs : list gostring) (numCap : nat) :
  templateItems segs numCap <> None
  <-> forall each, In each segs -> isVariable each = false ->
                   validRunes each <> None.
Proof.
  revert numCap. induction segs as [|each segs IH]; intros numCap.
  - cbn. split; [intros _ ? [] | discriminate].
  - cbn [templateItems]. destruct (isVariable each) eqn:Hvar.
    + specialize (IH (S numCap)).
      destruct (templateItems segs (S numCap)); cbn [option_map]; split.
      * intros _ e [<-|He] Hv; [congruence|]. apply IH; [discriminate|assumption..].
      * discriminate.
      * intros H; congruence.
      * intros H. apply IH. intros e He. apply H. now right.
    + destruct (validRunes each) as [rs|] eqn:Hrs.
      * specialize (IH numCap).
        destruct (templateItems segs numCap); cbn [option_map]; split.
        -- intros _ e [<-|He] Hv; [congruence|]. apply IH; [discriminate|assumption..].
        -- discriminate.
        -- intros H; congruence.
        -- intros H. apply IH. intros e He. apply H. now right.
      * split; [congruence|]. intros H.
        exfalso. apply (H each); [now left | exact Hvar | exact Hrs].
Qed.

Lemma Compile_template_valid (template : gostring) :
  regexp.Compile (fst (fst (templateToRegularExpression template))) <> None
  <-> forall each, In each (segments template) -> isVariable each = false ->
                   validRunes each <> None.
Proof.
  rewrite Compile_templateToRegularExpression, <- (templateItems_valid _ 0).
  unfold templateTree.
  destruct (templateItems (segments template) 0); cbn; split; congruence.
Qed.

(** A match has one string per group and one for the whole match. *)
Lemma FindStringSubmatch_length (re : regexp.Regexp) (s : gostring)
      (matches : list gostring) :
  regexp.FindStringSubmatch re s = Some matches ->
  length matches = S (regexp.numSubexp re).
Proof.
  unfold regexp.FindStringSubmatch.
  destruct (regexp.search (regexp.tree re) (length s) s) as [[start [stop c]]|];
    [|discriminate].
  intros E; inversion E; subst. cbn [length].
  now rewrite length_map, length_seq.
Qed.

(** The counters of a template, by its segments. *)
Lemma templateToRegularExpression_varCount (template : gostring) :
  snd (templateToRegularExpression template)
  = Z.of_nat (length (filter isVariable (segments template))).
Proof. now rewrite templateToRegularExpression_segments. Qed.

(** The captures of a match on a template's expression: one per variable
    segment, the remainder group and the whole match. *)
Lemma matches_of_template (template : gostring) (compiled : regexp.Regexp)
      (s : gostring) (matches : list gostring) :
  regexp.Compile (fst (fst (templateToRegularExpression template))) = Some compiled ->
  regexp.FindStringSubmatch compiled s = Some matches ->
  regexp.numSubexp compiled = S (length (filter isVariable (segments template)))
  /\ Z.of_nat (length matches) = (snd (templateToRegularExpression template) + 2)%Z.
Proof.
  intros Hc Hm. rewrite Compile_templateToRegularExpression in Hc.
  destruct (templateTree template) as [tree|]; [|discriminate].
  inversion Hc; subst compiled. clear Hc. cbn [regexp.numSubexp].
  split; [reflexivity|].
  rewrite (FindStringSubmatch_length _ _ Hm), templateToRegularExpression_varCount.
  cbn [regexp.numSubexp]. lia.
Qed.

(** ** Matching an expression of literal ASCII segments *)

Lemma N_of_ascii_eqb (a b : ascii) :
  (N_of_ascii a =? N_of_ascii b)%N = Ascii.eqb a b.
Proof.
  destruct (Ascii.eqb_spec a b) as [->|Hab].
  - apply N.eqb_refl.
  - apply N.eqb_neq. intros E. apply Hab.
    rewrite <- (ascii_N_embedding a), <- (ascii_N_embedding b). now rewrite E.
Qed.

(** An ASCII literal of the expression matches its own byte only. *)
Lemma stepRune_ascii (l : ascii) (s : gostring) (c : regexp.caps) (k : regexp.cont) :
  (N_of_ascii l < 128)%N ->
  regexp.stepRune (N.eqb (N_of_ascii l)) s c k
  = match s with
    | [] => None
    | c0 :: t => if Ascii.eqb c0 l then k t c else None
    end.
Proof.
  intros Hl. destruct s as [|c0 t]; [reflexivity|]. unfold regexp.stepRune.
  destruct (N.lt_ge_cases (N_of_ascii c0) 128) as [Hc|Hc].
  - rewrite (DecodeRuneInString_ascii c0 t Hc).
    rewrite N_of_ascii_eqb, Ascii.eqb_sym. reflexivity.
  - pose proof (DecodeRuneInString_nonascii c0 t Hc) as Hr.
    destruct (utf8.DecodeRuneInString (c0 :: t)) as [r size]. cbn [fst] in Hr.
    assert ((N_of_ascii l =? r)%N = false) as -> by (apply N.eqb_neq; lia).
    destruct (Ascii.eqb_spec c0 l) as [->|_]; [lia | reflexivity].
Qed.





Lemma validRunes_ascii (s : gostring) :
  allASCII s -> validRunes s = Some (map N_of_ascii s).
Proof.
  induction 1 as [|c s Hc _ IH]; [reflexivity|].
  pose proof (@validRunes_cons c [] s (N_of_ascii c)
                (DecodeRuneInString_ascii c s Hc)) as E.
  cbn [app length] in E. rewrite E, IH.
  assert ((N_of_ascii c =? utf8.RuneError)%N = false) as ->
      by (apply N.eqb_neq; unfold utf8.RuneError; lia).
  reflexivity.
Qed.




(** ** The selectors *)

Lemma routeCandidates_flat_map (routes : list Route) (final : gostring) :
  routeCandidates routes final
  = flat_map (fun each => routeCandidateOf each final) routes.
Proof. apply routeLoop_candidates. Qed.

Lemma dispatcherCandidates_flat_map (D : Type) {I : Dispatcher D}
      (dispatchers : list D) (requestPath : gostring) :
  dispatcherCandidates dispatchers requestPath
  = flat_map (fun each => dispatcherCandidateOf each requestPath) dispatchers.
Proof. apply dispatcherLoop_candidates. Qed.

Section Selectors.

Context {S : sort.Sorter}.
Variable D : Type.
Context {I : Dispatcher D}.

(** [selectRoutes] past its short cut. *)
Lemma selectRoutes_beyondRoot (dispatcher : D) (final : gostring) :
  beyondRoot final ->
  selectRoutes dispatcher final
  = match routeCandidates (Routes dispatcher) final with
    | [] => ([], Some (errors.New (str "not found")))
    | unsorted0 :: _ =>
      let sorted :=
        sort.Sort sortableRouteCandidates.less
                  (routeCandidates (Routes dispatcher) final) in
      (tieGroup (nth 0 sorted unsorted0) sorted, None)
    end.
Proof.
  unfold beyondRoot, selectRoutes, routeCandidates. intros ->.
  destruct (sortableRouteCandidates.candidates
              (fst (routeLoop (Routes dispatcher) final))) as [|c0 l];
    [reflexivity|].
  cbv zeta. cbn [sortableRouteCandidates.candidates].
  now rewrite matchingRoutes_from.
Qed.

Lemma detectDispatcher_spec (requestPath : gostring) (dispatchers : list D) :
  detectDispatcher requestPath dispatchers
  = match dispatcherCandidates dispatchers requestPath with
    | [] => (None, str "", Some (errors.New (str "not found")))
    | unsorted0 :: _ =>
      let best :=
        nth 0 (sort.Sort (@sortableCandidates.less D)
                         (dispatcherCandidates dispatchers requestPath))
            unsorted0 in
      (Some (dispatcherCandidate.dispatcher best),
       dispatcherCandidate.finalMatch best, None)
    end.
Proof.
  unfold detectDispatcher, dispatcherCandidates.
  destruct (sortableCandidates.candidates
              (fst (dispatcherLoop dispatchers requestPath))); reflexivity.
Qed.

(** A route is a candidate exactly when its expression compiles and
    matches with a remainder group that is [""] or ["/"]. *)
Lemma routeCandidateOf_spec (each : Route) (final : gostring) (c : routeCandidate.t) :
  In c (routeCandidateOf each final)
  <-> exists compiled matches,
      regexp.Compile (fst (fst (templateToRegularExpression (relativePath each))))
      = Some compiled
      /\ regexp.FindStringSubmatch compiled final = Some matches
      /\ (remainderOf matches = str "" \/ remainderOf matches = str "/")
      /\ c = routeCandidate.mk
               each
               (fst (fst (templateToRegularExpression (relativePath each))))
               (Z.of_nat (length matches))
               (snd (fst (templateToRegularExpression (relativePath each))))
               (snd (templateToRegularExpression (relativePath each))).
Proof.
  unfold routeCandidateOf, remainderOf.
  destruct (templateToRegularExpression (relativePath each)) as [[expression lc] vc].
  cbn [fst snd].
  destruct (regexp.Compile expression) as [compiled|].
  - destruct (regexp.FindStringSubmatch compiled final) as [matches|] eqn:Hfind.
    + cbv zeta.
      destruct (streq_spec (nth (length matches - 1) matches []) (str "")) as [E1|N1];
        cbn [orb].
      * split.
        -- intros [<-|[]]. exists compiled, matches.
           split; [reflexivity|]. split; [exact Hfind|].
           split; [left; exact E1 | reflexivity].
        -- intros (? & ? & Hc & Hm & _ & ->). inversion Hc; subst.
           rewrite Hfind in Hm; inversion Hm; subst.
           now left.
      * destruct (streq_spec (nth (length matches - 1) matches []) (str "/")) as [E2|N2].
        -- split.
           ++ intros [<-|[]]. exists compiled, matches.
              split; [reflexivity|]. split; [exact Hfind|].
              split; [right; exact E2 | reflexivity].
           ++ intros (? & ? & Hc & Hm & _ & ->). inversion Hc; subst.
           rewrite Hfind in Hm; inversion Hm; subst.
              now left.
        -- split; [intros []|].
           intros (? & ? & Hc & Hm & Hr & _). inversion Hc; subst.
           rewrite Hfind in Hm; inversion Hm; subst.
           destruct Hr; contradiction.
    + split; [intros []|]. intros (? & ? & Hc & Hm & _). inversion Hc; subst. congruence.
  - split; [intros []|]. intros (? & ? & Hc & _). discriminate.
Qed.

Lemma dispatcherCandidateOf_spec (each : D) (requestPath : gostring)
      (c : dispatcherCandidate.t D) :
  In c (dispatcherCandidateOf each requestPath)
  <-> exists compiled matches,
      regexp.Compile (fst (fst (templateToRegularExpression (RootPath each))))
      = Some compiled
      /\ regexp.FindStringSubmatch compiled requestPath = Some matches
      /\ c = dispatcherCandidate.mk
               each (remainderOf matches) (Z.of_nat (length matches))
               (snd (fst (templateToRegularExpression (RootPath each))))
               (snd (templateToRegularExpression (RootPath each))).
Proof.
  unfold dispatcherCandidateOf, remainderOf.
  destruct (templateToRegularExpression (RootPath each)) as [[expression lc] vc].
  cbn [fst snd].
  destruct (regexp.Compile expression) as [compiled|].
  - destruct (regexp.FindStringSubmatch compiled requestPath) as [matches|] eqn:Hfind.
    + split.
      * intros [<-|[]]. exists compiled, matches.
        split; [reflexivity|]. split; [exact Hfind | reflexivity].
      * intros (? & ? & Hc & Hm & ->). inversion Hc; subst.
        rewrite Hfind in Hm; inversion Hm; subst. now left.
    + split; [intros []|]. intros (? & ? & Hc & Hm & _). inversion Hc; subst. congruence.
  - split; [intros []|]. intros (? & ? & Hc & _). discriminate.
Qed.

(** The routes [selectRoutes] returns are routes of candidates. *)
Lemma selectRoutes_among_candidates (dispatcher : D) (final : gostring) (r : Route) :
  beyondRoot final ->
  In r (fst (selectRoutes dispatcher final)) ->
  exists c, In c (routeCandidates (Routes dispatcher) final)
            /\ routeCandidate.route c = r.
Proof.
  intros Hfinal. rewrite (selectRoutes_beyondRoot dispatcher Hfinal).
  destruct (routeCandidates (Routes dispatcher) final) as [|c0 l] eqn:E;
    [intros []|].
  cbv zeta. cbn [fst]. unfold tieGroup. rewrite in_map_iff.
  intros (c & Hr & Hc). apply filter_In in Hc. destruct Hc as [Hc _].
  apply Sort_In in Hc. now exists c.
Qed.

End Selectors.

Lemma flat_map_nil (A B : Type) (f : A -> list B) (l : list A) :
  flat_map f l = [] <-> forall x, In x l -> f x = [].
Proof.
  induction l as [|a l IH]; cbn [flat_map].
  - split; [intros _ ? [] | reflexivity].
  - split.
    + intros E. apply app_eq_nil in E. destruct E as [Ea El].
      intros x [<-|Hx]; [exact Ea | now apply IH].
    + intros H. rewrite (H a (or_introl eq_refl)). apply IH.
      intros x Hx. apply H. now right.
Qed.

Lemma nil_iff_no_member (A : Type) (l : list A) : l = [] <-> forall x, ~ In x l.
Proof.
  destruct l as [|a l]; split; try reflexivity; try discriminate.
  - intros _ x [].
  - intros H. exfalso. apply (H a). now left.
Qed.

(** No route is a candidate exactly when every route either does not
    compile, does not match, or leaves a remainder group other than [""]
    and ["/"]. *)
Lemma routeCandidates_nil (routes : list Route) (final : gostring) :
  routeCandidates routes final = []
  <-> forall each compiled matches,
      In each routes ->
      regexp.Compile (fst (fst (templateToRegularExpression (relativePath each))))
      = Some compiled ->
      regexp.FindStringSubmatch compiled final = Some matches ->
      remainderOf matches <> str "" /\ remainderOf matches <> str "/".
Proof.
  rewrite routeCandidates_flat_map, flat_map_nil. split.
  - intros H each compiled matches Hin Hc Hm.
    specialize (H each Hin). rewrite nil_iff_no_member in H.
    split; intros Hr;
      eapply H, routeCandidateOf_spec; exists compiled, matches; eauto.
  - intros H each Hin. apply nil_iff_no_member. intros c Hc.
    apply routeCandidateOf_spec in Hc.
    destruct Hc as (compiled & matches & Hc & Hm & Hr & _).
    destruct (H each compiled matches Hin Hc Hm) as [N1 N2].
    destruct Hr; contradiction.
Qed.

(** No dispatcher is a candidate exactly when none compiles and matches. *)
Lemma dispatcherCandidates_nil (D : Type) {I : Dispatcher D}
      (dispatchers : list D) (requestPath : gostring) :
  dispatcherCandidates dispatchers requestPath = []
  <-> forall each compiled,
      In each dispatchers ->
      regexp.Compile (fst (fst (templateToRegularExpression (RootPath each))))
      = Some compiled ->
      regexp.FindStringSubmatch compiled requestPath = None.
Proof.
  rewrite dispatcherCandidates_flat_map, flat_map_nil. split.
  - intros H each compiled Hin Hc.
    specialize (H each Hin). rewrite nil_iff_no_member in H.
    destruct (regexp.FindStringSubmatch compiled requestPath) as [matches|] eqn:Hm;
      [|reflexivity].
    exfalso. eapply H, dispatcherCandidateOf_spec. exists compiled, matches. eauto.
  - intros H each Hin. apply nil_iff_no_member. intros c Hc.
    apply dispatcherCandidateOf_spec in Hc.
    destruct Hc as (compiled & matches & Hc & Hm & _).
    rewrite (H each compiled Hin Hc) in Hm. discriminate.
Qed.

(** * The claims *)

(** C4: for every dispatcher, [selectRoutes] called with the remainder [""]
    or with the remainder ["/"] returns the dispatcher's complete route
    list, unchanged and unfiltered, with no error; no template is compiled,
    so nothing is logged, and no sort is involved (the result is the same
    for every implementation of [sort.Sort]). *)
Theorem C4_selectRoutes_root_returns_all_routes
        (S : sort.Sorter) (D : Type) (I : Dispatcher D) (dispatcher : D) :
  selectRoutes dispatcher (str "") = (Routes dispatcher, None)
  /\ selectRoutes dispatcher (str "/") = (Routes dispatcher, None)
  /\ selectRoutes_log dispatcher (str "") = []
  /\ selectRoutes_log dispatcher (str "/") = [].
Proof. repeat split. Qed.

(** C7: both selectors fail with the error "not found" exactly when their
    candidate set is empty.  For a remainder other than [""] and ["/"],
    [selectRoutes] returns that error iff no route is a candidate, and no
    error otherwise; no route is a candidate iff every route that compiles
    and matches leaves a remainder group other than [""] and ["/"].
    [detectDispatcher] returns the error iff no dispatcher is a candidate,
    which is iff no dispatcher compiles and matches, and so for the empty
    list of dispatchers.  No other error is returned: a template that does
    not compile is logged and gives no candidate. *)
Theorem C7_not_found_iff_no_candidate
        (S : sort.Sorter) (D : Type) (I : Dispatcher D)
        (dispatcher : D) (final requestPath : gostring) (dispatchers : list D) :
  beyondRoot final ->
  (snd (selectRoutes dispatcher final) = Some (errors.New (str "not found"))
   <-> routeCandidates (Routes dispatcher) final = [])
  /\ (snd (selectRoutes dispatcher final) = None
      <-> routeCandidates (Routes dispatcher) final <> [])
  /\ (routeCandidates (Routes dispatcher) final = []
      <-> forall each compiled matches,
         In each (Routes dispatcher) ->
         regexp.Compile (fst (fst (templateToRegularExpression (relativePath each))))
         = Some compiled ->
         regexp.FindStringSubmatch compiled final = Some matches ->
         remainderOf matches <> str "" /\ remainderOf matches <> str "/")
  /\ (snd (detectDispatcher requestPath dispatchers)
      = Some (errors.New (str "not found"))
      <-> dispatcherCandidates dispatchers requestPath = [])
  /\ (snd (detectDispatcher requestPath dispatchers) = None
      <-> dispatcherCandidates dispatchers requestPath <> [])
  /\ (dispatcherCandidates dispatchers requestPath = []
      <-> forall each compiled,
         In each dispatchers ->
         regexp.Compile (fst (fst (templateToRegularExpression (RootPath each))))
         = Some compiled ->
         regexp.FindStringSubmatch compiled requestPath = None)
  /\ detectDispatcher requestPath (@nil D)
     = (None, str "", Some (errors.New (str "not found")))
  /\ (forall each,
         In each (Routes dispatcher) ->
         regexp.Compile (fst (fst (templateToRegularExpression (relativePath each))))
         = None ->
         In (Path each) (selectRoutes_log dispatcher final)
         /\ forall c, In c (routeCandidates (Routes dispatcher) final) ->
                      routeCandidate.route c <> each).
Proof.
  intros Hfinal.
  rewrite (selectRoutes_beyondRoot dispatcher Hfinal), detectDispatcher_spec.
  split; [|split; [|split; [|split; [|split; [|split; [|split]]]]]].
  - destruct (routeCandidates (Routes dispatcher) final); cbn;
      split; intros H; try discriminate H; try reflexivity; try discriminate;
        try (exfalso; apply H; reflexivity).
  - destruct (routeCandidates (Routes dispatcher) final); cbn;
      split; intros H; try discriminate H; try reflexivity; try discriminate;
        try (exfalso; apply H; reflexivity).
  - apply routeCandidates_nil.
  - destruct (dispatcherCandidates dispatchers requestPath); cbn;
      split; intros H; try discriminate H; try reflexivity; try discriminate;
        try (exfalso; apply H; reflexivity).
  - destruct (dispatcherCandidates dispatchers requestPath); cbn;
      split; intros H; try discriminate H; try reflexivity; try discriminate;
        try (exfalso; apply H; reflexivity).
  - apply dispatcherCandidates_nil.
  - reflexivity.
  - intros each Hin Hc. split.
    + unfold selectRoutes_log. unfold beyondRoot in Hfinal. rewrite Hfinal.
      rewrite routeLoop_log. apply in_flat_map. exists each. split; [exact Hin|].
      unfold loggedFor. rewrite Hc. now left.
    + intros c Hcand Hroute. rewrite routeCandidates_flat_map in Hcand.
      apply in_flat_map in Hcand. destruct Hcand as (each' & _ & Hc').
      apply routeCandidateOf_spec in Hc'.
      destruct Hc' as (compiled & matches & Hcomp & _ & _ & ->).
      cbn in Hroute. subst each'. congruence.
Qed.

(** C7 at a dispatcher with the route [/a] and a route whose template does
    not compile: the remainder [/b] is not found; the remainder [/a] finds
    the route [/a], the other route is logged and no error comes of it. *)
Lemma C7_witness :
  beyondRoot (str "/b")
  /\ selectRoutes (mkWebService (str "/") [brokenRoute; routeAt "/a"]) (str "/b")
     = ([], Some (errors.New (str "not found")))
  /\ (snd (selectRoutes (mkWebService (str "/") [brokenRoute; routeAt "/a"]) (str "/b"))
      = Some (errors.New (str "not found"))
      <-> routeCandidates [brokenRoute; routeAt "/a"] (str "/b") = [])
  /\ selectRoutes (mkWebService (str "/") [brokenRoute; routeAt "/a"]) (str "/a")
     = ([routeAt "/a"], None)
  /\ selectRoutes_log (mkWebService (str "/") [brokenRoute; routeAt "/a"]) (str "/a")
     = [str "/broken"]
  /\ detectDispatcher (str "/b") [serving "/a" []]
     = (None, str "", Some (errors.New (str "not found"))).
Proof.
  split; [reflexivity|].
  split; [vm_compute; reflexivity|].
  split.
  - exact (proj1 (@C7_not_found_iff_no_candidate
                    insertionSorter WebService WebService_Dispatcher
                    (mkWebService (str "/") [brokenRoute; routeAt "/a"])
                    (str "/b") (str "/b") [] eq_refl)).
  - repeat split; vm_compute; reflexivity.
Defined.

(** C3, as the spec states its example: the claim has the match of the
    template [/x/{a}] against [/x/y/z] leave [/y/z]; the remainder group
    of that match is [/z]. *)
Lemma C3_counterexample :
  templateMatch (str "/x/{a}") (str "/x/y/z")
  = Some [str "/x/y/z"; str "y"; str "/z"]
  /\ remainderOf [str "/x/y/z"; str "y"; str "/z"] = str "/z"
  /\ streq (str "/z") (str "/y/z") = false.
Proof. repeat split; vm_compute; reflexivity. Qed.

(** C3 (amended): in [selectRoutes] with a remainder other than [""] and
    ["/"], a route whose compiled pattern matches the remainder is accepted
    as a candidate if and only if the last captured group (the remainder
    group) equals [""] or ["/"]; a route whose remainder group is any other
    string (e.g. the template [/x/{a}] against the remainder [/x/y/z],
    whose remainder group is [/z]) is excluded from the candidate set, and
    is not returned. *)
Theorem C3_candidate_iff_remainder_group_consumed
        (S : sort.Sorter) (D : Type) (I : Dispatcher D)
        (dispatcher : D) (final : gostring) (each : Route)
        (compiled : regexp.Regexp) (matches : list gostring) :
  beyondRoot final ->
  In each (Routes dispatcher) ->
  regexp.Compile (fst (fst (templateToRegularExpression (relativePath each))))
  = Some compiled ->
  regexp.FindStringSubmatch compiled final = Some matches ->
  ((exists c, In c (routeCandidates (Routes dispatcher) final)
              /\ routeCandidate.route c = each)
   <-> (remainderOf matches = str "" \/ remainderOf matches = str "/"))
  /\ (remainderOf matches <> str "" -> remainderOf matches <> str "/" ->
      ~ In each (fst (selectRoutes dispatcher final))).
Proof.
  intros Hfinal Hin Hc Hm.
  assert ((exists c, In c (routeCandidates (Routes dispatcher) final)
                     /\ routeCandidate.route c = each)
          <-> (remainderOf matches = str "" \/ remainderOf matches = str "/"))
    as Hiff.
  { rewrite routeCandidates_flat_map. split.
    - intros (c & Hcand & Hroute). apply in_flat_map in Hcand.
      destruct Hcand as (each' & _ & Hc').
      apply routeCandidateOf_spec in Hc'.
      destruct Hc' as (compiled' & matches' & Hc' & Hm' & Hr & ->).
      cbn in Hroute. subst each'.
      rewrite Hc in Hc'. inversion Hc'; subst compiled'.
      rewrite Hm in Hm'. inversion Hm'; subst matches'. exact Hr.
    - intros Hr. eexists. split.
      + apply in_flat_map. exists each. split; [exact Hin|].
        apply routeCandidateOf_spec. exists compiled, matches.
        repeat split; [exact Hc | exact Hm | exact Hr].
      + reflexivity. }
  split; [exact Hiff|].
  intros N1 N2 Hret.
  apply (@selectRoutes_among_candidates S D I dispatcher final each Hfinal) in Hret.
  apply Hiff in Hret. destruct Hret; contradiction.
Qed.

(** C3 at the routes [/x/{a}] and [/x/{a}/{b}] and the remainder [/x/y/z]:
    the remainder group of [/x/{a}] is [/z], so it is no candidate and is
    not returned; [/x/{a}/{b}] is returned. *)
Lemma C3_witness :
  beyondRoot (str "/x/y/z")
  /\ templateMatch (str "/x/{a}") (str "/x/y/z")
     = Some [str "/x/y/z"; str "y"; str "/z"]
  /\ ~ In (routeAt "/x/{a}")
       (fst (selectRoutes (serving "/" ["/x/{a}"; "/x/{a}/{b}"]%string) (str "/x/y/z")))
  /\ selectRoutes (serving "/" ["/x/{a}"; "/x/{a}/{b}"]%string) (str "/x/y/z")
     = ([routeAt "/x/{a}/{b}"], None).
Proof.
  split; [reflexivity|]. split; [vm_compute; reflexivity|]. split.
  - destruct (regexp.Compile (fst (fst (templateToRegularExpression (str "/x/{a}")))))
      as [compiled|] eqn:Hc; [|vm_compute in Hc; discriminate Hc].
    destruct (regexp.FindStringSubmatch compiled (str "/x/y/z"))
      as [matches|] eqn:Hm.
    + refine (proj2 (@C3_candidate_iff_remainder_group_consumed
                       insertionSorter WebService WebService_Dispatcher
                       (serving "/" ["/x/{a}"; "/x/{a}/{b}"]%string) (str "/x/y/z")
                       (routeAt "/x/{a}") compiled matches
                       eq_refl (or_introl eq_refl) Hc Hm) _ _);
        vm_compute in Hc; injection Hc as <-;
        vm_compute in Hm; injection Hm as <-;
        vm_compute; discriminate.
    + vm_compute in Hc. injection Hc as <-. vm_compute in Hm. discriminate Hm.
  - vm_compute. reflexivity.
Defined.

(** The expression of a candidate is the expression of its route's
    template, and its counters are the template's. *)
Lemma routeCandidate_of_template (routes : list Route) (final : gostring)
      (c : routeCandidate.t) :
  In c (routeCandidates routes final) ->
  In (routeCandidate.route c) routes
  /\ routeCandidate.regexpression c
     = fst (fst (templateToRegularExpression (relativePath (routeCandidate.route c))))
  /\ routeCandidate.literalCount c
     = snd (fst (templateToRegularExpression (relativePath (routeCandidate.route c))))
  /\ routeCandidate.nonDefaultCount c
     = snd (templateToRegularExpression (relativePath (routeCandidate.route c)))
  /\ exists compiled matches,
      regexp.Compile (routeCandidate.regexpression c) = Some compiled
      /\ regexp.FindStringSubmatch compiled final = Some matches
      /\ routeCandidate.matchesCount c = Z.of_nat (length matches).
Proof.
  rewrite routeCandidates_flat_map, in_flat_map.
  intros (each & Hin & Hc). apply routeCandidateOf_spec in Hc.
  destruct Hc as (compiled & matches & Hc & Hm & _ & ->). cbn.
  repeat split; try assumption. now exists compiled, matches.
Qed.

(** C5: when [selectRoutes] has at least one candidate, it returns, in the
    order of the sorted slice, exactly the routes of the candidates whose
    expression is equal, byte for byte, to the expression of element 0 of
    the sorted slice, which is a best-ranked candidate (no candidate is
    ranked strictly before it); so candidates with the same expression are
    returned together or not at all. *)
Theorem C5_returns_tie_group_of_best
        (S : sort.Sorter) (D : Type) (I : Dispatcher D)
        (dispatcher : D) (final : gostring)
        (unsorted0 : routeCandidate.t) (others : list routeCandidate.t) :
  beyondRoot final ->
  routeCandidates (Routes dispatcher) final = unsorted0 :: others ->
  let candidates := routeCandidates (Routes dispatcher) final in
  let sorted := sort.Sort sortableRouteCandidates.less candidates in
  let best := nth 0 sorted unsorted0 in
  (exists l, sorted = best :: l)
  /\ In best candidates
  /\ (forall c, In c candidates -> sortableRouteCandidates.less c best = false)
  /\ selectRoutes dispatcher final = (tieGroup best sorted, None)
  /\ (forall r,
         In r (fst (selectRoutes dispatcher final))
         <-> exists c, In c candidates /\ routeCandidate.route c = r
                       /\ routeCandidate.regexpression c
                          = routeCandidate.regexpression best)
  /\ (forall c1 c2,
         In c1 candidates -> In c2 candidates ->
         routeCandidate.regexpression c1 = routeCandidate.regexpression c2 ->
         In (routeCandidate.route c1) (fst (selectRoutes dispatcher final)) ->
         In (routeCandidate.route c2) (fst (selectRoutes dispatcher final))).
Proof.
  intros Hfinal Hcands candidates sorted best.
  assert (selectRoutes dispatcher final = (tieGroup best sorted, None)) as Hsel.
  { rewrite (selectRoutes_beyondRoot dispatcher Hfinal).
    fold candidates. subst sorted best. unfold candidates at 1.
    rewrite Hcands. reflexivity. }
  assert (forall r,
             In r (tieGroup best sorted)
             <-> exists c, In c candidates /\ routeCandidate.route c = r
                           /\ routeCandidate.regexpression c
                              = routeCandidate.regexpression best) as Hmem.
  { intros r. unfold tieGroup. rewrite in_map_iff. split.
    - intros (c & Hr & Hc). apply filter_In in Hc. destruct Hc as [Hc He].
      apply Sort_In in Hc. apply streq_true in He. now exists c.
    - intros (c & Hc & Hr & He). exists c. split; [exact Hr|].
      apply filter_In. split; [now apply Sort_In | now apply streq_true]. }
  pose proof (@Sort_head_best S _ sortableRouteCandidates.less unsorted0
                              unsorted0 others route_less_order) as Hbest.
  cbv zeta in Hbest. fold candidates in Hcands.
  rewrite <- Hcands in Hbest. fold sorted in Hbest. fold best in Hbest.
  destruct Hbest as [Hin Hmin].
  split.
  { subst best sorted. rewrite Hcands.
    destruct (Sort_nonempty sortableRouteCandidates.less unsorted0 others)
      as (y & l & E).
    rewrite E. now exists l. }
  split; [exact Hin|]. split; [exact Hmin|]. split; [exact Hsel|].
  rewrite Hsel. cbn [fst]. split; [exact Hmem|].
  intros c1 c2 H1 H2 He Hret. apply Hmem in Hret. apply Hmem.
  destruct Hret as (c & Hc & Hr & Hb). exists c2. repeat split; [exact H2|].
  rewrite <- He, <- Hb.
  destruct (routeCandidate_of_template _ _ _ Hc) as (_ & -> & _).
  destruct (routeCandidate_of_template _ _ _ H1) as (_ & -> & _).
  now rewrite Hr.
Qed.

(** C5 at the routes [/a/{x}] and [/a/{y}] and the remainder [/a/z]: the
    two templates compile to the same expression, both routes are
    candidates and both are returned. *)
Lemma C5_witness :
  beyondRoot (str "/a/z")
  /\ fst (fst (templateToRegularExpression (str "/a/{x}")))
     = fst (fst (templateToRegularExpression (str "/a/{y}")))
  /\ selectRoutes (serving "/" ["/a/{x}"; "/a/{y}"]%string) (str "/a/z")
     = ([routeAt "/a/{x}"; routeAt "/a/{y}"], None)
  /\ (In (routeAt "/a/{x}")
         (fst (selectRoutes (serving "/" ["/a/{x}"; "/a/{y}"]%string) (str "/a/z")))
      -> In (routeAt "/a/{y}")
            (fst (selectRoutes (serving "/" ["/a/{x}"; "/a/{y}"]%string) (str "/a/z")))).
Proof.
  split; [reflexivity|]. split; [vm_compute; reflexivity|].
  split; [vm_compute; reflexivity|].
  destruct (routeCandidates (Routes (serving "/" ["/a/{x}"; "/a/{y}"]%string))
                            (str "/a/z")) as [|c1 [|c2 l]] eqn:E;
    try (vm_compute in E; discriminate E).
  pose proof (@C5_returns_tie_group_of_best
                insertionSorter WebService WebService_Dispatcher
                (serving "/" ["/a/{x}"; "/a/{y}"]%string) (str "/a/z")
                c1 (c2 :: l) eq_refl E) as H.
  cbv zeta in H. destruct H as (_ & _ & _ & _ & _ & Htie).
  specialize (Htie c1 c2). rewrite E in Htie.
  vm_compute in E. injection E as <- <- <-.
  apply Htie; [now left | right; now left | reflexivity].
Defined.

(** C6: [detectDispatcher] accepts a dispatcher as a candidate on any
    successful match of its compiled root template against the request
    path, whatever the remainder group holds, and for every request path
    (the empty one too: there is no short cut); when there are candidates
    it returns one dispatcher, that of element 0 of the sorted slice, a
    best-ranked candidate (no candidate is ranked strictly before it),
    with the remainder group of that candidate's own match, and no
    error. *)
Theorem C6_detectDispatcher_returns_best_with_its_remainder
        (S : sort.Sorter) (D : Type) (I : Dispatcher D)
        (requestPath : gostring) (dispatchers : list D) :
  (forall each compiled matches,
      In each dispatchers ->
      regexp.Compile (fst (fst (templateToRegularExpression (RootPath each))))
      = Some compiled ->
      regexp.FindStringSubmatch compiled requestPath = Some matches ->
      In (dispatcherCandidate.mk
            each (remainderOf matches) (Z.of_nat (length matches))
            (snd (fst (templateToRegularExpression (RootPath each))))
            (snd (templateToRegularExpression (RootPath each))))
         (dispatcherCandidates dispatchers requestPath))
  /\ (forall unsorted0 others,
         dispatcherCandidates dispatchers requestPath = unsorted0 :: others ->
         let candidates := dispatcherCandidates dispatchers requestPath in
         let best := nth 0 (sort.Sort (@sortableCandidates.less D) candidates)
                         unsorted0 in
         In best candidates
         /\ (forall c, In c candidates -> sortableCandidates.less c best = false)
         /\ detectDispatcher requestPath dispatchers
            = (Some (dispatcherCandidate.dispatcher best),
               dispatcherCandidate.finalMatch best, None)
         /\ In (dispatcherCandidate.dispatcher best) dispatchers
         /\ exists compiled matches,
             regexp.Compile
               (fst (fst (templateToRegularExpression
                            (RootPath (dispatcherCandidate.dispatcher best)))))
             = Some compiled
             /\ regexp.FindStringSubmatch compiled requestPath = Some matches
             /\ dispatcherCandidate.finalMatch best = remainderOf matches).
Proof.
  split.
  - intros each compiled matches Hin Hc Hm.
    rewrite dispatcherCandidates_flat_map. apply in_flat_map.
    exists each. split; [exact Hin|].
    apply dispatcherCandidateOf_spec. now exists compiled, matches.
  - intros unsorted0 others Hcands candidates best.
    assert (detectDispatcher requestPath dispatchers
            = (Some (dispatcherCandidate.dispatcher best),
               dispatcherCandidate.finalMatch best, None)) as Hsel.
    { rewrite detectDispatcher_spec. subst best candidates.
      rewrite Hcands. reflexivity. }
    pose proof (@Sort_head_best S _ (@sortableCandidates.less D) unsorted0
                                unsorted0 others (dispatcher_less_order D))
      as Hbest.
    cbv zeta in Hbest. fold candidates in Hcands.
    rewrite <- Hcands in Hbest. fold best in Hbest.
    destruct Hbest as [Hin Hmin].
    split; [exact Hin|]. split; [exact Hmin|]. split; [exact Hsel|].
    clear Hsel Hmin.
    unfold candidates in Hin. rewrite dispatcherCandidates_flat_map in Hin.
    apply in_flat_map in Hin. destruct Hin as (each & Hin & Hc).
    apply dispatcherCandidateOf_spec in Hc.
    destruct Hc as (compiled & matches & Hc & Hm & ->). cbn.
    split; [exact Hin|]. now exists compiled, matches.
Qed.

(** C6 at the dispatchers with the root paths [/users] and [/]: the path
    [/users/42] goes to [/users], which has the greater literal count,
    with the remainder [/42], a remainder that [selectRoutes] would
    refuse; the empty path is matched like any other, by [/] only. *)
Lemma C6_witness :
  detectDispatcher (str "/users/42") [serving "/" []; serving "/users" []]
  = (Some (serving "/users" []), str "/42", None)
  /\ In (dispatcherCandidate.mk (serving "/users" []) (str "/42") 2 5 0)
        (dispatcherCandidates [serving "/" []; serving "/users" []] (str "/users/42"))
  /\ detectDispatcher (str "") [serving "/users" []; serving "/" []]
     = (Some (serving "/" []), str "", None)
  /\ detectDispatcher (str "") [serving "/users" []]
     = (None, str "", Some (errors.New (str "not found"))).
Proof.
  split; [vm_compute; reflexivity|]. split.
  - destruct (regexp.Compile (fst (fst (templateToRegularExpression (str "/users")))))
      as [compiled|] eqn:Hc; [|vm_compute in Hc; discriminate Hc].
    destruct (regexp.FindStringSubmatch compiled (str "/users/42"))
      as [matches|] eqn:Hm.
    + pose proof (proj1 (@C6_detectDispatcher_returns_best_with_its_remainder
                           insertionSorter WebService WebService_Dispatcher
                           (str "/users/42")
                           [serving "/" []; serving "/users" []])
                        (serving "/users" []) compiled matches
                        (or_intror (or_introl eq_refl)) Hc Hm) as H.
      vm_compute in Hc. injection Hc as <-.
      vm_compute in Hm. injection Hm as <-.
      exact H.
    + vm_compute in Hc. injection Hc as <-. vm_compute in Hm. discriminate Hm.
  - split; vm_compute; reflexivity.
Defined.

(** Two candidates of which one is ranked before the other are sorted in
    that order, whatever the algorithm of [sort.Sort]. *)
Lemma Sort_pair (S : sort.Sorter) (A : Type) (less : A -> A -> bool) (a b : A) :
  sort.StrictWeakOrder less ->
  less a b = true ->
  sort.Sort less [a; b] = [a; b] /\ sort.Sort less [b; a] = [a; b].
Proof.
  intros order Hab.
  assert (forall l, Permutation [a; b] l -> sort.sortedBy less l -> l = [a; b])
    as Hsorted.
  { intros l Hperm Hs. apply Permutation_length_2_inv in Hperm.
    destruct Hperm as [->| ->]; [reflexivity|].
    inversion Hs as [|? ? _ Hall]; subst. inversion Hall; subst. congruence. }
  split; apply Hsorted.
  - apply sort.Sort_Permutation.
  - now apply sort.Sort_sortedBy.
  - rewrite (perm_swap b a []). apply sort.Sort_Permutation.
  - now apply sort.Sort_sortedBy.
Qed.

(** C1, as the spec states it: with the routes [/a/{var}] and [/a/b] and
    the remainder [/a/b], the claim has [selectRoutes] prefer the literal
    route; it returns the variable route alone, in either order of the
    routes, because the match of [/a/{var}] has three strings and that of
    [/a/b] two, and the number of strings is the first key. *)
Lemma C1_counterexample :
  selectRoutes (serving "/" ["/a/{var}"; "/a/b"]%string) (str "/a/b")
  = ([routeAt "/a/{var}"], None)
  /\ selectRoutes (serving "/" ["/a/b"; "/a/{var}"]%string) (str "/a/b")
     = ([routeAt "/a/{var}"], None)
  /\ map routeKeys (routeCandidates [routeAt "/a/{var}"; routeAt "/a/b"] (str "/a/b"))
     = [(3, 1, 1); (2, 2, 0)]%Z.
Proof. repeat split; vm_compute; reflexivity. Qed.

(** C1 (amended): for a dispatcher with exactly the two routes with the
    templates [/a/{var}] and [/a/b], in either order, [selectRoutes] called
    with the remainder [/a/b] returns the variable route [/a/{var}] alone,
    with no error and whatever the algorithm of [sort.Sort]: both routes
    are candidates, the literal route has the higher literalCount (2
    against 1), but the variable route has the higher matchesCount (3
    against 2), and matchesCount is the first key. *)
Theorem C1_variable_route_preferred (S : sort.Sorter) :
  selectRoutes (serving "/" ["/a/{var}"; "/a/b"]%string) (str "/a/b")
  = ([routeAt "/a/{var}"], None)
  /\ selectRoutes (serving "/" ["/a/b"; "/a/{var}"]%string) (str "/a/b")
     = ([routeAt "/a/{var}"], None)
  /\ routeCandidates [routeAt "/a/{var}"; routeAt "/a/b"] (str "/a/b")
     = [routeCandidate.mk (routeAt "/a/{var}") (str "/a/([^/]+?)(/.*)?") 3 1 1;
        routeCandidate.mk (routeAt "/a/b") (str "/a/b(/.*)?") 2 2 0]
  /\ sortableRouteCandidates.less
       (routeCandidate.mk (routeAt "/a/{var}") (str "/a/([^/]+?)(/.*)?") 3 1 1)
       (routeCandidate.mk (routeAt "/a/b") (str "/a/b(/.*)?") 2 2 0)
     = true.
Proof.
  assert (routeCandidates [routeAt "/a/{var}"; routeAt "/a/b"] (str "/a/b")
          = [routeCandidate.mk (routeAt "/a/{var}") (str "/a/([^/]+?)(/.*)?") 3 1 1;
             routeCandidate.mk (routeAt "/a/b") (str "/a/b(/.*)?") 2 2 0]) as E1
      by (vm_compute; reflexivity).
  assert (routeCandidates [routeAt "/a/b"; routeAt "/a/{var}"] (str "/a/b")
          = [routeCandidate.mk (routeAt "/a/b") (str "/a/b(/.*)?") 2 2 0;
             routeCandidate.mk (routeAt "/a/{var}") (str "/a/([^/]+?)(/.*)?") 3 1 1])
    as E2 by (vm_compute; reflexivity).
  assert (sortableRouteCandidates.less
            (routeCandidate.mk (routeAt "/a/{var}") (str "/a/([^/]+?)(/.*)?") 3 1 1)
            (routeCandidate.mk (routeAt "/a/b") (str "/a/b(/.*)?") 2 2 0)
          = true) as Hless by reflexivity.
  destruct (@Sort_pair S _ _ _ _ route_less_order Hless) as [S1 S2].
  split; [|split; [|split; [exact E1 | exact Hless]]].
  - rewrite (@selectRoutes_beyondRoot S WebService _ _ (str "/a/b") eq_refl).
    change (Routes (serving "/" ["/a/{var}"; "/a/b"]%string))
      with [routeAt "/a/{var}"; routeAt "/a/b"].
    rewrite E1. cbv zeta. rewrite S1. vm_compute. reflexivity.
  - rewrite (@selectRoutes_beyondRoot S WebService _ _ (str "/a/b") eq_refl).
    change (Routes (serving "/" ["/a/b"; "/a/{var}"]%string))
      with [routeAt "/a/b"; routeAt "/a/{var}"].
    rewrite E2. cbv zeta. rewrite S2. vm_compute. reflexivity.
Qed.

(** C2, as the spec states it: the claim has the comparator order, of two
    candidates equal on the first two keys, the one with the smaller
    varCount first; [Less] orders the one with the greater varCount
    first. *)
Lemma C2_counterexample :
  let fewer := routeCandidate.mk (routeAt "/a/{x}") (str "") 3 1 1 in
  let more := routeCandidate.mk (routeAt "/{x}/{y}") (str "") 3 1 2 in
  routeCandidate.matchesCount fewer = routeCandidate.matchesCount more
  /\ routeCandidate.literalCount fewer = routeCandidate.literalCount more
  /\ (routeCandidate.nonDefaultCount fewer < routeCandidate.nonDefaultCount more)%Z
  /\ sortableRouteCandidates.less fewer more = false
  /\ sortableRouteCandidates.less more fewer = true
  /\ sortableRouteCandidates.Less (sortableRouteCandidates.mk [fewer; more]) 1 0
     = Some true
  /\ sort.Sort sortableRouteCandidates.less [fewer; more] = [more; fewer].
Proof. repeat split. Qed.

(** C2 (amended): each comparator is a strict weak order on candidates,
    and a strict total order on their key triples, that sorts descending
    on matchesCount, then descending on literalCount, then descending on
    the third key, which holds varCount (more variable segments ranked
    better); the best candidate is sorted first; for every pair of
    candidates equal on the first two keys, the one with the greater
    varCount is ordered before the other. *)
Theorem C2_comparator_descending_on_three_keys :
  sort.StrictWeakOrder sortableRouteCandidates.less
  /\ (forall D : Type, sort.StrictWeakOrder (@sortableCandidates.less D))
  /\ (forall cj ci : routeCandidate.t,
         sortableRouteCandidates.less cj ci = true
         <-> keysBefore (routeKeys cj) (routeKeys ci))
  /\ (forall (D : Type) (cj ci : dispatcherCandidate.t D),
         sortableCandidates.less cj ci = true
         <-> keysBefore (dispatcherKeys cj) (dispatcherKeys ci))
  /\ (forall a b : Z * Z * Z,
         (keysBefore a b /\ ~ keysBefore b a /\ a <> b)
         \/ (keysBefore b a /\ ~ keysBefore a b /\ a <> b)
         \/ (a = b /\ ~ keysBefore a b /\ ~ keysBefore b a))
  /\ (forall (self : sortableRouteCandidates.t) (j i : nat) (cj ci : routeCandidate.t),
         nth_error (sortableRouteCandidates.candidates self) j = Some cj ->
         nth_error (sortableRouteCandidates.candidates self) i = Some ci ->
         sortableRouteCandidates.Less self j i
         = Some (sortableRouteCandidates.less cj ci))
  /\ (forall (D : Type) (self : sortableCandidates.t D) (j i : nat)
             (cj ci : dispatcherCandidate.t D),
         nth_error (sortableCandidates.candidates self) j = Some cj ->
         nth_error (sortableCandidates.candidates self) i = Some ci ->
         sortableCandidates.Less self j i = Some (sortableCandidates.less cj ci))
  /\ (forall (S : sort.Sorter) (c : routeCandidate.t) (l : list routeCandidate.t),
         let best := nth 0 (sort.Sort sortableRouteCandidates.less (c :: l)) c in
         In best (c :: l)
         /\ forall other, In other (c :: l) ->
                          ~ keysBefore (routeKeys other) (routeKeys best))
  /\ (forall a b : routeCandidate.t,
         routeCandidate.matchesCount a = routeCandidate.matchesCount b ->
         routeCandidate.literalCount a = routeCandidate.literalCount b ->
         (routeCandidate.nonDefaultCount a > routeCandidate.nonDefaultCount b)%Z ->
         sortableRouteCandidates.less a b = true
         /\ sortableRouteCandidates.less b a = false)
  /\ (forall (D : Type) (a b : dispatcherCandidate.t D),
         dispatcherCandidate.matchesCount a = dispatcherCandidate.matchesCount b ->
         dispatcherCandidate.literalCount a = dispatcherCandidate.literalCount b ->
         (dispatcherCandidate.nonDefaultCount a
          > dispatcherCandidate.nonDefaultCount b)%Z ->
         sortableCandidates.less a b = true
         /\ sortableCandidates.less b a = false).
Proof.
  split; [exact route_less_order|].
  split; [exact dispatcher_less_order|].
  split; [exact route_less_keys|].
  split; [exact dispatcher_less_keys|].
  split.
  { intros a b. pose proof (keysBefore_irrefl a) as Hirr.
    destruct (keysBefore_total a b) as [H|[H|H]].
    - left. repeat split; [exact H | | congruence].
      intros H'. exact (Hirr (keysBefore_trans _ _ _ H H')).
    - right; left. repeat split; [exact H | | congruence].
      intros H'. exact (Hirr (keysBefore_trans _ _ _ H' H)).
    - right; right. subst b. auto. }
  split; [exact route_Less_less|].
  split; [exact dispatcher_Less_less|].
  split.
  { intros S c l best. subst best.
    destruct (@Sort_head_best S _ sortableRouteCandidates.less c c l
                              route_less_order) as [Hin Hmin].
    split; [exact Hin|]. intros other Hother Hbefore.
    apply route_less_keys in Hbefore.
    rewrite (Hmin other Hother) in Hbefore. discriminate. }
  split.
  - intros a b Hm Hl Hv. unfold sortableRouteCandidates.less.
    split; by_keys.
  - intros D a b Hm Hl Hv. unfold sortableCandidates.less.
    split; by_keys.
Qed.

(** C2 at two candidates equal on the first two keys: the one with two
    variable segments is ordered before the one with one. *)
Lemma C2_witness :
  sortableRouteCandidates.less
    (routeCandidate.mk (routeAt "/{x}/{y}") (str "") 3 1 2)
    (routeCandidate.mk (routeAt "/a/{x}") (str "") 3 1 1) = true
  /\ sortableRouteCandidates.less
       (routeCandidate.mk (routeAt "/a/{x}") (str "") 3 1 1)
       (routeCandidate.mk (routeAt "/{x}/{y}") (str "") 3 1 2) = false.
Proof.
  apply (proj1 (proj2 (proj2 (proj2 (proj2 (proj2 (proj2 (proj2 (proj2
           C2_comparator_descending_on_three_keys))))))))); reflexivity.
Defined.




Lemma totalLength_segments (template : gostring) :
  totalLength (segments template)
  = Z.of_nat (length (filter (fun c => negb (Ascii.eqb c "/")) template)).
Proof.
  rewrite <- Split_lengths. unfold segments.
  induction (strings.Split template "/") as [|piece pieces IH];
    [reflexivity|].
  cbn [filter fold_right]. rewrite Nat2Z.inj_add, <- IH.
  destruct piece; reflexivity.
Qed.

Lemma literalLength_no_variable (segs : list gostring) :
  (forall each, In each segs -> isVariable each = false) ->
  literalLength segs = totalLength segs /\ variableCount segs = 0%Z.
Proof.
  unfold variableCount.
  induction segs as [|each segs IH]; intros Hall; [split; reflexivity|].
  destruct IH as [IHl IHv]; [intros e He; apply Hall; now right|].
  cbn [literalLength totalLength fold_right filter].
  rewrite (Hall each (or_introl eq_refl)). fold (totalLength segs).
  now rewrite IHl.
Qed.

(** C9: for every template with no variable segment (no piece between
    slashes that starts with a brace), [templateToRegularExpression]
    returns varCount 0 and a literalCount that is the sum of the lengths
    of the non-empty segments, which is the number of bytes of the
    template that are not slashes. *)
Theorem C9_literal_template_counts (template : gostring) :
  (forall each, In each (strings.Split template "/") ->
                strings.HasPrefix each (str "{") = false) ->
  snd (templateToRegularExpression template) = 0%Z
  /\ snd (fst (templateToRegularExpression template))
     = totalLength (segments template)
  /\ snd (fst (templateToRegularExpression template))
     = Z.of_nat (length (filter (fun c => negb (Ascii.eqb c "/")) template)).
Proof.
  intros Hall. rewrite templateToRegularExpression_segments. cbn [fst snd].
  destruct (@literalLength_no_variable (segments template)) as [Hl Hv].
  { intros each Hin. apply segments_spec in Hin. apply Hall, Hin. }
  rewrite Hl, Hv, totalLength_segments. repeat split.
Qed.

(** C9 at the template [//ab/c.d/]: no variable, five literal bytes. *)
Lemma C9_witness :
  snd (templateToRegularExpression (str "//ab/c.d/")) = 0%Z
  /\ snd (fst (templateToRegularExpression (str "//ab/c.d/")))
     = totalLength [str "ab"; str "c.d"]
  /\ snd (fst (templateToRegularExpression (str "//ab/c.d/"))) = 5%Z.
Proof.
  apply (C9_literal_template_counts (str "//ab/c.d/")).
  intros each Hin. vm_compute in Hin.
  repeat (destruct Hin as [<-|Hin]; [reflexivity|]). destruct Hin.
Defined.

Lemma captureCount_concat (items : list syntax.Regexp) :
  captureCount (syntax.concat items)
  = fold_right (fun re n => captureCount re + n) 0 items.
Proof.
  induction items as [|x [|y items] IH].
  - reflexivity.
  - cbn. lia.
  - change (syntax.concat (x :: y :: items))
      with (syntax.OpConcat x (syntax.concat (y :: items))).
    cbn [captureCount]. rewrite IH. reflexivity.
Qed.

Lemma templateItems_captureCount (segs : list gostring) :
  forall (numCap : nat) (items : list syntax.Regexp),
    templateItems segs numCap = Some items ->
    fold_right (fun re n => captureCount re + n) 0 items
    = S (length (filter isVariable segs)).
Proof.
  induction segs as [|each segs IH]; intros numCap items.
  - cbn. intros E; inversion E; subst. reflexivity.
  - cbn [templateItems filter]. destruct (isVariable each).
    + destruct (templateItems segs (S numCap)) as [items'|] eqn:E; [|discriminate].
      intros H; inversion H; subst. cbn [fold_right].
      rewrite (IH _ _ E). reflexivity.
    + destruct (validRunes each) as [rs|]; [|discriminate].
      destruct (templateItems segs numCap) as [items'|] eqn:E; [|discriminate].
      intros H; inversion H; subst. cbn [fold_right captureCount].
      rewrite fold_right_app, (IH _ _ E).
      clear. induction rs as [|r rs IHrs]; [reflexivity | exact IHrs].
Qed.

(** Every candidate of [detectDispatcher] comes from a dispatcher of the
    list, with the counters of its root template and the number of strings
    of its match. *)
Lemma dispatcherCandidate_of_template (D : Type) {I : Dispatcher D}
      (dispatchers : list D) (requestPath : gostring)
      (c : dispatcherCandidate.t D) :
  In c (dispatcherCandidates dispatchers requestPath) ->
  In (dispatcherCandidate.dispatcher c) dispatchers
  /\ dispatcherCandidate.literalCount c
     = snd (fst (templateToRegularExpression
                   (RootPath (dispatcherCandidate.dispatcher c))))
  /\ dispatcherCandidate.nonDefaultCount c
     = snd (templateToRegularExpression
              (RootPath (dispatcherCandidate.dispatcher c)))
  /\ exists compiled matches,
      regexp.Compile
        (fst (fst (templateToRegularExpression
                     (RootPath (dispatcherCandidate.dispatcher c)))))
      = Some compiled
      /\ regexp.FindStringSubmatch compiled requestPath = Some matches
      /\ dispatcherCandidate.matchesCount c = Z.of_nat (length matches).
Proof.
  rewrite dispatcherCandidates_flat_map, in_flat_map.
  intros (each & Hin & Hc). apply dispatcherCandidateOf_spec in Hc.
  destruct Hc as (compiled & matches & Hc & Hm & ->). cbn.
  repeat split; try assumption. now exists compiled, matches.
Qed.

Lemma routeCandidate_matchesCount (routes : list Route) (final : gostring)
      (c : routeCandidate.t) :
  In c (routeCandidates routes final) ->
  routeCandidate.matchesCount c = (routeCandidate.nonDefaultCount c + 2)%Z.
Proof.
  intros Hc.
  destruct (routeCandidate_of_template _ _ _ Hc)
    as (_ & He & _ & Hv & compiled & matches & Hcomp & Hm & Hcount).
  rewrite He in Hcomp.
  destruct (matches_of_template _ _ Hcomp Hm) as [_ Hlen]. congruence.
Qed.

Lemma dispatcherCandidate_matchesCount (D : Type) {I : Dispatcher D}
      (dispatchers : list D) (requestPath : gostring)
      (c : dispatcherCandidate.t D) :
  In c (dispatcherCandidates dispatchers requestPath) ->
  dispatcherCandidate.matchesCount c
  = (dispatcherCandidate.nonDefaultCount c + 2)%Z.
Proof.
  intros Hc.
  destruct (dispatcherCandidate_of_template _ _ _ Hc)
    as (_ & _ & Hv & compiled & matches & Hcomp & Hm & Hcount).
  destruct (matches_of_template _ _ Hcomp Hm) as [_ Hlen]. congruence.
Qed.

(** C10: for every template, the expression built by
    [templateToRegularExpression], when it compiles, has exactly
    varCount + 1 capture groups (one per variable segment and the trailing
    remainder group), so every successful match has varCount + 2 strings
    and every candidate of either selector has
    matchesCount = varCount + 2; hence two candidates with equal
    matchesCount have equal varCount, and the third key of the comparator
    never decides the order of two candidates: one is ranked before the
    other exactly when it is so by the first two keys. *)
Theorem C10_matchesCount_is_varCount_plus_two :
  (forall (template : gostring) (compiled : regexp.Regexp),
      regexp.Compile (fst (fst (templateToRegularExpression template)))
      = Some compiled ->
      Z.of_nat (regexp.numSubexp compiled)
      = (snd (templateToRegularExpression template) + 1)%Z
      /\ Z.of_nat (captureCount (regexp.tree compiled))
         = (snd (templateToRegularExpression template) + 1)%Z)
  /\ (forall (template : gostring) (compiled : regexp.Regexp)
             (path : gostring) (matches : list gostring),
         regexp.Compile (fst (fst (templateToRegularExpression template)))
         = Some compiled ->
         regexp.FindStringSubmatch compiled path = Some matches ->
         Z.of_nat (length matches)
         = (snd (templateToRegularExpression template) + 2)%Z)
  /\ (forall (routes : list Route) (final : gostring) (c : routeCandidate.t),
         In c (routeCandidates routes final) ->
         routeCandidate.matchesCount c = (routeCandidate.nonDefaultCount c + 2)%Z)
  /\ (forall (D : Type) (I : Dispatcher D) (dispatchers : list D)
             (requestPath : gostring) (c : dispatcherCandidate.t D),
         In c (dispatcherCandidates dispatchers requestPath) ->
         dispatcherCandidate.matchesCount c
         = (dispatcherCandidate.nonDefaultCount c + 2)%Z)
  /\ (forall (routes : list Route) (final : gostring) (c1 c2 : routeCandidate.t),
         In c1 (routeCandidates routes final) ->
         In c2 (routeCandidates routes final) ->
         (routeCandidate.matchesCount c1 = routeCandidate.matchesCount c2 ->
          routeCandidate.nonDefaultCount c1 = routeCandidate.nonDefaultCount c2)
         /\ (sortableRouteCandidates.less c1 c2 = true
             <-> (routeCandidate.matchesCount c1 > routeCandidate.matchesCount c2
                  \/ (routeCandidate.matchesCount c1 = routeCandidate.matchesCount c2
                      /\ routeCandidate.literalCount c1
                         > routeCandidate.literalCount c2))%Z))
  /\ (forall (D : Type) (I : Dispatcher D) (dispatchers : list D)
             (requestPath : gostring) (c1 c2 : dispatcherCandidate.t D),
         In c1 (dispatcherCandidates dispatchers requestPath) ->
         In c2 (dispatcherCandidates dispatchers requestPath) ->
         (dispatcherCandidate.matchesCount c1 = dispatcherCandidate.matchesCount c2 ->
          dispatcherCandidate.nonDefaultCount c1
          = dispatcherCandidate.nonDefaultCount c2)
         /\ (sortableCandidates.less c1 c2 = true
             <-> (dispatcherCandidate.matchesCount c1
                  > dispatcherCandidate.matchesCount c2
                  \/ (dispatcherCandidate.matchesCount c1
                      = dispatcherCandidate.matchesCount c2
                      /\ dispatcherCandidate.literalCount c1
                         > dispatcherCandidate.literalCount c2))%Z)).
Proof.
  split.
  { intros template compiled Hc.
    rewrite Compile_templateToRegularExpression in Hc.
    unfold templateTree in Hc.
    destruct (templateItems (segments template) 0) as [items|] eqn:E;
      [|discriminate].
    cbn [option_map] in Hc. inversion Hc; subst compiled. clear Hc.
    cbn [regexp.numSubexp regexp.tree].
    rewrite captureCount_concat, (templateItems_captureCount _ _ E).
    rewrite templateToRegularExpression_varCount. split; lia. }
  split.
  { intros template compiled path matches Hc Hm.
    exact (proj2 (matches_of_template _ _ Hc Hm)). }
  split; [exact routeCandidate_matchesCount|].
  split; [exact dispatcherCandidate_matchesCount|].
  split.
  - intros routes final c1 c2 H1 H2.
    pose proof (routeCandidate_matchesCount _ _ _ H1) as E1.
    pose proof (routeCandidate_matchesCount _ _ _ H2) as E2.
    split; [lia|]. rewrite route_less_keys. unfold keysBefore, routeKeys. lia.
  - intros D I dispatchers requestPath c1 c2 H1 H2.
    pose proof (dispatcherCandidate_matchesCount _ _ _ H1) as E1.
    pose proof (dispatcherCandidate_matchesCount _ _ _ H2) as E2.
    split; [lia|]. rewrite dispatcher_less_keys.
    unfold keysBefore, dispatcherKeys. lia.
Qed.

(** C10 at the template [/a/{var}]: one variable segment, two capture
    groups, three strings in its match of [/a/b]. *)
Lemma C10_witness :
  snd (templateToRegularExpression (str "/a/{var}")) = 1%Z
  /\ templateMatch (str "/a/{var}") (str "/a/b") = Some [str "/a/b"; str "b"; str ""]
  /\ option_map (fun compiled => Z.of_nat (regexp.numSubexp compiled))
                (regexp.Compile
                   (fst (fst (templateToRegularExpression (str "/a/{var}")))))
     = Some 2%Z.
Proof.
  split; [reflexivity|]. split; [vm_compute; reflexivity|].
  destruct (regexp.Compile
              (fst (fst (templateToRegularExpression (str "/a/{var}")))))
    as [compiled|] eqn:Hc; [|vm_compute in Hc; discriminate Hc].
  cbn [option_map]. f_equal.
  exact (proj1 (proj1 C10_matchesCount_is_varCount_plus_two
                      (str "/a/{var}") compiled Hc)).
Defined.

(** * Further properties of the code *)

(** ** Len, Swap and Less of the sortable slices *)

Section SliceUpdate.

Variable A : Type.

Lemma update_length (l : list A) (i : nat) (x : A) :
  i < length l -> length (firstn i l ++ x :: skipn (S i) l) = length l.
Proof.
  intros Hi. rewrite length_app, length_firstn. cbn [length].
  rewrite length_skipn. lia.
Qed.

Lemma update_nth_error (l : list A) (i : nat) (x : A) (k : nat) :
  i < length l ->
  nth_error (firstn i l ++ x :: skipn (S i) l) k
  = if k =? i then Some x else nth_error l k.
Proof.
  intros Hi. rewrite nth_error_app, length_firstn, Nat.min_l by lia.
  destruct (Nat.ltb_spec k i) as [Hk|Hk].
  - rewrite nth_error_firstn.
    destruct (Nat.ltb_spec k i); [|lia].
    destruct (Nat.eqb_spec k i); [lia | reflexivity].
  - destruct (Nat.eqb_spec k i) as [->|Hne].
    + now rewrite Nat.sub_diag.
    + destruct (k - i) as [|m] eqn:E; [lia|]. cbn [nth_error].
      rewrite nth_error_skipn. f_equal. lia.
Qed.

Lemma update_Permutation (l : list A) (i : nat) (a x : A) :
  nth_error l i = Some a ->
  Permutation (x :: l) (a :: firstn i l ++ x :: skipn (S i) l).
Proof.
  intros Ha. rewrite <- (firstn_skipn_middle i l Ha) at 1.
  rewrite <- !Permutation_middle. apply perm_swap.
Qed.

(** The slice that both [Swap] methods build. *)
Lemma swapped_spec (l : list A) (i j : nat) (ci cj : A) :
  nth_error l i = Some ci ->
  nth_error l j = Some cj ->
  let l1 := firstn i l ++ cj :: skipn (S i) l in
  let l' := firstn j l1 ++ ci :: skipn (S j) l1 in
  exchanged l l' i j /\ Permutation l l'.
Proof.
  intros Hi Hj l1 l'.
  assert (i < length l) as Hil by (apply nth_error_Some; congruence).
  assert (j < length l) as Hjl by (apply nth_error_Some; congruence).
  assert (length l1 = length l) as Hlen1 by (apply update_length; exact Hil).
  assert (forall k, nth_error l' k
                    = if k =? j then Some ci
                      else if k =? i then Some cj else nth_error l k) as Hnth.
  { intros k. subst l'. rewrite update_nth_error by lia.
    destruct (k =? j); [reflexivity|]. subst l1. now apply update_nth_error. }
  split.
  - unfold exchanged. split; [|split; [|split]].
    + subst l'. rewrite update_length by lia. exact Hlen1.
    + rewrite Hnth, Nat.eqb_refl.
      destruct (Nat.eqb_spec i j) as [->|_]; congruence.
    + rewrite Hnth, Nat.eqb_refl. congruence.
    + intros k Hki Hkj. rewrite Hnth.
      destruct (Nat.eqb_spec k j); [contradiction|].
      destruct (Nat.eqb_spec k i); [contradiction | reflexivity].
  - apply (Permutation_cons_inv (a := cj)).
    rewrite (update_Permutation l i cj Hi).
    assert (nth_error l1 j = Some cj) as Hj1.
    { subst l1. rewrite update_nth_error by exact Hil.
      destruct (j =? i); [reflexivity | exact Hj]. }
    exact (update_Permutation l1 j ci Hj1).
Qed.

(** Exchanging the same two elements again gives the slice back. *)
Lemma exchanged_twice (l l' l'' : list A) (i j : nat) :
  exchanged l l' i j -> exchanged l' l'' i j -> l'' = l.
Proof.
  intros (_ & Hi & Hj & Hk) (_ & Hi' & Hj' & Hk').
  apply nth_error_ext. intros k.
  destruct (Nat.eq_dec k i) as [->|Hki]; [congruence|].
  destruct (Nat.eq_dec k j) as [->|Hkj]; [congruence|].
  rewrite Hk', Hk by assumption. reflexivity.
Qed.

End SliceUpdate.

(** X1: [Len], [Swap] and [Less] of both sortable slices.  With both
    indices below [Len], [Swap(i, j)] does not panic: it exchanges the
    elements at [i] and [j], leaves every other element and [Len] as they
    are, so it permutes the slice, and a second [Swap(i, j)] gives the first
    slice back; [Less(j, i)] does not panic either.  With an index that is
    not below [Len], [Swap] and [Less] panic. *)
Theorem X1_Swap_exchanges_two_candidates :
  (forall (self : sortableRouteCandidates.t) (i j : nat),
      let candidates := sortableRouteCandidates.candidates self in
      (i < length candidates /\ j < length candidates ->
       exists self',
         sortableRouteCandidates.Swap self i j = Some self'
         /\ sortableRouteCandidates.Len self' = sortableRouteCandidates.Len self
         /\ exchanged candidates (sortableRouteCandidates.candidates self') i j
         /\ Permutation candidates (sortableRouteCandidates.candidates self')
         /\ sortableRouteCandidates.Swap self' i j = Some self
         /\ sortableRouteCandidates.Less self j i <> None)
      /\ (~ (i < length candidates /\ j < length candidates) ->
          sortableRouteCandidates.Swap self i j = None
          /\ sortableRouteCandidates.Less self j i = None))
  /\ (forall (D : Type) (self : sortableCandidates.t D) (i j : nat),
         let candidates := sortableCandidates.candidates self in
         (i < length candidates /\ j < length candidates ->
          exists self',
            sortableCandidates.Swap self i j = Some self'
            /\ sortableCandidates.Len self' = sortableCandidates.Len self
            /\ exchanged candidates (sortableCandidates.candidates self') i j
            /\ Permutation candidates (sortableCandidates.candidates self')
            /\ sortableCandidates.Swap self' i j = Some self
            /\ sortableCandidates.Less self j i <> None)
         /\ (~ (i < length candidates /\ j < length candidates) ->
             sortableCandidates.Swap self i j = None
             /\ sortableCandidates.Less self j i = None)).
Proof.
  split.
  - intros [l] i j candidates. subst candidates.
    cbn [sortableRouteCandidates.candidates]. split.
    + intros [Hi Hj].
      destruct (nth_error l i) as [ci|] eqn:Ei;
        [|apply nth_error_None in Ei; lia].
      destruct (nth_error l j) as [cj|] eqn:Ej;
        [|apply nth_error_None in Ej; lia].
      destruct (swapped_spec l i j Ei Ej) as [Hex Hperm]. cbv zeta in Hex, Hperm.
      unfold sortableRouteCandidates.Swap, sortableRouteCandidates.Less,
        sortableRouteCandidates.Len.
      cbn [sortableRouteCandidates.candidates]. rewrite Ei, Ej.
      eexists. split; [reflexivity|].
      cbn [sortableRouteCandidates.candidates].
      split; [now rewrite (proj1 Hex)|]. split; [exact Hex|].
      split; [exact Hperm|]. split; [|discriminate].
      destruct Hex as (Hlen & Exi & Exj & Exk). rewrite Exi, Exj, Ej, Ei.
      f_equal. f_equal.
      match goal with
      | |- ?l'' = l =>
        apply (@exchanged_twice _ l
                 (firstn j (firstn i l ++ cj :: skipn (S i) l)
                    ++ ci :: skipn (S j) (firstn i l ++ cj :: skipn (S i) l))
                 l'' i j)
      end.
      * repeat split; assumption.
      * apply swapped_spec; congruence.
    + intros Hout.
      unfold sortableRouteCandidates.Swap, sortableRouteCandidates.Less.
      cbn [sortableRouteCandidates.candidates].
      destruct (nth_error l i) as [ci|] eqn:Ei; [|split; reflexivity].
      destruct (nth_error l j) as [cj|] eqn:Ej; [|split; reflexivity].
      exfalso. apply Hout. split; apply nth_error_Some; congruence.
  - intros D [l] i j candidates. subst candidates.
    cbn [sortableCandidates.candidates]. split.
    + intros [Hi Hj].
      destruct (nth_error l i) as [ci|] eqn:Ei;
        [|apply nth_error_None in Ei; lia].
      destruct (nth_error l j) as [cj|] eqn:Ej;
        [|apply nth_error_None in Ej; lia].
      destruct (swapped_spec l i j Ei Ej) as [Hex Hperm]. cbv zeta in Hex, Hperm.
      unfold sortableCandidates.Swap, sortableCandidates.Less,
        sortableCandidates.Len.
      cbn [sortableCandidates.candidates]. rewrite Ei, Ej.
      eexists. split; [reflexivity|].
      cbn [sortableCandidates.candidates].
      split; [now rewrite (proj1 Hex)|]. split; [exact Hex|].
      split; [exact Hperm|]. split; [|discriminate].
      destruct Hex as (Hlen & Exi & Exj & Exk). rewrite Exi, Exj, Ej, Ei.
      f_equal. f_equal.
      match goal with
      | |- ?l'' = l =>
        apply (@exchanged_twice _ l
                 (firstn j (firstn i l ++ cj :: skipn (S i) l)
                    ++ ci :: skipn (S j) (firstn i l ++ cj :: skipn (S i) l))
                 l'' i j)
      end.
      * repeat split; assumption.
      * apply swapped_spec; congruence.
    + intros Hout.
      unfold sortableCandidates.Swap, sortableCandidates.Less.
      cbn [sortableCandidates.candidates].
      destruct (nth_error l i) as [ci|] eqn:Ei; [|split; reflexivity].
      destruct (nth_error l j) as [cj|] eqn:Ej; [|split; reflexivity].
      exfalso. apply Hout. split; apply nth_error_Some; congruence.
Qed.

(** X1 at a slice of three candidates: [Swap(0, 2)] exchanges the first
    and the last, [Swap(0, 3)] panics. *)
Lemma X1_witness :
  let a := routeCandidate.mk (routeAt "/a") (str "/a(/.*)?") 2 1 0 in
  let b := routeCandidate.mk (routeAt "/b") (str "/b(/.*)?") 2 1 0 in
  let c := routeCandidate.mk (routeAt "/{c}") (str "/([^/]+?)(/.*)?") 3 0 1 in
  sortableRouteCandidates.Swap (sortableRouteCandidates.mk [a; b; c]) 0 2
  = Some (sortableRouteCandidates.mk [c; b; a])
  /\ sortableRouteCandidates.Swap (sortableRouteCandidates.mk [a; b; c]) 0 3 = None
  /\ sortableRouteCandidates.Less (sortableRouteCandidates.mk [a; b; c]) 0 3 = None.
Proof.
  cbv zeta. split; [reflexivity|].
  apply (proj2 (proj1 X1_Swap_exchanges_two_candidates
                      (sortableRouteCandidates.mk
                         [routeCandidate.mk (routeAt "/a") (str "/a(/.*)?") 2 1 0;
                          routeCandidate.mk (routeAt "/b") (str "/b(/.*)?") 2 1 0;
                          routeCandidate.mk (routeAt "/{c}") (str "/([^/]+?)(/.*)?") 3 0 1])
                      3 0)).
  cbn. lia.
Defined.

(** ** Slashes and counters of a template *)

Lemma Split_nonempty (s : gostring) (sep : ascii) : strings.Split s sep <> [].
Proof.
  destruct s as [|c s]; cbn; [discriminate|].
  destruct (Ascii.eqb c sep); [discriminate|].
  destruct (strings.Split s sep); discriminate.
Qed.

(** The pieces of a string around one of its separators. *)
Lemma Split_app (a b : gostring) (sep : ascii) :
  strings.Split (a ++ sep :: b) sep = strings.Split a sep ++ strings.Split b sep.
Proof.
  induction a as [|c a IH]; cbn [app strings.Split].
  - now rewrite Ascii.eqb_refl.
  - destruct (Ascii.eqb c sep); [now rewrite IH|].
    rewrite IH. pose proof (Split_nonempty a sep) as Hne.
    destruct (strings.Split a sep); [contradiction | reflexivity].
Qed.

Lemma segments_app (a b : gostring) :
  segments (a ++ "/"%char :: b) = segments a ++ segments b.
Proof. unfold segments. now rewrite Split_app, filter_app. Qed.

(** X2: [templateToRegularExpression] sees a template only through its
    non-empty segments: two templates with the same non-empty segments
    give the same expression and the same counters; so a slash in front, a
    slash at the end and a doubled slash anywhere change nothing. *)
Theorem X2_template_slashes_collapse :
  (forall template template' : gostring,
      segments template = segments template' ->
      templateToRegularExpression template = templateToRegularExpression template')
  /\ (forall template : gostring,
         templateToRegularExpression ("/"%char :: template)
         = templateToRegularExpression template)
  /\ (forall template : gostring,
         templateToRegularExpression (template ++ str "/")
         = templateToRegularExpression template)
  /\ (forall a b : gostring,
         templateToRegularExpression (a ++ str "//" ++ b)
         = templateToRegularExpression (a ++ str "/" ++ b)).
Proof.
  assert (forall template template' : gostring,
             segments template = segments template' ->
             templateToRegularExpression template
             = templateToRegularExpression template') as Hsame.
  { intros t t' E. now rewrite !templateToRegularExpression_segments, E. }
  split; [exact Hsame|]. split; [|split].
  - intros t. apply Hsame. exact (segments_app [] t).
  - intros t. apply Hsame. cbn [str list_ascii_of_string].
    rewrite segments_app. apply app_nil_r.
  - intros a b. apply Hsame. cbn [str list_ascii_of_string app].
    rewrite !segments_app. exact (f_equal (app (segments a)) (segments_app [] b)).
Qed.

Lemma segment_counts_bound (segs : list gostring) :
  (forall each, In each segs -> each <> []) ->
  (0 <= literalLength segs /\ 0 <= variableCount segs
   /\ literalLength segs + variableCount segs <= totalLength segs)%Z.
Proof.
  induction segs as [|each segs IH]; intros Hall.
  - cbn. lia.
  - destruct IH as (Hl & Hv & Hsum); [intros e He; apply Hall; now right|].
    rewrite variableCount_cons. cbn [literalLength totalLength fold_right].
    fold (totalLength segs).
    assert (each <> []) as Hne by (apply Hall; now left).
    assert (1 <= Z.of_nat (length each))%Z
      by (destruct each; [congruence | cbn [length]; lia]).
    destruct (isVariable each); lia.
Qed.

(** X3: the counters of a template are not negative and together at most
    the length of the template: varCount is the number of its non-empty
    segments that start with a brace, literalCount the summed length of
    the others, and every segment has at least one byte; so the additions
    of the loop stay within [int]. *)
Theorem X3_template_counters_bounded (template : gostring) :
  let '(_, literalCount, varCount) := templateToRegularExpression template in
  (0 <= literalCount
   /\ 0 <= varCount
   /\ varCount = Z.of_nat (length (filter (fun each => strings.HasPrefix each (str "{"))
                                          (segments template)))
   /\ literalCount + varCount
      <= Z.of_nat (length (filter (fun c => negb (Ascii.eqb c "/")) template))
   /\ literalCount + varCount <= Z.of_nat (length template))%Z.
Proof.
  rewrite templateToRegularExpression_segments.
  destruct (@segment_counts_bound (segments template)) as (Hl & Hv & Hsum).
  { intros each Hin. apply segments_spec in Hin. apply Hin. }
  rewrite totalLength_segments in Hsum.
  pose proof (filter_length_le (fun c => negb (Ascii.eqb c "/")) template).
  repeat split; try assumption; lia.
Qed.

(** ** What the selectors log *)

Lemma literalsValid_Compile (template : gostring) :
  literalsValid template = true
  <-> regexp.Compile (fst (fst (templateToRegularExpression template))) <> None.
Proof.
  rewrite Compile_template_valid. unfold literalsValid.
  rewrite forallb_forall. split.
  - intros H each Hin Hvar. specialize (H each Hin).
    rewrite Hvar in H. unfold validUTF8 in H.
    destruct (validRunes each); [discriminate | discriminate H].
  - intros H each Hin. destruct (isVariable each) eqn:Hvar; [reflexivity|].
    specialize (H each Hin Hvar). unfold validUTF8.
    destruct (validRunes each); [reflexivity | congruence].
Qed.

Lemma loggedFor_literalsValid (name template : gostring) :
  loggedFor name template = if literalsValid template then [] else [name].
Proof.
  unfold loggedFor. pose proof (literalsValid_Compile template) as H.
  destruct (regexp.Compile (fst (fst (templateToRegularExpression template)))).
  - destruct (literalsValid template); [reflexivity|].
    assert (false = true) by (apply H; discriminate). discriminate.
  - destruct (literalsValid template); [|reflexivity].
    exfalso. now apply (proj1 H).
Qed.

Lemma flat_map_filter_singleton (A B : Type) (keep : A -> bool) (f : A -> B)
      (l : list A) :
  flat_map (fun x => if keep x then [] else [f x]) l
  = map f (filter (fun x => negb (keep x)) l).
Proof.
  induction l as [|x l IH]; [reflexivity|]. cbn [flat_map filter].
  destruct (keep x); cbn; now rewrite IH.
Qed.

Lemma Split_Forall (P : ascii -> Prop) (s : gostring) (sep : ascii)
      (piece : gostring) :
  Forall P s -> In piece (strings.Split s sep) -> Forall P piece.
Proof.
  intros Hs. revert piece. induction Hs as [|c s Hc Hs IH]; intros piece.
  - intros [<-|[]]. constructor.
  - cbn [strings.Split]. destruct (Ascii.eqb c sep).
    + intros [<-|Hin]; [constructor | now apply IH].
    + destruct (strings.Split s sep) as [|p ps] eqn:E.
      * intros [<-|[]]. repeat constructor. exact Hc.
      * intros [<-|Hin].
        -- constructor; [exact Hc|]. apply IH. now left.
        -- apply IH. now right.
Qed.

(** X4: past the short cut, [selectRoutes] logs one line for each route,
    in the order of the routes, whose template has a literal segment that
    is not valid UTF-8, and for no other route, whatever the path; so does
    [detectDispatcher] for the root paths of the dispatchers.  (Those are
    the templates whose expression does not compile: the quoting of the
    literal segments leaves no other cause.)  A template of ASCII bytes is
    never logged. *)
Theorem X4_logs_the_templates_that_are_not_UTF8
        (D : Type) (I : Dispatcher D) (dispatcher : D)
        (final requestPath : gostring) (dispatchers : list D) :
  beyondRoot final ->
  selectRoutes_log dispatcher final
  = map Path (filter (fun each => negb (literalsValid (relativePath each)))
                     (Routes dispatcher))
  /\ detectDispatcher_log requestPath dispatchers
     = map RootPath (filter (fun each => negb (literalsValid (RootPath each)))
                            dispatchers)
  /\ (forall template : gostring,
         literalsValid template = true
         <-> regexp.Compile (fst (fst (templateToRegularExpression template)))
             <> None)
  /\ (forall template : gostring,
         allASCII template -> literalsValid template = true).
Proof.
  intros Hfinal. split; [|split; [|split]].
  - unfold selectRoutes_log. unfold beyondRoot in Hfinal. rewrite Hfinal.
    rewrite routeLoop_log. rewrite <- flat_map_filter_singleton.
    apply flat_map_ext. intros each. apply loggedFor_literalsValid.
  - unfold detectDispatcher_log, dispatcherLoop. rewrite dispatcherLoop_from.
    cbn [snd app]. rewrite <- flat_map_filter_singleton.
    apply flat_map_ext. intros each. apply loggedFor_literalsValid.
  - exact literalsValid_Compile.
  - intros template Hascii. unfold literalsValid. apply forallb_forall.
    intros each Hin. apply segments_spec in Hin. destruct Hin as [Hin _].
    assert (allASCII each) as Heach by (eapply Split_Forall; eassumption).
    unfold validUTF8. rewrite (validRunes_ascii Heach). apply orb_true_r.
Qed.

(** X4 at a dispatcher with a route whose template is not valid UTF-8
    between two routes that are: one line, for that route. *)
Lemma X4_witness :
  beyondRoot (str "/a")
  /\ selectRoutes_log
       (mkWebService (str "/") [routeAt "/a"; brokenRoute; routeAt "/{b}"])
       (str "/a")
     = [str "/broken"]
  /\ literalsValid (relativePath brokenRoute) = false.
Proof.
  split; [reflexivity|]. split; [|reflexivity].
  rewrite (proj1 (@X4_logs_the_templates_that_are_not_UTF8
                    WebService WebService_Dispatcher
                    (mkWebService (str "/") [routeAt "/a"; brokenRoute; routeAt "/{b}"])
                    (str "/a") (str "/a") [] eq_refl)).
  reflexivity.
Defined.

(** ** What [selectRoutes] returns *)

Lemma slashHead_chunks (segs : list gostring) : slashHead (flat_map chunk segs).
Proof. destruct segs; cbn; trivial. Qed.

(** Quoting loses nothing: a quoted segment is read back in one way. *)
Lemma QuoteMeta_injective (s1 : gostring) :
  forall s2 rest1 rest2 : gostring,
    ~ In "/"%char s1 -> ~ In "/"%char s2 ->
    slashHead rest1 -> slashHead rest2 ->
    regexp.QuoteMeta s1 ++ rest1 = regexp.QuoteMeta s2 ++ rest2 ->
    s1 = s2 /\ rest1 = rest2.
Proof.
  assert (syntax.special "\" = true) as Hbs by reflexivity.
  assert (forall (c : ascii) (s rest rest' : gostring),
             ~ In "/"%char (c :: s) -> slashHead rest ->
             rest <> regexp.QuoteMeta (c :: s) ++ rest') as Hstart.
  { intros c s rest rest' Hno Hrest E. subst rest.
    assert (c <> "/"%char) as Hc by (intros ->; apply Hno; now left).
    cbn [regexp.QuoteMeta] in Hrest.
    destruct (syntax.special c); cbn in Hrest; [discriminate | congruence]. }
  induction s1 as [|c s1 IH]; intros s2 rest1 rest2 H1 H2 R1 R2 E.
  - destruct s2 as [|d s2]; [now split|].
    exfalso. exact (Hstart d s2 rest1 rest2 H2 R1 E).
  - destruct s2 as [|d s2].
    { exfalso. exact (Hstart c s1 rest2 rest1 H1 R2 (eq_sym E)). }
    assert (~ In "/"%char s1) as H1' by (intros H; apply H1; now right).
    assert (~ In "/"%char s2) as H2' by (intros H; apply H2; now right).
    cbn [regexp.QuoteMeta] in E.
    destruct (syntax.special c) eqn:Sc, (syntax.special d) eqn:Sd;
      cbn [app] in E; inversion E; subst.
    + destruct (IH s2 rest1 rest2 H1' H2' R1 R2 ltac:(assumption)) as [-> ->].
      now split.
    + congruence.
    + congruence.
    + destruct (IH s2 rest1 rest2 H1' H2' R1 R2 ltac:(assumption)) as [-> ->].
      now split.
Qed.

(** An expression tells the counters of the template it was built from. *)
Lemma chunks_counters (segs1 : list gostring) :
  forall segs2 : list gostring,
    (forall each, In each segs1 -> each <> [] /\ ~ In "/"%char each) ->
    (forall each, In each segs2 -> each <> [] /\ ~ In "/"%char each) ->
    flat_map chunk segs1 = flat_map chunk segs2 ->
    literalLength segs1 = literalLength segs2
    /\ variableCount segs1 = variableCount segs2.
Proof.
  induction segs1 as [|e1 segs1 IH]; intros segs2 H1 H2 E.
  - destruct segs2 as [|e2 segs2]; [now split|].
    cbn [flat_map] in E. destruct (chunk e2) eqn:C; [|discriminate].
    now apply chunk_nonempty in C.
  - destruct segs2 as [|e2 segs2].
    { cbn [flat_map] in E. destruct (chunk e1) eqn:C; [|discriminate].
      now apply chunk_nonempty in C. }
    destruct (H1 e1 (or_introl eq_refl)) as [N1 S1].
    destruct (H2 e2 (or_introl eq_refl)) as [N2 S2].
    assert (forall each, In each segs1 -> each <> [] /\ ~ In "/"%char each)
      as H1' by (intros e He; apply H1; now right).
    assert (forall each, In each segs2 -> each <> [] /\ ~ In "/"%char each)
      as H2' by (intros e He; apply H2; now right).
    rewrite !variableCount_cons. cbn [flat_map literalLength] in *.
    unfold chunk at 1 3 in E. cbn [str list_ascii_of_string app] in E.
    inversion E as [E']. clear E.
    destruct (isVariable e1) eqn:V1, (isVariable e2) eqn:V2.
    + apply app_inv_head in E'.
      destruct (IH segs2 H1' H2' E') as [-> ->]. now split.
    + exfalso. destruct e2 as [|d e2]; [congruence|].
      cbn [regexp.QuoteMeta] in E'.
      destruct (syntax.special d) eqn:Sd; cbn in E'; inversion E'; subst.
      discriminate Sd.
    + exfalso. destruct e1 as [|d e1]; [congruence|].
      cbn [regexp.QuoteMeta] in E'.
      destruct (syntax.special d) eqn:Sd; cbn in E'; inversion E'; subst.
      discriminate Sd.
    + destruct (@QuoteMeta_injective e1 e2 _ _ S1 S2
                  (slashHead_chunks segs1) (slashHead_chunks segs2) E')
        as [-> E''].
      destruct (IH segs2 H1' H2' E'') as [-> ->]. now split.
Qed.

(** X5: what [selectRoutes] returns, for a remainder other than [""] and
    ["/"]: every route returned is a route of the dispatcher whose
    expression compiles and matches the remainder with a remainder group
    that is [""] or ["/"]; all the routes returned have the same
    expression, and so the same literalCount and varCount; there are no
    more of them than the dispatcher has routes; and the result is empty
    exactly when the error is returned. *)
Theorem X5_selectRoutes_returns_matching_routes_of_one_expression
        (S : sort.Sorter) (D : Type) (I : Dispatcher D)
        (dispatcher : D) (final : gostring) :
  beyondRoot final ->
  let returned := fst (selectRoutes dispatcher final) in
  (forall r, In r returned ->
             In r (Routes dispatcher)
             /\ exists matches,
                 templateMatch (relativePath r) final = Some matches
                 /\ (remainderOf matches = str "" \/ remainderOf matches = str "/"))
  /\ (forall r1 r2, In r1 returned -> In r2 returned ->
                    templateToRegularExpression (relativePath r1)
                    = templateToRegularExpression (relativePath r2))
  /\ length returned <= length (Routes dispatcher)
  /\ (returned = [] <-> snd (selectRoutes dispatcher final) <> None).
Proof.
  intros Hfinal returned.
  assert (forall r, In r returned ->
                    exists c, In c (routeCandidates (Routes dispatcher) final)
                              /\ routeCandidate.route c = r) as Hcand.
  { intros r. apply selectRoutes_among_candidates. exact Hfinal. }
  split; [|split; [|split]].
  - intros r Hr. destruct (Hcand r Hr) as (c & Hc & <-).
    rewrite routeCandidates_flat_map in Hc. apply in_flat_map in Hc.
    destruct Hc as (each & Hin & Hc). apply routeCandidateOf_spec in Hc.
    destruct Hc as (compiled & matches & Hcomp & Hm & Hrem & ->).
    cbn [routeCandidate.route]. split; [exact Hin|].
    exists matches. unfold templateMatch. rewrite Hcomp. auto.
  - subst returned. rewrite (selectRoutes_beyondRoot dispatcher Hfinal).
    destruct (routeCandidates (Routes dispatcher) final) as [|c0 l] eqn:E;
      [intros ? ? []|].
    cbv zeta. cbn [fst]. unfold tieGroup. intros r1 r2 H1 H2.
    apply in_map_iff in H1, H2.
    destruct H1 as (c1 & <- & H1). destruct H2 as (c2 & <- & H2).
    apply filter_In in H1, H2. destruct H1 as [H1 E1]. destruct H2 as [H2 E2].
    apply Sort_In in H1, H2. apply streq_true in E1, E2. rewrite <- E in H1, H2.
    destruct (routeCandidate_of_template _ _ _ H1) as (_ & X1 & _).
    destruct (routeCandidate_of_template _ _ _ H2) as (_ & X2 & _).
    assert (fst (fst (templateToRegularExpression
                        (relativePath (routeCandidate.route c1))))
            = fst (fst (templateToRegularExpression
                          (relativePath (routeCandidate.route c2))))) as Hexpr
        by congruence.
    clear - Hexpr.
    rewrite !templateToRegularExpression_segments in *. cbn [fst] in Hexpr.
    pose proof Hexpr as Hchunks. apply app_inv_tail in Hchunks.
    destruct (@chunks_counters
                (segments (relativePath (routeCandidate.route c1)))
                (segments (relativePath (routeCandidate.route c2)))
                (segments_no_slash _) (segments_no_slash _) Hchunks) as [-> ->].
    now rewrite Hchunks.
  - subst returned. rewrite (selectRoutes_beyondRoot dispatcher Hfinal).
    rewrite routeCandidates_flat_map.
    destruct (flat_map (fun each => routeCandidateOf each final) (Routes dispatcher))
      as [|c0 l] eqn:E; [cbn; lia|].
    cbv zeta. cbn [fst]. unfold tieGroup. rewrite length_map.
    etransitivity; [apply filter_length_le|].
    rewrite Sort_length, <- E. clear.
    induction (Routes dispatcher) as [|each routes IH]; [reflexivity|].
    cbn [flat_map]. rewrite length_app. cbn [length].
    assert (length (routeCandidateOf each final) <= 1); [|lia].
    unfold routeCandidateOf.
    destruct (templateToRegularExpression (relativePath each)) as [[e lc] vc].
    destruct (regexp.Compile e); [|cbn; lia].
    destruct (regexp.FindStringSubmatch _ final); [|cbn; lia].
    cbv zeta. destruct (_ || _); cbn; lia.
  - subst returned. rewrite (selectRoutes_beyondRoot dispatcher Hfinal).
    destruct (routeCandidates (Routes dispatcher) final) as [|c0 l] eqn:E.
    + cbn. split; [discriminate | reflexivity].
    + cbv zeta. cbn [fst snd]. split; [|congruence].
      intros Hnil. exfalso.
      destruct (@Sort_head_best S _ sortableRouteCandidates.less c0 c0 l
                                route_less_order) as [Hin _].
      assert (In (routeCandidate.route
                    (nth 0 (sort.Sort sortableRouteCandidates.less (c0 :: l)) c0))
                 (tieGroup (nth 0 (sort.Sort sortableRouteCandidates.less (c0 :: l)) c0)
                           (sort.Sort sortableRouteCandidates.less (c0 :: l)))) as Hmem.
      { unfold tieGroup. apply in_map. apply filter_In.
        split; [now apply Sort_In | apply streq_refl]. }
      rewrite Hnil in Hmem. destruct Hmem.
Qed.

(** X5 at the routes [/a/{x}], [/a/{y}] and [/b] with the remainder [/a/z]:
    the two routes of the one expression are returned, and no error. *)
Lemma X5_witness :
  beyondRoot (str "/a/z")
  /\ selectRoutes (serving "/" ["/a/{x}"; "/b"; "/a/{y}"]%string) (str "/a/z")
     = ([routeAt "/a/{x}"; routeAt "/a/{y}"], None)
  /\ templateToRegularExpression (str "/a/{x}")
     = templateToRegularExpression (str "/a/{y}").
Proof.
  split; [reflexivity|]. split; [vm_compute; reflexivity|].
  pose proof (@X5_selectRoutes_returns_matching_routes_of_one_expression
                insertionSorter WebService WebService_Dispatcher
                (serving "/" ["/a/{x}"; "/b"; "/a/{y}"]%string) (str "/a/z")
                eq_refl) as H.
  cbv zeta in H. destruct H as (_ & Hsame & _).
  apply (Hsame (routeAt "/a/{x}") (routeAt "/a/{y}"));
    vm_compute; auto.
Defined.

(** ** Where a match ends and what it captures *)

Lemma suffixOf_refl (s : gostring) : suffixOf s s.
Proof. now exists []. Qed.

Lemma suffixOf_trans (a b c : gostring) : suffixOf a b -> suffixOf b c -> suffixOf a c.
Proof. intros [p ->] [q ->]. exists (q ++ p). now rewrite app_assoc. Qed.

Lemma suffixOf_length (a b : gostring) : suffixOf a b -> length a <= length b.
Proof. intros [p ->]. rewrite length_app. lia. Qed.

Lemma kept_refl (m : nat) (c : regexp.caps) : kept m c c.
Proof. now intros i _. Qed.

Lemma kept_trans (m : nat) (a b c : regexp.caps) : kept m a b -> kept m b c -> kept m a c.
Proof. intros H1 H2 i Hi. now rewrite H1, H2. Qed.

Lemma kept_le (m m' : nat) (a b : regexp.caps) : m <= m' -> kept m a b -> kept m' a b.
Proof. intros Hle H i Hi. apply H. lia. Qed.

Lemma stepRune_frame (test : N -> bool) (s : gostring) (c : regexp.caps)
      (k : regexp.cont) (r : regexp.result) :
  regexp.stepRune test s c k = Some r ->
  exists s', k s' c = Some r /\ suffixOf s' s /\ length s' < length s.
Proof.
  unfold regexp.stepRune. destruct s as [|c0 t]; [discriminate|].
  pose proof (@DecodeRuneInString_skipn (c0 :: t) ltac:(discriminate)) as Hlt.
  destruct (utf8.DecodeRuneInString (c0 :: t)) as [rune size]. cbn [snd] in Hlt.
  destruct (test rune); [|discriminate]. intros Hk.
  exists (skipn size (c0 :: t)). split; [exact Hk|]. split; [|exact Hlt].
  exists (firstn size (c0 :: t)). symmetry. apply firstn_skipn.
Qed.

Section LoopFrame.

Variable body : gostring -> regexp.caps -> regexp.cont -> option regexp.result.
Variable m : nat.
Hypothesis body_frame :
  forall s c k r, body s c k = Some r ->
                  exists s' c', k s' c' = Some r /\ suffixOf s' s /\ kept m c' c.

Lemma loop_frame (greedy : bool) (k : regexp.cont) (n : nat) :
  forall s c r,
    regexp.loop body greedy k n s c = Some r ->
    exists s' c', k s' c' = Some r /\ suffixOf s' s /\ kept m c' c.
Proof.
  induction n as [|n IH]; intros s c r; cbn [regexp.loop].
  - intros Hk. exists s, c. auto using suffixOf_refl, kept_refl.
  - assert (body s c
                 (fun s' c' =>
                    if length s' <? length s
                    then regexp.loop body greedy k n s' c' else None) = Some r ->
            exists s' c', k s' c' = Some r /\ suffixOf s' s /\ kept m c' c)
      as Hagain.
    { intros Hb. apply body_frame in Hb.
      destruct Hb as (s1 & c1 & Hcont & Hs1 & Hc1).
      destruct (length s1 <? length s); [|discriminate].
      apply IH in Hcont. destruct Hcont as (s2 & c2 & Hk & Hs2 & Hc2).
      exists s2, c2. split; [exact Hk|].
      split; [eapply suffixOf_trans | eapply kept_trans]; eassumption. }
    cbv zeta. destruct greedy.
    + destruct (body s c _) as [r'|] eqn:Hb.
      * intros E. inversion E; subst r'. now apply Hagain.
      * intros Hk. exists s, c. auto using suffixOf_refl, kept_refl.
    + destruct (k s c) as [r'|] eqn:Hk.
      * intros E. inversion E; subst r'.
        exists s, c. auto using suffixOf_refl, kept_refl.
      * exact Hagain.
Qed.

End LoopFrame.

(** A match in progress goes on from a later place of the text, and with
    the captures of the groups above its own as they were. *)
Lemma run_frame (re : syntax.Regexp) :
  forall s c k r,
    regexp.run re s c k = Some r ->
    exists s' c', k s' c' = Some r /\ suffixOf s' s /\ kept (syntax.MaxCap re) c' c.
Proof.
  induction re as [| rune | ranges | | cap sub IH | greedy sub IH | greedy sub IH
                   | greedy sub IH | a IHa b IHb];
    intros s c k r; cbn [regexp.run syntax.MaxCap].
  - intros Hk. exists s, c. auto using suffixOf_refl, kept_refl.
  - intros H. apply stepRune_frame in H. destruct H as (s' & Hk & Hs & _).
    exists s', c. auto using kept_refl.
  - intros H. apply stepRune_frame in H. destruct H as (s' & Hk & Hs & _).
    exists s', c. auto using kept_refl.
  - intros H. apply stepRune_frame in H. destruct H as (s' & Hk & Hs & _).
    exists s', c. auto using kept_refl.
  - intros H. apply IH in H. destruct H as (s' & c' & Hk & Hs & Hc).
    eexists s', _. split; [exact Hk|]. split; [exact Hs|].
    intros i Hi. cbn [regexp.capture].
    destruct (Nat.eqb_spec i cap); [lia|]. apply Hc. lia.
  - intros H. eapply loop_frame in H; [exact H|]. exact IH.
  - intros H. apply IH in H. destruct H as (s1 & c1 & Hl & Hs1 & Hc1).
    eapply loop_frame in Hl; [|exact IH].
    destruct Hl as (s2 & c2 & Hk & Hs2 & Hc2).
    exists s2, c2. split; [exact Hk|].
    split; [eapply suffixOf_trans | eapply kept_trans]; eassumption.
  - destruct greedy.
    + destruct (regexp.run sub s c k) as [r'|] eqn:Hsub.
      * intros E. inversion E; subst r'. now apply IH.
      * intros Hk. exists s, c. auto using suffixOf_refl, kept_refl.
    + destruct (k s c) as [r'|] eqn:Hk.
      * intros E. inversion E; subst r'.
        exists s, c. auto using suffixOf_refl, kept_refl.
      * apply IH.
  - intros H. apply IHa in H. destruct H as (s1 & c1 & Hb & Hs1 & Hc1).
    apply IHb in Hb. destruct Hb as (s2 & c2 & Hk & Hs2 & Hc2).
    exists s2, c2. split; [exact Hk|]. split.
    + eapply suffixOf_trans; eassumption.
    + eapply kept_trans; eapply kept_le; try eassumption; lia.
Qed.

(** The greedy star of the remainder group, before a continuation that
    never fails, runs to the end of the line. *)
Lemma star_any_total (K : regexp.cont) :
  (forall s c, K s c <> None) ->
  forall n s c,
    length s <= n ->
    exists s', regexp.loop (regexp.run syntax.OpAnyCharNotNL) true K n s c = K s' c
               /\ suffixOf s' s /\ endsLine s'.
Proof.
  intros Htotal. induction n as [|n IH]; intros s c Hlen.
  - destruct s; [|cbn in Hlen; lia].
    exists []. cbn. auto using suffixOf_refl.
  - cbn [regexp.loop regexp.run]. cbv zeta.
    destruct s as [|c0 t].
    + exists []. cbn. auto using suffixOf_refl.
    + unfold regexp.stepRune.
      pose proof (@DecodeRuneInString_skipn (c0 :: t) ltac:(discriminate)) as Hlt.
      pose proof (DecodeRuneInString_nonascii c0 t) as Hhigh.
      pose proof (DecodeRuneInString_ascii c0 t) as Hlow.
      destruct (utf8.DecodeRuneInString (c0 :: t)) as [rune size].
      cbn [fst snd] in Hlt, Hhigh.
      destruct (N.eqb_spec rune 10) as [E|_]; cbn [negb].
      * exists (c0 :: t). split; [reflexivity|]. split; [apply suffixOf_refl|].
        cbn. destruct (N.lt_ge_cases (N_of_ascii c0) 128) as [Hc|Hc].
        -- specialize (Hlow Hc). inversion Hlow as [[Hr Hsz]].
           rewrite <- (ascii_N_embedding c0), <- Hr, E. reflexivity.
        -- specialize (Hhigh Hc). lia.
      * apply Nat.ltb_lt in Hlt as Hlt'. rewrite Hlt'.
        destruct (IH (skipn size (c0 :: t)) c) as (s' & Hloop & Hs & Hend);
          [cbn [length] in *; lia|].
        change (regexp.loop _ true K n (skipn size (c0 :: t)) c)
          with (regexp.loop (regexp.run syntax.OpAnyCharNotNL) true K n
                            (skipn size (c0 :: t)) c).
        rewrite Hloop. exists s'.
        split; [destruct (K s' c) eqn:HK; [reflexivity | now apply Htotal in HK]|].
        split; [|exact Hend].
        eapply suffixOf_trans; [exact Hs|].
        exists (firstn size (c0 :: t)). symmetry. apply firstn_skipn.
Qed.

(** What the remainder group does at a place [s] of the text: nothing,
    when [s] does not start with a slash; else it captures from that slash
    to the end of the line. *)
Lemma run_remainder_shape (cap : nat) (s : gostring) (c : regexp.caps) :
  exists stop cs,
    regexp.run (remainderItem cap) s c (fun s' c' => Some (s', c')) = Some (stop, cs)
    /\ (((forall t, s <> "/"%char :: t) /\ stop = s /\ cs = c)
        \/ exists text, s = "/"%char :: text ++ stop
                        /\ cs = (cap, "/"%char :: text) :: c
                        /\ endsLine stop).
Proof.
  unfold remainderItem. cbn [regexp.run].
  rewrite (@stepRune_ascii "/"%char) by (cbn; lia).
  destruct s as [|c0 t].
  - exists [], c. split; [reflexivity|]. left. repeat split. discriminate.
  - destruct (Ascii.eqb_spec c0 "/"%char) as [->|Hc0].
    + set (K := fun (s' : gostring) (c' : regexp.caps) =>
                  Some (s', (cap, firstn (length ("/"%char :: t) - length s')
                                         ("/"%char :: t)) :: c')).
      destruct (@star_any_total K ltac:(discriminate) (length t) t c (le_n _))
        as (s' & Hloop & [text Htext] & Hend).
      change (regexp.loop _ true _ (length t) t c)
        with (regexp.loop (regexp.run syntax.OpAnyCharNotNL) true K (length t) t c).
      rewrite Hloop. unfold K.
      eexists s', _. split; [reflexivity|]. right. exists text.
      split; [now rewrite Htext|]. split; [|exact Hend].
      do 2 f_equal. subst t.
      replace (length ("/"%char :: text ++ s') - length s')
        with (length ("/"%char :: text))
        by (cbn [length]; rewrite length_app; lia).
      change ("/"%char :: text ++ s') with (("/"%char :: text) ++ s').
      rewrite firstn_app, Nat.sub_diag, firstn_all. cbn [firstn]. apply app_nil_r.
    + exists (c0 :: t), c. split; [reflexivity|]. left. repeat split.
      intros t' E. inversion E. contradiction.
Qed.

(** The last item of a sequence is reached at a later place of the text,
    with the captures above those of the items before it as they were. *)
Lemma run_items_last (last : syntax.Regexp) (k : regexp.cont) (front : list syntax.Regexp) :
  forall s c r,
    regexp.run (syntax.concat (front ++ [last])) s c k = Some r ->
    exists s1 c1, regexp.run last s1 c1 k = Some r
                  /\ suffixOf s1 s /\ kept (maxCapOf front) c1 c.
Proof.
  induction front as [|x front IH]; intros s c r.
  - cbn [app syntax.concat]. intros H. exists s, c.
    auto using suffixOf_refl, kept_refl.
  - assert (syntax.concat ((x :: front) ++ [last])
            = syntax.OpConcat x (syntax.concat (front ++ [last]))) as ->
        by (cbn [app]; destruct front; reflexivity).
    cbn [regexp.run]. intros H. apply run_frame in H.
    destruct H as (s' & c' & Hrest & Hs' & Hc').
    apply IH in Hrest. destruct Hrest as (s1 & c1 & Hlast & Hs1 & Hc1).
    exists s1, c1. split; [exact Hlast|]. split.
    + eapply suffixOf_trans; eassumption.
    + cbn [maxCapOf fold_right]. fold (maxCapOf front).
      eapply kept_trans; eapply kept_le; try eassumption; lia.
Qed.

(** The items of a template are those of its segments, then the remainder
    group, whose capture is above all of theirs. *)
Lemma templateItems_split (segs : list gostring) :
  forall numCap items,
    templateItems segs numCap = Some items ->
    exists front,
      items = front ++ [remainderItem (S (numCap + length (filter isVariable segs)))]
      /\ maxCapOf front <= numCap + length (filter isVariable segs).
Proof.
  induction segs as [|each segs IH]; intros numCap items.
  - cbn. intros E; inversion E; subst. exists []. rewrite Nat.add_0_r.
    split; [reflexivity | cbn; lia].
  - cbn [templateItems filter]. destruct (isVariable each).
    + destruct (templateItems segs (S numCap)) as [items'|] eqn:E; [|discriminate].
      intros H; inversion H; subst. destruct (IH _ _ E) as (front & -> & Hmax).
      exists (syntax.OpLiteral 47 :: variableItem (S numCap) :: front).
      cbn [length]. rewrite Nat.add_succ_r. split; [reflexivity|].
      cbn [maxCapOf fold_right]. fold (maxCapOf front).
      unfold variableItem, notSlash. cbn [syntax.MaxCap]. cbn [plus] in Hmax. lia.
    + destruct (validRunes each) as [rs|]; [|discriminate].
      destruct (templateItems segs numCap) as [items'|] eqn:E; [|discriminate].
      intros H; inversion H; subst. destruct (IH _ _ E) as (front & -> & Hmax).
      exists (syntax.OpLiteral 47 :: map syntax.OpLiteral rs ++ front).
      split; [cbn [app]; now rewrite app_assoc|].
      cbn [maxCapOf fold_right]. fold (maxCapOf (map syntax.OpLiteral rs ++ front)).
      rewrite maxCapOf_literals. cbn [syntax.MaxCap]. lia.
Qed.

(** The leftmost search starts its match at a place of the text. *)
Lemma search_start (re : syntax.Regexp) (fuel : nat) :
  forall s start r,
    regexp.search re fuel s = Some (start, r) ->
    suffixOf start s
    /\ regexp.run re start [] (fun s' c => Some (s', c)) = Some r.
Proof.
  induction fuel as [|fuel IH]; intros s start r; cbn [regexp.search].
  - destruct (regexp.run re s [] _) as [r'|] eqn:Hrun.
    + intros E; inversion E; subst. split; [apply suffixOf_refl | exact Hrun].
    + discriminate.
  - destruct (regexp.run re s [] _) as [r'|] eqn:Hrun.
    + intros E; inversion E; subst. split; [apply suffixOf_refl | exact Hrun].
    + destruct s as [|c0 t]; [discriminate|]. intros H. apply IH in H.
      destruct H as [Hs Hr]. split; [|exact Hr].
      eapply suffixOf_trans; [exact Hs|].
      eexists. symmetry. apply firstn_skipn.
Qed.

(** The last string of a match is the capture of the last group. *)
Lemma remainderOf_matches (whole : gostring) (f : nat -> gostring) (m : nat) :
  remainderOf (whole :: map f (seq 1 (S m))) = f (S m).
Proof.
  unfold remainderOf. cbn [length]. rewrite length_map, length_seq.
  replace (S (S m) - 1) with (S m) by lia.
  change (nth (S m) (whole :: map f (seq 1 (S m))) [])
    with (nth m (map f (seq 1 (S m))) []).
  rewrite (nth_indep _ [] (f 0)) by (rewrite length_map, length_seq; lia).
  rewrite map_nth, seq_nth by lia. reflexivity.
Qed.

(** The remainder group of a match of a template's expression is empty,
    or a piece of the path that starts with a slash and runs to the end
    of the path or to a line feed. *)
Lemma templateMatch_remainder (template path : gostring) (matches : list gostring) :
  templateMatch template path = Some matches ->
  remainderOf matches = str ""
  \/ exists pre text post,
      remainderOf matches = "/"%char :: text
      /\ path = pre ++ remainderOf matches ++ post
      /\ endsLine post.
Proof.
  unfold templateMatch. rewrite Compile_templateToRegularExpression.
  unfold templateTree.
  destruct (templateItems (segments template) 0) as [items|] eqn:Hitems;
    [|discriminate].
  cbn [option_map]. unfold regexp.FindStringSubmatch.
  cbn [regexp.tree regexp.numSubexp].
  destruct (regexp.search (syntax.concat items) (length path) path)
    as [[start [stop cs]]|] eqn:Hsearch; [|discriminate].
  intros E.
  apply (f_equal (fun found => match found with Some x => x | None => [] end)) in E.
  cbv beta iota in E. subst matches. rewrite remainderOf_matches.
  apply search_start in Hsearch. destruct Hsearch as [[pre0 Hpath] Hrun].
  destruct (templateItems_split _ _ Hitems) as (front & -> & Hmax).
  cbn [plus] in Hmax, Hrun |- *.
  set (idx := S (length (filter isVariable (segments template)))) in *.
  apply run_items_last in Hrun. destruct Hrun as (s1 & c1 & Hlast & [pre1 Hs1] & Hc1).
  destruct (run_remainder_shape idx s1 c1) as (stop' & cs' & Hrem & Hshape).
  rewrite Hrem in Hlast. inversion Hlast; subst stop' cs'. clear Hlast.
  destruct Hshape as [(_ & _ & ->) | (text & Hs1' & -> & Hend)].
  - left. rewrite Hc1 by (unfold idx; lia). reflexivity.
  - right. cbn [regexp.capture]. rewrite Nat.eqb_refl.
    exists (pre0 ++ pre1), text, stop. split; [reflexivity|]. split; [|exact Hend].
    rewrite Hpath, Hs1, Hs1', <- app_assoc. reflexivity.
Qed.

(** X6: [detectDispatcher] returns either no dispatcher, the remainder
    [""] and the error "not found", or a dispatcher of the slice it was
    given, no error, and a remainder that is empty or is a piece of the
    request path that starts with a slash and runs to the end of the path
    or to a line feed: the remainder handed on to the route selection is
    never a text that was not in the request, and never one that starts
    in the middle of a segment. *)
Theorem X6_detectDispatcher_remainder_is_a_tail_of_the_path
        (S : sort.Sorter) (D : Type) (I : Dispatcher D)
        (requestPath : gostring) (dispatchers : list D) :
  let '(found, remainder, err) := detectDispatcher requestPath dispatchers in
  match found with
  | Some d =>
    In d dispatchers
    /\ err = None
    /\ (remainder = str ""
        \/ exists pre text post,
            remainder = "/"%char :: text
            /\ requestPath = pre ++ remainder ++ post
            /\ endsLine post)
  | None => remainder = str "" /\ err = Some (errors.New (str "not found"))
  end.
Proof.
  rewrite detectDispatcher_spec.
  destruct (dispatcherCandidates dispatchers requestPath) as [|c0 l] eqn:Hcands.
  - split; reflexivity.
  - cbv zeta.
    destruct (@Sort_head_best S _ (@sortableCandidates.less D) c0 c0 l
                             (dispatcher_less_order D)) as [Hin _].
    set (best := nth 0 (sort.Sort (@sortableCandidates.less D) (c0 :: l)) c0) in *.
    rewrite <- Hcands in Hin.
    rewrite dispatcherCandidates_flat_map, in_flat_map in Hin.
    destruct Hin as (each & Heach & Hbest).
    apply dispatcherCandidateOf_spec in Hbest.
    destruct Hbest as (compiled & matches & Hc & Hm & ->).
    cbn [dispatcherCandidate.dispatcher dispatcherCandidate.finalMatch].
    split; [exact Heach|]. split; [reflexivity|].
    apply (@templateMatch_remainder (RootPath each) requestPath matches).
    unfold templateMatch. now rewrite Hc.
Qed.

(** ** Paths that instantiate a template *)

Lemma lor_le_add (a b : N) : (N.lor a b <= a + b)%N.
Proof.
  apply N2Z.inj_le. rewrite N2Z.inj_lor, N2Z.inj_add, <- Z.add_lor_land.
  assert (0 <= Z.land (Z.of_N a) (Z.of_N b))%Z
    by (apply Z.land_nonneg; left; apply N2Z.is_nonneg).
  lia.
Qed.

Lemma mod_shift_upper (b m k base : N) :
  (m <> 0 -> base mod m = 0 -> base <= b <= base + k -> k < m -> b mod m <= k)%N.
Proof.
  intros Hm Hbase Hb Hk.
  assert (b = base + (b - base))%N as E by lia.
  rewrite E, N.Div0.add_mod, Hbase, N.add_0_l, N.Div0.mod_mod.
  rewrite N.mod_small; lia.
Qed.

Lemma first_lead_last (b : N) (sz : nat) (lo hi : N) :
  utf8.first b = utf8.lead sz lo hi -> b = 244%N -> hi = 143%N.
Proof. intros E ->. vm_compute in E. now inversion E. Qed.

(** No rune decoded is above [MaxRune]. *)
Lemma DecodeRuneInString_MaxRune (c0 : ascii) (t : gostring) :
  (fst (utf8.DecodeRuneInString (c0 :: t)) <= utf8.MaxRune)%N.
Proof.
  rewrite DecodeRuneInString_cons. cbv zeta.
  assert (utf8.RuneError <= utf8.MaxRune)%N as HRE by (vm_compute; discriminate).
  destruct (utf8.first (N_of_ascii c0)) as [| |sz lo hi] eqn:E.
  - apply first_as in E. cbn [fst]. unfold utf8.MaxRune. lia.
  - exact HRE.
  - destruct (first_lead_ranges _ E) as (Hhi & Hcases).
    destruct (first_lead _ E) as (_ & Hlo & _).
    pose proof (@first_lead_last _ _ _ _ E) as Hlast.
    destruct t as [|c1 t1]; [exact HRE|].
    destruct ((N_of_ascii c1 <? lo) || (hi <? N_of_ascii c1))%N eqn:B1; [exact HRE|].
    apply orb_false_iff in B1. destruct B1 as [B1lo B1hi].
    apply N.ltb_ge in B1lo, B1hi.
    pose proof (N.mod_upper_bound (N_of_ascii c0) 32 ltac:(lia)) as M0a.
    pose proof (N.mod_upper_bound (N_of_ascii c0) 16 ltac:(lia)) as M0b.
    pose proof (N.mod_upper_bound (N_of_ascii c1) 64 ltac:(lia)) as M1.
    destruct Hcases as [(-> & Hb) | [(-> & Hb & _) | (-> & Hb & _)]].
    + cbn [Nat.leb fst]. unfold utf8.MaxRune.
      eapply N.le_trans; [apply lor_le_add|]. rune_bound. lia.
    + cbn [Nat.leb]. destruct t1 as [|c2 t2]; [exact HRE|].
      destruct ((N_of_ascii c2 <? utf8.locb) || (utf8.hicb <? N_of_ascii c2))%N;
        [exact HRE|].
      pose proof (N.mod_upper_bound (N_of_ascii c2) 64 ltac:(lia)) as M2.
      cbn [fst]. unfold utf8.MaxRune.
      eapply N.le_trans; [apply lor_le_add|].
      eapply N.le_trans;
        [apply N.add_le_mono_r, lor_le_add|]. rune_bound. lia.
    + cbn [Nat.leb]. destruct t1 as [|c2 t2]; [exact HRE|].
      destruct ((N_of_ascii c2 <? utf8.locb) || (utf8.hicb <? N_of_ascii c2))%N;
        [exact HRE|].
      destruct t2 as [|c3 t3]; [exact HRE|].
      destruct ((N_of_ascii c3 <? utf8.locb) || (utf8.hicb <? N_of_ascii c3))%N;
        [exact HRE|].
      pose proof (N.mod_upper_bound (N_of_ascii c2) 64 ltac:(lia)) as M2.
      pose proof (N.mod_upper_bound (N_of_ascii c3) 64 ltac:(lia)) as M3.
      cbn [fst]. unfold utf8.MaxRune.
      eapply N.le_trans; [apply lor_le_add|].
      eapply N.le_trans; [apply N.add_le_mono_r, lor_le_add|].
      eapply N.le_trans; [apply N.add_le_mono_r, N.add_le_mono_r, lor_le_add|].
      rune_bound.
      destruct (N.eq_dec (N_of_ascii c0) 244) as [E0|E0].
      * rewrite (Hlast E0) in B1hi.
        pose proof (@mod_shift_upper (N_of_ascii c1) 64 15 128 ltac:(lia) eq_refl
                                     ltac:(unfold utf8.locb in *; lia) ltac:(lia)).
        rewrite E0. change (244 mod 8)%N with 4%N. lia.
      * pose proof (@mod_shift_upper (N_of_ascii c0) 8 3 240 ltac:(lia) eq_refl
                                     ltac:(lia) ltac:(lia)).
        lia.
Qed.

(** The class of a variable takes any one rune but the slash. *)
Lemma stepRune_notSlash (c0 : ascii) (t : gostring) (c : regexp.caps)
      (k : regexp.cont) :
  c0 <> "/"%char ->
  exists pre post,
    t = pre ++ post
    /\ Forall (fun x => 128 <= N_of_ascii x)%N pre
    /\ snd (utf8.DecodeRuneInString (c0 :: t)) = S (length pre)
    /\ regexp.stepRune (regexp.inClass (syntax.negatedClass 47)) (c0 :: t) c k
       = k post c.
Proof.
  intros Hc0. unfold regexp.stepRune.
  pose proof (DecodeRuneInString_MaxRune c0 t) as Hmax.
  pose proof (DecodeRuneInString_nonascii c0 t) as Hhigh.
  pose proof (DecodeRuneInString_ascii c0 t) as Hlow.
  destruct (utf8.DecodeRuneInString (c0 :: t)) as [rune size] eqn:E.
  cbn [fst] in Hmax, Hhigh.
  destruct (DecodeRuneInString_width _ _ E) as (pre & post & Hsplit & Hlen & Hpos & Hpre).
  destruct pre as [|x pre]; [cbn in Hlen; lia|].
  cbn [app] in Hsplit. inversion Hsplit; subst x t. clear Hsplit.
  exists pre, post. split; [reflexivity|]. split; [|split].
  - destruct pre as [|y pre]; [constructor|].
    assert (1 < size) as Hsize by (cbn [length] in Hlen; lia).
    specialize (Hpre Hsize). now inversion Hpre.
  - cbn [snd]. now rewrite <- Hlen.
  - assert (rune <> 47)%N as Hrune.
    { destruct (N.lt_ge_cases (N_of_ascii c0) 128) as [Hc|Hc].
      - specialize (Hlow Hc). inversion Hlow as [[Hr Hsz]].
        intros E47. apply Hc0.
        rewrite <- (ascii_N_embedding c0), E47. reflexivity.
      - specialize (Hhigh Hc). lia. }
    assert (regexp.inClass (syntax.negatedClass 47) rune = true) as ->.
    { unfold regexp.inClass, syntax.negatedClass. cbn [N.eqb app existsb fst snd].
      change (N.pred 47) with 46%N. change (N.succ 47) with 48%N.
      apply orb_true_iff.
      destruct (N.lt_ge_cases rune 47) as [Hlt|Hge].
      - left. apply andb_true_iff. split; apply N.leb_le; lia.
      - right. rewrite orb_false_r. apply andb_true_iff.
        split; apply N.leb_le; [lia | exact Hmax]. }
    change (c0 :: pre ++ post) with ((c0 :: pre) ++ post).
    now rewrite (skipn_pre _ _ Hlen).
Qed.

Lemma stepRune_slash (t : gostring) (c : regexp.caps) (k : regexp.cont) :
  regexp.stepRune (regexp.inClass (syntax.negatedClass 47)) ("/"%char :: t) c k = None.
Proof.
  unfold regexp.stepRune.
  rewrite (DecodeRuneInString_ascii "/"%char t) by (cbn; lia). reflexivity.
Qed.

Lemma run_concat_cons (x : syntax.Regexp) (l : list syntax.Regexp)
      (s : gostring) (c : regexp.caps) (k : regexp.cont) :
  regexp.run (syntax.concat (x :: l)) s c k
  = regexp.run x s c (fun s' c' => regexp.run (syntax.concat l) s' c' k).
Proof. destruct l; reflexivity. Qed.

Lemma run_notSlash (s : gostring) (c : regexp.caps) (k : regexp.cont) :
  regexp.run notSlash s c k
  = regexp.stepRune (regexp.inClass (syntax.negatedClass 47)) s c k.
Proof. reflexivity. Qed.

Lemma slashHead_asciiHead (s : gostring) : slashHead s -> asciiHead s.
Proof. destruct s as [|x s]; cbn; [trivial|]. intros ->. cbn. lia. Qed.

Lemma slashHead_literalPath (values : list gostring) (rest : gostring) :
  slashHead rest -> slashHead (literalPath values ++ rest).
Proof. destruct values; cbn; trivial. Qed.

Lemma sameUntilASCII_app (s rest : gostring) :
  asciiHead rest -> sameUntilASCII (s ++ rest) s.
Proof.
  intros Hrest. induction s as [|x s IH]; cbn [app].
  - apply same_stop; [exact Hrest | exact I].
  - destruct (N.lt_ge_cases (N_of_ascii x) 128) as [Hx|Hx].
    + apply same_stop; exact Hx.
    + now apply same_cons.
Qed.

(** The literals of a valid segment match the segment, and go on after
    it. *)
Lemma run_literal_runes (n : nat) :
  forall (seg : gostring) (rs : list N) (items : list syntax.Regexp)
         (rest : gostring) (c : regexp.caps) (k : regexp.cont),
    length seg <= n -> validRunes seg = Some rs -> asciiHead rest ->
    regexp.run (syntax.concat (map syntax.OpLiteral rs ++ items)) (seg ++ rest) c k
    = regexp.run (syntax.concat items) rest c k.
Proof.
  induction n as [|n IH]; intros seg rs items rest c k Hlen Hrs Hrest.
  - destruct seg; [|cbn in Hlen; lia]. cbn in Hrs. inversion Hrs; subst. reflexivity.
  - destruct seg as [|c0 t].
    { cbn in Hrs. inversion Hrs; subst. reflexivity. }
    destruct (utf8.DecodeRuneInString (c0 :: t)) as [r size] eqn:E.
    destruct (DecodeRuneInString_width _ _ E) as (pre & post & Hsplit & Hsize & Hpos & _).
    destruct pre as [|x pre]; [cbn in Hsize; lia|].
    cbn [app] in Hsplit. inversion Hsplit; subst x t. clear Hsplit.
    cbn [length] in Hsize. subst size.
    rewrite (@validRunes_cons c0 pre post r E) in Hrs.
    destruct (_ && _) in Hrs; [discriminate|].
    destruct (validRunes post) as [rs'|] eqn:Hpost; [|discriminate].
    cbn [option_map] in Hrs. inversion Hrs; subst rs. clear Hrs.
    cbn [map app]. rewrite run_concat_cons. cbn [regexp.run].
    unfold regexp.stepRune.
    rewrite (@DecodeRuneInString_same c0 ((pre ++ post) ++ rest) (pre ++ post)
                                      (@sameUntilASCII_app (pre ++ post) rest Hrest)), E.
    rewrite N.eqb_refl, <- app_assoc.
    change (c0 :: pre ++ post ++ rest) with ((c0 :: pre) ++ post ++ rest).
    rewrite skipn_pre by reflexivity.
    apply IH; [|exact Hpost | exact Hrest].
    cbn [length] in Hlen. rewrite length_app in Hlen. lia.
Qed.

(** A rune that starts in a value ends in it: no rune goes on into the
    slash after the value. *)
Lemma prefix_within (pre post t rest : gostring) :
  Forall (fun x => 128 <= N_of_ascii x)%N pre -> asciiHead rest ->
  pre ++ post = t ++ rest ->
  exists v, t = pre ++ v /\ post = v ++ rest.
Proof.
  intros Hpre Hrest. revert t. induction Hpre as [|x pre Hx _ IH]; intros t E.
  - exists t. split; [reflexivity | exact E].
  - destruct t as [|y t]; cbn [app] in E.
    + subst rest. cbn in Hrest. lia.
    + injection E as <- E'. destruct (IH t E') as (v & -> & ->).
      exists v. split; reflexivity.
Qed.

(** The lazy repetition of a variable, before a continuation that fails
    where no slash stands, runs to the end of the value. *)
Lemma lazy_value (k : regexp.cont) (rest : gostring) :
  (forall c0 t c, c0 <> "/"%char -> k (c0 :: t) c = None) ->
  slashHead rest ->
  forall n v c,
    length (v ++ rest) <= n -> ~ In "/"%char v ->
    regexp.loop (regexp.run notSlash) false k n (v ++ rest) c = k rest c.
Proof.
  intros Hk Hrest. induction n as [|n IH]; intros v c Hlen Hv.
  - destruct v; [reflexivity | cbn in Hlen; lia].
  - cbn [regexp.loop]. cbv zeta. destruct v as [|c0 v]; cbn [app].
    + destruct (k rest c) eqn:Hkr; [reflexivity|]. rewrite run_notSlash.
      destruct rest as [|x rest']; [reflexivity|].
      cbn in Hrest. subst x. apply stepRune_slash.
    + assert (c0 <> "/"%char) as Hc0 by (intros ->; apply Hv; now left).
      rewrite (Hk c0 (v ++ rest) c Hc0), run_notSlash.
      match goal with
      | |- regexp.stepRune _ _ _ ?cont = _ =>
        destruct (@stepRune_notSlash c0 (v ++ rest) c cont Hc0)
          as (pre & post & Hsplit & Hpre & _ & ->)
      end.
      symmetry in Hsplit.
      destruct (@prefix_within pre post v rest Hpre
                               (@slashHead_asciiHead rest Hrest) Hsplit)
        as (v' & -> & ->).
      assert ((length (v' ++ rest) <? length (c0 :: (pre ++ v') ++ rest)) = true) as ->
          by (apply Nat.ltb_lt; cbn [length]; rewrite !length_app; lia).
      apply IH.
      * cbn [length app] in Hlen. rewrite !length_app in *. lia.
      * intros Hin. apply Hv. right. apply in_or_app. now right.
Qed.

Lemma loop_lazy_first (body : gostring -> regexp.caps -> regexp.cont -> option regexp.result)
      (k : regexp.cont) (n : nat) (s : gostring) (c : regexp.caps) (r : regexp.result) :
  k s c = Some r -> regexp.loop body false k n s c = Some r.
Proof. intros H. destruct n; cbn [regexp.loop]; cbv zeta; now rewrite H. Qed.

(** The group of a variable that is not the last item takes a whole
    value: what comes after it in the expression starts with a slash. *)
Lemma run_variable_inner (cap : nat) (k : regexp.cont) (v rest : gostring)
      (c : regexp.caps) :
  (forall c0 t c, c0 <> "/"%char -> k (c0 :: t) c = None) ->
  slashHead rest -> v <> [] -> ~ In "/"%char v ->
  regexp.run (variableItem cap) (v ++ rest) c k = k rest ((cap, v) :: c).
Proof.
  intros Hk Hrest Hne Hv. destruct v as [|c0 v]; [congruence|].
  assert (c0 <> "/"%char) as Hc0 by (intros ->; apply Hv; now left).
  unfold variableItem. cbn [regexp.run app]. rewrite run_notSlash.
  match goal with
  | |- regexp.stepRune _ _ _ ?cont = _ =>
    destruct (@stepRune_notSlash c0 (v ++ rest) c cont Hc0)
      as (pre & post & Hsplit & Hpre & Hsize & ->)
  end.
  symmetry in Hsplit.
  destruct (@prefix_within pre post v rest Hpre
                           (@slashHead_asciiHead rest Hrest) Hsplit)
    as (v' & -> & ->).
  match goal with
  | |- regexp.loop _ false ?K0 _ _ _ = _ => set (K := K0)
  end.
  rewrite (@lazy_value K rest); [| |exact Hrest|apply le_n|].
  - unfold K. do 3 f_equal.
    replace (length (c0 :: (pre ++ v') ++ rest) - length rest)
      with (length (c0 :: pre ++ v'))
      by (cbn [length]; rewrite !length_app; lia).
    change (c0 :: (pre ++ v') ++ rest) with ((c0 :: pre ++ v') ++ rest).
    rewrite firstn_app, Nat.sub_diag, firstn_all. cbn [firstn]. apply app_nil_r.
  - intros x t c' Hx. unfold K. now apply Hk.
  - intros Hin. apply Hv. right. apply in_or_app. now right.
Qed.

(** What the remainder group holds where it is tried and where it is
    passed. *)
Lemma remainder_shape_group (idx : nat) (s : gostring) (c : regexp.caps)
      (stop : gostring) (cs : regexp.caps) :
  ((forall t, s <> "/"%char :: t) /\ stop = s /\ cs = c)
  \/ (exists text, s = "/"%char :: text ++ stop
                   /\ cs = (idx, "/"%char :: text) :: c
                   /\ endsLine stop) ->
  slashHead s ->
  if nonEmpty s then tookRemainder s idx (stop, cs)
  else regexp.capture cs idx = regexp.capture c idx.
Proof.
  intros [(Hno & _ & ->) | (taken & Hs & -> & Hend)] Hhead.
  - destruct s as [|x s]; [reflexivity|].
    cbn in Hhead. subst x. now contradiction (Hno s).
  - subst s. cbn [nonEmpty]. exists taken. cbn [fst snd regexp.capture].
    rewrite Nat.eqb_refl. auto.
Qed.

(** The group of a variable that is the last item takes the first rune
    of its value; the remainder group is tried after that rune. *)
Lemma run_variable_last (cap idx : nat) (v rest : gostring) (c : regexp.caps) :
  cap <> idx -> slashHead rest -> v <> [] -> ~ In "/"%char v ->
  exists r,
    regexp.run (syntax.concat [variableItem cap; remainderItem idx]) (v ++ rest) c
               (fun s' c' => Some (s', c')) = Some r
    /\ remainderGroup (oneRune v) rest idx c r.
Proof.
  intros Hcap Hrest Hne Hv. destruct v as [|c0 v]; [congruence|].
  assert (c0 <> "/"%char) as Hc0 by (intros ->; apply Hv; now left).
  rewrite run_concat_cons. unfold variableItem. cbn [regexp.run app syntax.concat].
  rewrite run_notSlash.
  match goal with
  | |- exists r, regexp.stepRune _ _ _ ?cont = _ /\ _ =>
    destruct (@stepRune_notSlash c0 (v ++ rest) c cont Hc0)
      as (pre & post & Hsplit & Hpre & Hsize & ->)
  end.
  symmetry in Hsplit.
  destruct (@prefix_within pre post v rest Hpre
                           (@slashHead_asciiHead rest Hrest) Hsplit)
    as (v' & -> & ->).
  rewrite (@DecodeRuneInString_same
             c0 ((pre ++ v') ++ rest) (pre ++ v')
             (@sameUntilASCII_app (pre ++ v') rest
                                  (@slashHead_asciiHead rest Hrest))) in Hsize.
  set (text := firstn (length (c0 :: (pre ++ v') ++ rest) - length (v' ++ rest))
                      (c0 :: (pre ++ v') ++ rest)).
  destruct (run_remainder_shape idx (v' ++ rest) ((cap, text) :: c))
    as (stop & cs & Hrun & Hshape).
  exists (stop, cs). split; [now apply loop_lazy_first|].
  assert (regexp.capture ((cap, text) :: c) idx = regexp.capture c idx) as Habove.
  { cbn [regexp.capture]. destruct (Nat.eqb_spec idx cap); [congruence | reflexivity]. }
  unfold remainderGroup, oneRune. rewrite Hsize. cbn [length].
  rewrite length_app. destruct v' as [|x v'].
  - cbn [app length] in *. rewrite Nat.add_0_r, Nat.leb_refl. cbn [andb].
    pose proof (remainder_shape_group Hshape Hrest) as H.
    destruct (nonEmpty rest); [exact H | cbn [snd]; now rewrite H].
  - assert ((S (length pre + length (x :: v')) <=? S (length pre)) = false) as ->
        by (apply Nat.leb_gt; cbn [length]; lia).
    cbn [andb fst snd].
    destruct Hshape as [(_ & _ & ->) | (taken & Hs & _)]; [exact Habove|].
    cbn [app] in Hs. injection Hs as -> _.
    exfalso. apply Hv. right. apply in_or_app. right. now left.
Qed.

Lemma templateItems_head (each : gostring) (segs : list gostring) (numCap : nat)
      (items : list syntax.Regexp) :
  templateItems (each :: segs) numCap = Some items ->
  exists items', items = syntax.OpLiteral 47 :: items'.
Proof.
  cbn [templateItems]. destruct (isVariable each).
  - destruct (templateItems segs (S numCap)); [|discriminate].
    intros [= <-]. eexists. reflexivity.
  - destruct (validRunes each); [|discriminate].
    destruct (templateItems segs numCap); [|discriminate].
    intros [= <-]. eexists. reflexivity.
Qed.

Lemma remainderGroup_above (takes : bool) (rest : gostring) (idx cap : nat)
      (v : gostring) (c : regexp.caps) (r : regexp.result) :
  cap <> idx ->
  remainderGroup takes rest idx ((cap, v) :: c) r -> remainderGroup takes rest idx c r.
Proof.
  intros Hcap. unfold remainderGroup. destruct (takes && nonEmpty rest); [trivial|].
  intros ->. cbn [regexp.capture].
  destruct (Nat.eqb_spec idx cap); [congruence | reflexivity].
Qed.

(** The expression of a template matches, from its first byte, a path
    that instantiates the template segment by segment, whatever follows
    the path after a slash. *)
Lemma run_instance (segs values : list gostring) :
  Forall2 instantiates segs values ->
  forall numCap items rest c,
    templateItems segs numCap = Some items ->
    slashHead rest ->
    exists r,
      regexp.run (syntax.concat items) (literalPath values ++ rest) c
                 (fun s' c' => Some (s', c')) = Some r
      /\ remainderGroup (takesRemainder segs values) rest
                        (S (numCap + length (filter isVariable segs))) c r.
Proof.
  induction 1 as [|each v segs values (Hne & Hno & Hlit) Hall IH];
    intros numCap items rest c Hitems Hrest.
  - cbn in Hitems. injection Hitems as <-.
    cbn [literalPath flat_map app syntax.concat filter length].
    rewrite Nat.add_0_r.
    destruct (run_remainder_shape (S numCap) rest c) as (stop & cs & Hrun & Hshape).
    exists (stop, cs). split; [exact Hrun|].
    exact (remainder_shape_group Hshape Hrest).
  - unfold literalPath. cbn [flat_map]. fold (literalPath values).
    rewrite <- app_assoc. cbn [app].
    cbn [templateItems filter] in Hitems |- *.
    destruct (isVariable each) eqn:Hvar.
    + destruct (templateItems segs (S numCap)) as [items'|] eqn:Hitems';
        [|discriminate].
      cbn [option_map] in Hitems. injection Hitems as <-.
      rewrite run_concat_cons. cbn [regexp.run].
      rewrite (@stepRune_ascii "/"%char) by (cbn; lia). rewrite Ascii.eqb_refl.
      cbn [length]. rewrite Nat.add_succ_r.
      destruct Hall as [|each' v' segs' values' Hinst' Hall'].
      * cbn in Hitems'. injection Hitems' as <-.
        cbn [literalPath flat_map app filter length]. rewrite Nat.add_0_r.
        unfold takesRemainder. cbn [endsInVariable last]. rewrite Hvar.
        cbn [negb orb]. apply run_variable_last; auto.
      * destruct (templateItems_head _ _ _ Hitems') as (items'' & ->).
        rewrite run_concat_cons, run_variable_inner; auto.
        -- destruct (IH (S numCap) _ rest ((S numCap, v) :: c) Hitems' Hrest)
             as (r & Hrun & Htaken).
           exists r. split; [exact Hrun|].
           apply remainderGroup_above in Htaken; [exact Htaken | lia].
        -- intros c0 t c' Hc0. rewrite run_concat_cons. cbn [regexp.run].
           rewrite (@stepRune_ascii "/"%char) by (cbn; lia).
           destruct (Ascii.eqb_spec c0 "/"%char); [contradiction | reflexivity].
        -- now apply slashHead_literalPath.
    + rewrite (Hlit eq_refl) in *. clear Hlit.
      destruct (validRunes each) as [rs|] eqn:Hrs; [|discriminate].
      destruct (templateItems segs numCap) as [items'|] eqn:Hitems'; [|discriminate].
      cbn [option_map] in Hitems. injection Hitems as <-.
      rewrite run_concat_cons. cbn [regexp.run].
      rewrite (@stepRune_ascii "/"%char) by (cbn; lia). rewrite Ascii.eqb_refl.
      rewrite (@run_literal_runes (length each) each rs items'
                                  (literalPath values ++ rest) c _ (le_n _) Hrs)
        by (apply slashHead_asciiHead; now apply slashHead_literalPath).
      assert (takesRemainder (each :: segs) (each :: values)
              = takesRemainder segs values) as ->.
      { unfold takesRemainder. destruct Hall; cbn [endsInVariable last];
          [now rewrite Hvar | reflexivity]. }
      now apply IH.
Qed.

Lemma search_here (re : syntax.Regexp) (fuel : nat) (s : gostring)
      (r : regexp.result) :
  regexp.run re s [] (fun s' c => Some (s', c)) = Some r ->
  regexp.search re fuel s = Some (s, r).
Proof. intros H. destruct fuel; cbn [regexp.search]; now rewrite H. Qed.

(** A path that instantiates a template, then goes on after a slash or
    ends, is matched by the template's expression.  The remainder group
    holds what follows the instance, to the end of the line, when the
    remainder group is tried where the instance ends; it is empty
    otherwise. *)
Lemma templateMatch_instance_exact (template : gostring) (values : list gostring)
      (rest : gostring) :
  literalsValid template = true ->
  Forall2 instantiates (segments template) values ->
  slashHead rest ->
  exists matches,
    templateMatch template (literalPath values ++ rest) = Some matches
    /\ if takesRemainder (segments template) values && nonEmpty rest
       then exists stop, rest = remainderOf matches ++ stop /\ endsLine stop
       else remainderOf matches = str "".
Proof.
  intros Hvalid Hinst Hrest. apply literalsValid_Compile in Hvalid.
  unfold templateMatch. rewrite Compile_templateToRegularExpression in *.
  unfold templateTree in *.
  destruct (templateItems (segments template) 0) as [items|] eqn:Hitems;
    [|now contradiction Hvalid].
  cbn [option_map]. unfold regexp.FindStringSubmatch.
  cbn [regexp.tree regexp.numSubexp].
  destruct (run_instance Hinst 0 rest [] Hitems Hrest) as ([stop cs] & Hrun & Htaken).
  rewrite (@search_here _ (length (literalPath values ++ rest)) _ _ Hrun). eexists.
  split; [reflexivity|].
  rewrite remainderOf_matches. cbn [plus] in Htaken. unfold remainderGroup in Htaken.
  destruct (takesRemainder (segments template) values && nonEmpty rest).
  - destruct Htaken as (text & H & Hs & Hend). cbn [fst snd] in *.
    exists stop. rewrite H. split; [exact Hs | exact Hend].
  - exact Htaken.
Qed.

Lemma templateMatch_instance (template : gostring) (values : list gostring)
      (rest : gostring) :
  literalsValid template = true ->
  Forall2 instantiates (segments template) values ->
  slashHead rest ->
  exists matches,
    templateMatch template (literalPath values ++ rest) = Some matches
    /\ (remainderOf matches = str ""
        \/ exists stop, rest = remainderOf matches ++ stop /\ endsLine stop).
Proof.
  intros Hvalid Hinst Hrest.
  destruct (@templateMatch_instance_exact template values rest Hvalid Hinst Hrest)
    as (matches & Hm & H).
  exists matches. split; [exact Hm|].
  destruct (takesRemainder (segments template) values && nonEmpty rest); auto.
Qed.

Lemma beyondRoot_literalPath (v : gostring) (values : list gostring)
      (rest : gostring) :
  v <> [] -> beyondRoot (literalPath (v :: values) ++ rest).
Proof.
  intros Hv. destruct v as [|x v]; [congruence|]. reflexivity.
Qed.

Lemma routeCandidate_intro (routes : list Route) (final : gostring) (each : Route)
      (matches : list gostring) :
  In each routes ->
  templateMatch (relativePath each) final = Some matches ->
  remainderOf matches = str "" \/ remainderOf matches = str "/" ->
  exists c, In c (routeCandidates routes final) /\ routeCandidate.route c = each.
Proof.
  intros Hin Hm Hrem. unfold templateMatch in Hm.
  destruct (regexp.Compile _) as [compiled|] eqn:Hc; [|discriminate].
  eexists. split.
  - rewrite routeCandidates_flat_map. apply in_flat_map. exists each.
    split; [exact Hin|]. apply routeCandidateOf_spec.
    exists compiled, matches. repeat split; eauto.
  - reflexivity.
Qed.

Lemma dispatcherCandidate_intro (D : Type) {I : Dispatcher D}
      (dispatchers : list D) (requestPath : gostring) (each : D)
      (matches : list gostring) :
  In each dispatchers ->
  templateMatch (RootPath each) requestPath = Some matches ->
  exists c, In c (dispatcherCandidates dispatchers requestPath)
            /\ dispatcherCandidate.dispatcher c = each.
Proof.
  intros Hin Hm. unfold templateMatch in Hm.
  destruct (regexp.Compile _) as [compiled|] eqn:Hc; [|discriminate].
  eexists. split.
  - rewrite dispatcherCandidates_flat_map. apply in_flat_map. exists each.
    split; [exact Hin|]. apply dispatcherCandidateOf_spec.
    exists compiled, matches. repeat split; eauto.
  - reflexivity.
Qed.

(** Candidates of one expression have the same keys. *)
Lemma routeKeys_of_template (routes : list Route) (final : gostring)
      (c : routeCandidate.t) :
  In c (routeCandidates routes final) ->
  routeKeys c
  = ((snd (templateToRegularExpression (relativePath (routeCandidate.route c))) + 2)%Z,
     snd (fst (templateToRegularExpression (relativePath (routeCandidate.route c)))),
     snd (templateToRegularExpression (relativePath (routeCandidate.route c)))).
Proof.
  intros Hc. unfold routeKeys. rewrite (routeCandidate_matchesCount _ _ _ Hc).
  destruct (routeCandidate_of_template _ _ _ Hc) as (_ & _ & -> & -> & _).
  reflexivity.
Qed.

Lemma dispatcherKeys_of_template (D : Type) {I : Dispatcher D}
      (dispatchers : list D) (requestPath : gostring) (c : dispatcherCandidate.t D) :
  In c (dispatcherCandidates dispatchers requestPath) ->
  dispatcherKeys c
  = ((snd (templateToRegularExpression
             (RootPath (dispatcherCandidate.dispatcher c))) + 2)%Z,
     snd (fst (templateToRegularExpression
                 (RootPath (dispatcherCandidate.dispatcher c)))),
     snd (templateToRegularExpression
            (RootPath (dispatcherCandidate.dispatcher c)))).
Proof.
  intros Hc. unfold dispatcherKeys.
  rewrite (dispatcherCandidate_matchesCount _ _ _ Hc).
  destruct (dispatcherCandidate_of_template _ _ _ Hc) as (_ & -> & -> & _).
  reflexivity.
Qed.

Lemma same_expression_same_counters (t1 t2 : gostring) :
  fst (fst (templateToRegularExpression t1)) = fst (fst (templateToRegularExpression t2)) ->
  templateToRegularExpression t1 = templateToRegularExpression t2.
Proof.
  rewrite !templateToRegularExpression_segments. cbn [fst]. intros Hexpr.
  pose proof Hexpr as Hchunks. apply app_inv_tail in Hchunks.
  destruct (@chunks_counters (segments t1) (segments t2)
                             (segments_no_slash _) (segments_no_slash _) Hchunks)
    as [-> ->].
  now rewrite Hchunks.
Qed.

Section Ranking.

Context {S : sort.Sorter}.
Variable D : Type.
Context {I : Dispatcher D}.

(** With a candidate, [selectRoutes] returns routes and no error, and no
    route returned is ranked after the candidate. *)
Lemma selectRoutes_ranked (dispatcher : D) (final : gostring) (c : routeCandidate.t) :
  beyondRoot final ->
  In c (routeCandidates (Routes dispatcher) final) ->
  snd (selectRoutes dispatcher final) = None
  /\ fst (selectRoutes dispatcher final) <> []
  /\ forall r, In r (fst (selectRoutes dispatcher final)) ->
               exists c', In c' (routeCandidates (Routes dispatcher) final)
                          /\ routeCandidate.route c' = r
                          /\ ~ keysBefore (routeKeys c) (routeKeys c').
Proof.
  intros Hfinal Hc. rewrite (selectRoutes_beyondRoot dispatcher Hfinal).
  destruct (routeCandidates (Routes dispatcher) final) as [|c0 l] eqn:E;
    [destruct Hc|].
  cbv zeta. cbn [fst snd].
  destruct (@Sort_head_best S _ sortableRouteCandidates.less c0 c0 l route_less_order)
    as [Hin Hbest].
  set (sorted := sort.Sort sortableRouteCandidates.less (c0 :: l)) in *.
  set (best := nth 0 sorted c0) in *.
  split; [reflexivity|]. split.
  - assert (In (routeCandidate.route best) (tieGroup best sorted)) as Hmem.
    { unfold tieGroup. apply in_map. apply filter_In.
      split; [now apply Sort_In | apply streq_refl]. }
    intros Hnil. rewrite Hnil in Hmem. destruct Hmem.
  - intros r Hr. unfold tieGroup in Hr. apply in_map_iff in Hr.
    destruct Hr as (c' & <- & Hc'). apply filter_In in Hc'.
    destruct Hc' as [Hc' Hexpr]. apply Sort_In in Hc'. apply streq_true in Hexpr.
    exists c'. split; [exact Hc'|]. split; [reflexivity|].
    rewrite <- E in Hc', Hin.
    destruct (routeCandidate_of_template _ _ _ Hc') as (_ & X1 & _).
    destruct (routeCandidate_of_template _ _ _ Hin) as (_ & X2 & _).
    rewrite (routeKeys_of_template _ _ _ Hc').
    rewrite (@same_expression_same_counters
               (relativePath (routeCandidate.route c'))
               (relativePath (routeCandidate.route best))) by congruence.
    rewrite <- (routeKeys_of_template _ _ _ Hin).
    apply (bool_false_iff (route_less_keys c best)). now apply Hbest.
Qed.

(** With a candidate, [detectDispatcher] returns the dispatcher of a
    candidate that is not ranked after it, and no error. *)
Lemma detectDispatcher_ranked (requestPath : gostring) (dispatchers : list D)
      (c : dispatcherCandidate.t D) :
  In c (dispatcherCandidates dispatchers requestPath) ->
  exists best,
    In best (dispatcherCandidates dispatchers requestPath)
    /\ detectDispatcher requestPath dispatchers
       = (Some (dispatcherCandidate.dispatcher best),
          dispatcherCandidate.finalMatch best, None)
    /\ ~ keysBefore (dispatcherKeys c) (dispatcherKeys best).
Proof.
  intros Hc. rewrite detectDispatcher_spec.
  destruct (dispatcherCandidates dispatchers requestPath) as [|c0 l] eqn:E;
    [destruct Hc|].
  cbv zeta.
  destruct (@Sort_head_best S _ (@sortableCandidates.less D) c0 c0 l
                            (dispatcher_less_order D)) as [Hin Hbest].
  eexists. split; [exact Hin|]. split; [reflexivity|].
  apply (bool_false_iff (dispatcher_less_keys c _)). now apply Hbest.
Qed.

End Ranking.

(** X7: [selectRoutes] answers every path that instantiates the template
    of one of the dispatcher's routes, with or without a slash at its
    end: when the literal segments of the template are valid UTF-8, and
    the path is made of one piece per segment, each after a slash, the
    piece of a literal segment being the segment and that of a variable
    any text that is not empty and has no slash, then the expression of
    the template matches the path with a remainder group that is [""] or
    ["/"], no error is returned, and at least one route is. *)
Theorem X7_selectRoutes_answers_the_instances_of_a_template
        (S : sort.Sorter) (D : Type) (I : Dispatcher D)
        (dispatcher : D) (each : Route) (values : list gostring)
        (final : gostring) :
  In each (Routes dispatcher) ->
  literalsValid (relativePath each) = true ->
  Forall2 instantiates (segments (relativePath each)) values ->
  final = literalPath values \/ final = literalPath values ++ str "/" ->
  (exists matches,
      templateMatch (relativePath each) final = Some matches
      /\ (remainderOf matches = str "" \/ remainderOf matches = str "/"))
  /\ snd (selectRoutes dispatcher final) = None
  /\ fst (selectRoutes dispatcher final) <> [].
Proof.
  intros Hin Hvalid Hinst Hfinal.
  assert (exists rest, final = literalPath values ++ rest
                       /\ (rest = str "" \/ rest = str "/")) as (rest & -> & Hrest).
  { destruct Hfinal as [-> | ->].
    - exists []. rewrite app_nil_r. auto.
    - exists (str "/"). auto. }
  assert (slashHead rest) as Hhead by (destruct Hrest as [-> | ->]; cbn; trivial).
  destruct (@templateMatch_instance (relativePath each) values rest
                                    Hvalid Hinst Hhead) as (matches & Hm & Hrem).
  assert (remainderOf matches = str "" \/ remainderOf matches = str "/") as Hok.
  { destruct Hrem as [H | (stop & Hs & _)]; [now left|].
    destruct (remainderOf matches) as [|x [|y taken]]; [now left | | ].
    - destruct Hrest as [-> | ->]; [discriminate|].
      injection Hs as <- _. now right.
    - destruct Hrest as [-> | ->]; discriminate. }
  split; [exists matches; split; assumption|].
  destruct Hinst as [|seg v segs values' (Hv & _) Hall].
  - cbn [literalPath flat_map app].
    assert (selectRoutes dispatcher rest = (Routes dispatcher, None)) as ->
        by (destruct Hrest as [-> | ->]; reflexivity).
    cbn [fst snd]. split; [reflexivity|]. intros Hnil. rewrite Hnil in Hin.
    destruct Hin.
  - destruct (routeCandidate_intro _ _ _ Hin Hm Hok) as (c & Hc & _).
    destruct (@selectRoutes_ranked S D I dispatcher _ c
                                   (@beyondRoot_literalPath v values' rest Hv) Hc)
      as (Herr & Hsome & _).
    split; assumption.
Qed.

(** X7 at the route [/users/{id}/orders] among others, with the path
    [/users/42/orders/]: its expression matches with the remainder ["/"],
    and the route is returned. *)
Lemma X7_witness :
  (exists matches,
      templateMatch (str "/users/{id}/orders") (str "/users/42/orders/") = Some matches
      /\ (remainderOf matches = str "" \/ remainderOf matches = str "/"))
  /\ snd (selectRoutes (serving "/" ["/users"; "/users/{id}/orders"]%string)
                       (str "/users/42/orders/")) = None
  /\ fst (selectRoutes (serving "/" ["/users"; "/users/{id}/orders"]%string)
                       (str "/users/42/orders/")) <> []
  /\ selectRoutes (serving "/" ["/users"; "/users/{id}/orders"]%string)
                  (str "/users/42/orders/")
     = ([routeAt "/users/{id}/orders"], None).
Proof.
  assert (Forall2 instantiates (segments (str "/users/{id}/orders"))
                  [str "users"; str "42"; str "orders"]) as Hinst.
  { repeat constructor; try discriminate;
      cbn; intuition discriminate. }
  pose proof (@X7_selectRoutes_answers_the_instances_of_a_template
                insertionSorter WebService WebService_Dispatcher
                (serving "/" ["/users"; "/users/{id}/orders"]%string)
                (routeAt "/users/{id}/orders")
                [str "users"; str "42"; str "orders"]
                (str "/users/42/orders/")
                (or_intror (or_introl eq_refl)) eq_refl Hinst
                (or_intror eq_refl)) as (Hm & Herr & Hsome).
  split; [exact Hm|]. split; [exact Herr|]. split; [exact Hsome|].
  vm_compute. reflexivity.
Defined.






Lemma notRankedBelow_keys (chosen other : gostring) :
  ~ keysBefore
      ((snd (templateToRegularExpression other) + 2)%Z,
       snd (fst (templateToRegularExpression other)),
       snd (templateToRegularExpression other))
      ((snd (templateToRegularExpression chosen) + 2)%Z,
       snd (fst (templateToRegularExpression chosen)),
       snd (templateToRegularExpression chosen)) ->
  notRankedBelow chosen other.
Proof.
  unfold notRankedBelow, keysBefore.
  destruct (templateToRegularExpression chosen) as [[e l] v].
  destruct (templateToRegularExpression other) as [[e' l'] v'].
  cbn [fst snd]. lia.
Qed.

(** X9: which of the matching templates the selectors choose.  Every
    route [selectRoutes] returns has, in its template, more variable
    segments than any other route of the dispatcher whose expression
    matches with a remainder group of [""] or ["/"], or as many variable
    segments and at least as many bytes of literal segments; the
    dispatcher [detectDispatcher] returns stands in the same way to every
    dispatcher whose root path matches.  So a template with a variable
    is chosen before one that spells the same path out. *)
Theorem X9_selectors_choose_more_variables_then_more_literal_bytes
        (S : sort.Sorter) (D : Type) (I : Dispatcher D) :
  (forall (dispatcher : D) (final : gostring) (each r : Route)
          (matches : list gostring),
      beyondRoot final ->
      In each (Routes dispatcher) ->
      templateMatch (relativePath each) final = Some matches ->
      remainderOf matches = str "" \/ remainderOf matches = str "/" ->
      In r (fst (selectRoutes dispatcher final)) ->
      notRankedBelow (relativePath r) (relativePath each))
  /\ (forall (requestPath : gostring) (dispatchers : list D) (each d : D)
             (matches : list gostring) (remainder : gostring)
             (err : option error),
         In each dispatchers ->
         templateMatch (RootPath each) requestPath = Some matches ->
         detectDispatcher requestPath dispatchers = (Some d, remainder, err) ->
         notRankedBelow (RootPath d) (RootPath each)).
Proof.
  split.
  - intros dispatcher final each r matches Hfinal Hin Hm Hrem Hr.
    destruct (routeCandidate_intro _ _ _ Hin Hm Hrem) as (c & Hc & Hroute).
    destruct (@selectRoutes_ranked S D I dispatcher final c Hfinal Hc)
      as (_ & _ & Hranked).
    destruct (Hranked r Hr) as (c' & Hc' & Hroute' & Hkeys).
    rewrite (routeKeys_of_template _ _ _ Hc), (routeKeys_of_template _ _ _ Hc'),
      Hroute, Hroute' in Hkeys.
    now apply notRankedBelow_keys.
  - intros requestPath dispatchers each d matches remainder err Hin Hm Hd.
    destruct (dispatcherCandidate_intro _ _ _ Hin Hm) as (c & Hc & Hdisp).
    destruct (@detectDispatcher_ranked S D I requestPath dispatchers c Hc)
      as (best & Hbest & Hreturn & Hkeys).
    rewrite Hreturn in Hd. injection Hd as <- _ _.
    rewrite (dispatcherKeys_of_template _ _ _ Hc),
      (dispatcherKeys_of_template _ _ _ Hbest), Hdisp in Hkeys.
    now apply notRankedBelow_keys.
Qed.

(** X9 at the routes [/files/readme] and [/files/{name}] with the path
    [/files/readme]: both match, and the route with the variable is the
    one returned. *)
Lemma X9_witness :
  selectRoutes (serving "/" ["/files/readme"; "/files/{name}"]%string)
               (str "/files/readme")
  = ([routeAt "/files/{name}"], None)
  /\ notRankedBelow (str "/files/{name}") (str "/files/readme")
  /\ ~ notRankedBelow (str "/files/readme") (str "/files/{name}").
Proof.
  split; [vm_compute; reflexivity|]. split.
  - apply (proj1 (@X9_selectors_choose_more_variables_then_more_literal_bytes
                    insertionSorter WebService WebService_Dispatcher)
                 (serving "/" ["/files/readme"; "/files/{name}"]%string)
                 (str "/files/readme") (routeAt "/files/readme")
                 (routeAt "/files/{name}")
                 [str "/files/readme"; str ""]).
    + reflexivity.
    + left. reflexivity.
    + vm_compute. reflexivity.
    + left. reflexivity.
    + vm_compute. left. reflexivity.
  - vm_compute. intros [H | [H _]]; discriminate H.
Defined.

(** ** What follows an instance *)







